(** * MonkeysJS core reactive system (core/reactive.js)

    A shallow embedding of the dependency-tracking engine: [track] and
    [trigger], the effect runner, the proxy handlers of [reactive], [ref],
    [computed], [watch] and [batch].

    JavaScript objects live in a heap indexed by identity; the module-level
    variables of reactive.js ([activeEffect], [effectStack], [targetMap],
    [reactiveMap], [isBatching], [batchQueue]) are the fields of [state].
    User supplied functions (effect bodies, getters, callbacks) are finite
    command trees of type [prog]; the engine is an interpreter with a step
    budget, because effects may re-trigger each other without end.

    Scope of the model: numbers are integers or NaN, prototype chains are
    not modelled (own properties only), every property is writable and
    configurable, and user functions do not throw (the engine's own
    TypeError and RangeError are results of type [Err]). *)

From stdpp Require Import base option list gmap strings pretty.
From Stdlib Require Import ZArith Ascii String.

Local Open Scope string_scope.
Local Open Scope list_scope.

(** ** Values *)

(** Property keys: strings or symbols ([Symbol.for('iterate')],
    [Symbol.iterator], ...). *)
Inductive key :=
| KStr (s : string)
| KSym (s : string).

#[global] Instance key_eq_dec : EqDecision key.
Proof. solve_decision. Defined.

Inductive num :=
| NaN
| Num (z : Z).

#[global] Instance num_eq_dec : EqDecision num.
Proof. solve_decision. Defined.

Inductive value :=
| VUndef
| VNull
| VBool (b : bool)
| VNum (n : num)
| VStr (s : string)
| VObj (a : nat)     (* reference to a heap object *)
| VFun (f : nat).    (* an opaque function value, typeof 'function' *)

#[global] Instance value_eq_dec : EqDecision value.
Proof. solve_decision. Defined.

(** [a === b]: identity on references, NaN differs from itself. *)
Definition strict_eq (a b : value) : bool :=
  match a, b with
  | VNum NaN, _ | _, VNum NaN => false
  | _, _ => bool_decide (a = b)
  end.

(** [a !== b] *)
Definition strict_neq (a b : value) : bool := negb (strict_eq a b).

(** ToBoolean *)
Definition truthy (v : value) : bool :=
  match v with
  | VUndef | VNull | VBool false | VNum NaN | VNum (Num 0) | VStr "" => false
  | _ => true
  end.

(** [v !== null && typeof v === 'object'] *)
Definition is_object (v : value) : bool :=
  match v with VObj _ => true | _ => false end.

(** *** Numeric conversion of keys *)

Definition digit_of (c : ascii) : option Z :=
  let n := Z.of_nat (nat_of_ascii c) in
  if ((48 <=? n) && (n <=? 57))%Z then Some (n - 48)%Z else None.

Fixpoint parse_digits (s : string) (acc : Z) : option Z :=
  match s with
  | EmptyString => Some acc
  | String c r =>
      match digit_of c with
      | Some d => parse_digits r (10 * acc + d)%Z
      | None => None
      end
  end.

(** ToNumber on a string, for the integer literals the model knows: the
    empty string is 0, an optionally signed run of decimal digits is its
    value, anything else (e.g. ["length"]) is NaN. *)
Definition to_number (s : string) : num :=
  match s with
  | EmptyString => Num 0
  | String "-" (String c r) =>
      match parse_digits (String c r) 0 with Some n => Num (- n) | None => NaN end
  | String "+" (String c r) =>
      match parse_digits (String c r) 0 with Some n => Num n | None => NaN end
  | _ => match parse_digits s 0 with Some n => Num n | None => NaN end
  end.

(** ToNumber on a value (objects are not converted in the model). *)
Definition value_to_number (v : value) : num :=
  match v with
  | VNull => Num 0
  | VBool b => Num (if b then 1 else 0)
  | VNum n => n
  | VStr s => to_number s
  | _ => NaN
  end.

Definition num_lt (a b : num) : bool :=
  match a, b with Num x, Num y => (x <? y)%Z | _, _ => false end.

Definition num_ge (a b : num) : bool :=
  match a, b with Num x, Num y => (y <=? x)%Z | _, _ => false end.

(** A canonical array index: decimal, no leading zero, below 2^32 - 1. *)
Definition array_index (k : key) : option Z :=
  match k with
  | KStr (String c r as s) =>
      match parse_digits s 0 with
      | Some i =>
          if (bool_decide (s = "0") || negb (bool_decide (c = "0"%char)))
             && (i <? 4294967295)%Z
          then Some i else None
      | None => None
      end
  | _ => None
  end.

(** ** Insertion-ordered maps and sets

    A JavaScript [Map] iterates in insertion order and [set] on a present
    key keeps its position; a [Set] likewise. *)

Section alist.
Context {K V : Type} `{EqDecision K}.

Fixpoint alist_get (k : K) (l : list (K * V)) : option V :=
  match l with
  | [] => None
  | (k', v) :: r => if decide (k = k') then Some v else alist_get k r
  end.

Fixpoint alist_set (k : K) (v : V) (l : list (K * V)) : list (K * V) :=
  match l with
  | [] => [(k, v)]
  | (k', v') :: r =>
      if decide (k = k') then (k, v) :: r else (k', v') :: alist_set k v r
  end.

Fixpoint alist_del (k : K) (l : list (K * V)) : list (K * V) :=
  match l with
  | [] => []
  | (k', v') :: r =>
      if decide (k = k') then r else (k', v') :: alist_del k r
  end.
End alist.

Section oset.
Context {A : Type} `{EqDecision A}.

Definition set_has (x : A) (l : list A) : bool := bool_decide (x ∈ l).

Definition set_add (x : A) (l : list A) : list A :=
  if set_has x l then l else l ++ [x].

Definition set_delete (x : A) (l : list A) : list A :=
  filter (λ y, y ≠ x) l.
End oset.

(** ** User code

    A user function is a finite tree of engine calls and property accesses;
    the continuation receives what the call returned.  [Effect] returns the
    identity of the runner, [Watch] the identity of the watcher behind the
    returned stop function. *)

Inductive flush := FlushSync | FlushPost | FlushDefault.

(** The [type] argument of [trigger]. *)
Inductive ttype := TSet | TAdd | TDelete.

#[global] Instance ttype_eq_dec : EqDecision ttype.
Proof. solve_decision. Defined.

#[warnings="-register-all"] Inductive prog : Type :=
| Ret (v : value)
| Log (v : value) (k : prog)
| NewObject (props : list (key * value)) (k : value → prog)
| NewArray (elems : list value) (k : value → prog)
| GetProp (o : value) (p : key) (k : value → prog)
| SetProp (o : value) (p : key) (v : value) (k : prog)
| DeleteProp (o : value) (p : key) (k : value → prog)
| HasProp (o : value) (p : key) (k : value → prog)
| OwnKeys (o : value) (k : list key → prog)
| Reactive (v : value) (k : value → prog)
| MkRef (v : value) (k : value → prog)
| ComputedFn (getter : prog) (k : value → prog)
| ComputedOpts (getter : prog) (setter : option (value → prog)) (k : value → prog)
| Effect (fn : prog) (lazy computed : bool) (scheduler : option (nat → prog))
    (onStop : option prog) (k : nat → prog)
| CallEffect (e : nat) (k : value → prog)
| Stop (e : nat) (k : prog)
| Watch (source : prog + value) (callback : nat → value → value → prog)
    (immediate deep : bool) (fl : flush) (k : nat → prog)
| OnCleanup (w : nat) (fn : prog) (k : prog)
| StopWatch (w : nat) (k : prog)
| Batch (fn : prog) (k : prog)
| Track (target : nat) (p : key) (k : prog)
| Trigger (target : nat) (p : key) (ty : ttype) (k : prog).

(** ** Engine data *)

Inductive scheduler :=
| SchedUser (f : nat → prog)    (* options.scheduler given by the caller *)
| SchedComputed (c : nat)       (* the scheduler closure of [computed] *)
| SchedWatch (w : nat).         (* the scheduler closure of [watch] *)

Record options := {
  opt_lazy : bool;
  opt_computed : bool;
  opt_scheduler : option scheduler;
  opt_onStop : option prog }.

(** The function object [effectFn] with its properties. *)
Record effectFn := {
  e_fn : prog;
  e_deps : list (nat * key);    (* the dependency sets it belongs to *)
  e_options : options;
  e_active : bool }.

Inductive setter :=
| SetterReadonly                  (* () => console.warn(...) *)
| SetterUser (f : value → prog)   (* getterOrOptions.set *)
| SetterMissing.                  (* getterOrOptions.set is undefined *)

Inductive obj :=
| OPlain (props : list (key * value))
| OArray (len : Z) (props : list (key * value))
| OProxy (target : nat)
| ORef (v : value)
| OComputed (v : value) (dirty : bool) (eff : nat) (st : setter).

(** The closure of one [watch] call. *)
Record watcher := {
  w_effect : nat;
  w_oldValue : value;
  w_cleanup : option prog;
  w_callback : nat → value → value → prog;
  w_deep : bool;
  w_flush : flush }.

Inductive task :=
| TJob (w : nat)       (* queueMicrotask(job) *)
| TThenJob (w : nat).  (* Promise.resolve().then(() => queueMicrotask(job)) *)

Inductive event :=
| EvLog (v : value)
| EvRun (e : nat)                    (* fn() called inside effectFn *)
| EvSched (e : nat)                  (* effect.options.scheduler(effect) *)
| EvDirty (c : nat)                  (* dirty = true in the scheduler of a computed *)
| EvTrack (t : nat) (k : key)
| EvTrigger (t : nat) (k : key) (ty : ttype)
| EvCallback (w : nat) (nv ov : value)
| EvCleanup (w : nat)
| EvOnStop (e : nat)
| EvFlush (q : list nat)             (* batchQueue.forEach at the end of batch *)
| EvWarn.

#[global] Instance event_eq_dec : EqDecision event.
Proof. solve_decision. Defined.

Record state := {
  heap : gmap nat obj;
  effects : gmap nat effectFn;
  watchers : gmap nat watcher;
  activeEffect : option nat;
  effectStack : list nat;
  targetMap : gmap nat (list (key * list nat));
  reactiveMap : gmap nat nat;
  isBatching : bool;
  batchQueue : list nat;
  microtasks : list task;
  log : list event }.

Definition init : state :=
  {| heap := ∅; effects := ∅; watchers := ∅; activeEffect := None;
     effectStack := []; targetMap := ∅; reactiveMap := ∅;
     isBatching := false; batchQueue := []; microtasks := []; log := [] |}.

Definition set_heap (h : gmap nat obj) (s : state) : state :=
  {| heap := h; effects := effects s; watchers := watchers s;
     activeEffect := activeEffect s; effectStack := effectStack s;
     targetMap := targetMap s; reactiveMap := reactiveMap s;
     isBatching := isBatching s; batchQueue := batchQueue s;
     microtasks := microtasks s; log := log s |}.

Definition set_effects (m : gmap nat effectFn) (s : state) : state :=
  {| heap := heap s; effects := m; watchers := watchers s;
     activeEffect := activeEffect s; effectStack := effectStack s;
     targetMap := targetMap s; reactiveMap := reactiveMap s;
     isBatching := isBatching s; batchQueue := batchQueue s;
     microtasks := microtasks s; log := log s |}.

Definition set_watchers (m : gmap nat watcher) (s : state) : state :=
  {| heap := heap s; effects := effects s; watchers := m;
     activeEffect := activeEffect s; effectStack := effectStack s;
     targetMap := targetMap s; reactiveMap := reactiveMap s;
     isBatching := isBatching s; batchQueue := batchQueue s;
     microtasks := microtasks s; log := log s |}.

Definition set_active (a : option nat) (st : list nat) (s : state) : state :=
  {| heap := heap s; effects := effects s; watchers := watchers s;
     activeEffect := a; effectStack := st;
     targetMap := targetMap s; reactiveMap := reactiveMap s;
     isBatching := isBatching s; batchQueue := batchQueue s;
     microtasks := microtasks s; log := log s |}.

Definition set_targetMap (m : gmap nat (list (key * list nat))) (s : state) : state :=
  {| heap := heap s; effects := effects s; watchers := watchers s;
     activeEffect := activeEffect s; effectStack := effectStack s;
     targetMap := m; reactiveMap := reactiveMap s;
     isBatching := isBatching s; batchQueue := batchQueue s;
     microtasks := microtasks s; log := log s |}.

Definition set_reactiveMap (m : gmap nat nat) (s : state) : state :=
  {| heap := heap s; effects := effects s; watchers := watchers s;
     activeEffect := activeEffect s; effectStack := effectStack s;
     targetMap := targetMap s; reactiveMap := m;
     isBatching := isBatching s; batchQueue := batchQueue s;
     microtasks := microtasks s; log := log s |}.

Definition set_batch (b : bool) (q : list nat) (s : state) : state :=
  {| heap := heap s; effects := effects s; watchers := watchers s;
     activeEffect := activeEffect s; effectStack := effectStack s;
     targetMap := targetMap s; reactiveMap := reactiveMap s;
     isBatching := b; batchQueue := q;
     microtasks := microtasks s; log := log s |}.

Definition set_microtasks (q : list task) (s : state) : state :=
  {| heap := heap s; effects := effects s; watchers := watchers s;
     activeEffect := activeEffect s; effectStack := effectStack s;
     targetMap := targetMap s; reactiveMap := reactiveMap s;
     isBatching := isBatching s; batchQueue := batchQueue s;
     microtasks := q; log := log s |}.

Definition emit (ev : event) (s : state) : state :=
  {| heap := heap s; effects := effects s; watchers := watchers s;
     activeEffect := activeEffect s; effectStack := effectStack s;
     targetMap := targetMap s; reactiveMap := reactiveMap s;
     isBatching := isBatching s; batchQueue := batchQueue s;
     microtasks := microtasks s; log := log s ++ [ev] |}.

(** Allocation of a fresh object, function object or watcher closure. *)
Definition alloc (o : obj) (s : state) : nat * state :=
  let a := fresh (dom (heap s)) in (a, set_heap (<[a := o]> (heap s)) s).

(** ** Results

    A call returns normally, or throws ([TypeError], [RangeError]), or runs
    out of the step budget, or leaves the modelled fragment. *)

Inductive error := OutOfFuel | TypeError | RangeError | Unsupported.

Inductive res (A : Type) :=
| Ok (a : A) (s : state)
| Err (e : error) (s : state).
Arguments Ok {A} a s.
Arguments Err {A} e s.

Definition M (A : Type) : Type := state → res A.

Definition ret {A} (a : A) : M A := λ s, Ok a s.

Definition bind {A B} (m : M A) (f : A → M B) : M B :=
  λ s, match m s with
       | Ok a s' => f a s'
       | Err e s' => Err e s'
       end.

Definition throw {A} (e : error) : M A := λ s, Err e s.

(** A state update that returns nothing. *)
Definition modify (f : state → state) : M unit := λ s, Ok tt (f s).

Definition gets {A} (f : state → A) : M A := λ s, Ok (f s) s.

Declare Scope eng_scope.
Delimit Scope eng_scope with eng.
Notation "'let*' x := m 'in' k" := (bind m (λ x, k))
  (at level 10, x name, m at level 100, k at level 200, only parsing) : eng_scope.
Notation "m ;;; k" := (bind m (λ _, k))
  (at level 100, k at level 200, right associativity, only parsing) : eng_scope.
Local Open Scope eng_scope.

(** ** The dependency registry *)

Definition with_deps (d : list (nat * key)) (ef : effectFn) : effectFn :=
  {| e_fn := e_fn ef; e_deps := d; e_options := e_options ef; e_active := e_active ef |}.

Definition with_active (b : bool) (ef : effectFn) : effectFn :=
  {| e_fn := e_fn ef; e_deps := e_deps ef; e_options := e_options ef; e_active := b |}.

(** The dependency set of (target, key); empty when none was created. *)
Definition dep_of (s : state) (target : nat) (k : key) : list nat :=
  match targetMap s !! target with
  | Some depsMap => default [] (alist_get k depsMap)
  | None => []
  end.

Definition track (target : nat) (k : key) (s : state) : state :=
  let s := emit (EvTrack target k) s in
  match activeEffect s with
  | None => s
  | Some ae =>
      (* depsMap and dep, each created when absent *)
      let depsMap := default [] (targetMap s !! target) in
      let dep := default [] (alist_get k depsMap) in
      let dep' := if set_has ae dep then dep else dep ++ [ae] in
      let s' := set_targetMap (<[target := alist_set k dep' depsMap]> (targetMap s)) s in
      if set_has ae dep then s'
      else (* activeEffect.deps.add(dep) *)
        set_effects (alter (λ ef, with_deps (set_add (target, k) (e_deps ef)) ef) ae
                       (effects s')) s'
  end.

(** [dep.delete(effectFn)] for the dependency set of (target, key). *)
Definition dep_delete (e : nat) (s : state) (tk : nat * key) : state :=
  match targetMap s !! tk.1 with
  | Some depsMap =>
      match alist_get tk.2 depsMap with
      | Some dep =>
          set_targetMap (<[tk.1 := alist_set tk.2 (set_delete e dep) depsMap]> (targetMap s)) s
      | None => s
      end
  | None => s
  end.

Definition cleanup (e : nat) (s : state) : state :=
  match effects s !! e with
  | Some ef =>
      let s' := foldl (dep_delete e) s (e_deps ef) in
      set_effects (alter (with_deps []) e (effects s')) s'
  | None => s
  end.

Definition is_computed (s : state) (e : nat) : bool :=
  match effects s !! e with
  | Some ef => opt_computed (e_options ef)
  | None => false
  end.

(** The two local sets of [trigger], as (effects, computedEffects). *)
Definition addEffects (s : state) (dep : list nat)
    (acc : list nat * list nat) : list nat * list nat :=
  foldl (λ acc e,
           if bool_decide (activeEffect s = Some e) then acc
           else if is_computed s e then (acc.1, set_add e acc.2)
           else (set_add e acc.1, acc.2))
        acc dep.

Definition is_array (s : state) (a : nat) : bool :=
  match heap s !! a with Some (OArray _ _) => true | _ => false end.

Definition array_length (s : state) (a : nat) : Z :=
  match heap s !! a with Some (OArray len _) => len | _ => 0 end.

(** [depsMap.forEach((dep, k) => { if (k >= target.length) addEffects(dep) })];
    comparing a symbol key with a number throws a TypeError. *)
Fixpoint length_sweep (s : state) (len : Z) (depsMap : list (key * list nat))
    (acc : list nat * list nat) : option (list nat * list nat) :=
  match depsMap with
  | [] => Some acc
  | (KSym _, _) :: _ => None
  | (KStr k, dep) :: r =>
      length_sweep s len r
        (if num_ge (to_number k) (Num len) then addEffects s dep acc else acc)
  end.

(** What one call of [trigger] collects before it replays anything:
    [None] when the call returns at once (no depsMap), otherwise the sets
    (effects, computedEffects) or the TypeError of the sweep. *)
Definition trigger_collect (s : state) (target : nat) (k : key) (ty : ttype)
    : option (error + list nat * list nat) :=
  match targetMap s !! target with
  | None => None
  | Some depsMap =>
      let acc := addEffects s (default [] (alist_get k depsMap)) ([], []) in
      let acc :=
        if bool_decide (ty = TAdd) && is_array s target
        then addEffects s (default [] (alist_get (KStr "length") depsMap)) acc
        else acc in
      if bool_decide (k = KStr "length") && is_array s target
      then match length_sweep s (array_length s target) depsMap acc with
           | Some acc' => Some (inr acc')
           | None => Some (inl TypeError)
           end
      else Some (inr acc)
  end.

(** ** Ordinary objects *)

Definition own_keys (o : obj) : list key :=
  match o with
  | OPlain props => props.*1
  | OArray _ props => props.*1 ++ [KStr "length"]
  | ORef _ => [KStr "__isRef"; KStr "value"]
  | OComputed _ _ _ _ => [KStr "__isRef"; KStr "__isComputed"; KStr "value"]
  | OProxy _ => []
  end.

(** [Object.prototype.hasOwnProperty.call(target, key)]; a proxy without
    the matching trap forwards to its target ([reactive] never wraps a
    proxy, so one level is all there is). *)
Definition has_own (s : state) (a : nat) (k : key) : bool :=
  match heap s !! a with
  | Some (OProxy t) =>
      match heap s !! t with
      | Some o => bool_decide (k ∈ own_keys o)
      | None => false
      end
  | Some o => bool_decide (k ∈ own_keys o)
  | None => false
  end.

(** Reading a data property of a plain object or array. *)
Definition raw_get (o : obj) (k : key) : value :=
  match o with
  | OPlain props => default VUndef (alist_get k props)
  | OArray len props =>
      if bool_decide (k = KStr "length") then VNum (Num len)
      else default VUndef (alist_get k props)
  | _ => VUndef
  end.

Definition below_length (n : Z) (kv : key * value) : bool :=
  match array_index kv.1 with
  | Some i => (i <? n)%Z
  | None => true
  end.

(** Writing a property of an array: assigning [length] truncates, an
    index at or beyond [length] extends it; [None] is the RangeError of an
    invalid length. *)
Definition array_set (len : Z) (props : list (key * value)) (k : key) (v : value)
    : option obj :=
  if bool_decide (k = KStr "length") then
    match value_to_number v with
    | Num n =>
        if ((0 <=? n) && (n <? 4294967296))%Z
        then Some (OArray n (filter (λ kv, below_length n kv = true) props))
        else None
    | NaN => None
    end
  else
    match array_index k with
    | Some i => Some (OArray (Z.max len (i + 1)) (alist_set k v props))
    | None => Some (OArray len (alist_set k v props))
    end.

Definition store (a : nat) (o : obj) (s : state) : state :=
  set_heap (<[a := o]> (heap s)) s.

Definition get_state : M state := λ s, Ok s s.

Definition alloc_obj (o : obj) : M nat :=
  λ s, let '(a, s') := alloc o s in Ok a s'.

(** ** The engine

    The functions of reactive.js call each other and user code without
    bound, so each takes the interpreter [rec] for the calls that close a
    cycle; [exec] below ties the knot over a step budget. *)

Inductive call :=
| CProg (p : prog)                      (* run a user function *)
| CEffectFn (e : nat)                   (* effectFn() *)
| CGet (a : nat) (k : key)              (* a[k] *)
| CSet (a : nat) (k : key) (v : value)  (* a[k] = v, or Reflect.set *)
| CReplay (es : list nat)               (* forEach over a set collected by trigger *)
| CRunAll (es : list nat).              (* batchQueue.forEach(effect => effect()) *)

(** Assignments to the closure variables [oldValue] and [cleanup] of a
    watcher. *)
Definition set_oldValue (w : nat) (v : value) (s : state) : state :=
  set_watchers
    (alter (λ x, {| w_effect := w_effect x; w_oldValue := v;
                    w_cleanup := w_cleanup x; w_callback := w_callback x;
                    w_deep := w_deep x; w_flush := w_flush x |})
       w (watchers s)) s.

Definition set_cleanup (w : nat) (fn : prog) (s : state) : state :=
  set_watchers
    (alter (λ x, {| w_effect := w_effect x; w_oldValue := w_oldValue x;
                    w_cleanup := Some fn; w_callback := w_callback x;
                    w_deep := w_deep x; w_flush := w_flush x |})
       w (watchers s)) s.

Section engine.
Variable rec : call → M value.

Definition effectFn_call (e : nat) : M value :=
  let* s := get_state in
  match effects s !! e with
  | None => throw Unsupported
  | Some ef =>
      modify (cleanup e) ;;;
      modify (λ s, set_active (Some e) (effectStack s ++ [e]) s) ;;;
      modify (emit (EvRun e)) ;;;
      let* result := rec (CProg (e_fn ef)) in
      modify (λ s, let st := removelast (effectStack s) in
                   set_active (last st) st s) ;;;
      ret result
  end.

Definition effect (fn : prog) (o : options) : M nat :=
  let* s := get_state in
  let e := fresh (dom (effects s)) in
  modify (λ s, set_effects
                 (<[e := {| e_fn := fn; e_deps := []; e_options := o;
                            e_active := true |}]> (effects s)) s) ;;;
  (if opt_lazy o then ret VUndef else rec (CEffectFn e)) ;;;
  ret e.

Definition stop (e : nat) : M value :=
  let* s := get_state in
  match effects s !! e with
  | None => throw Unsupported
  | Some ef =>
      if e_active ef then
        modify (cleanup e) ;;;
        modify (λ s, set_effects (alter (with_active false) e (effects s)) s) ;;;
        match opt_onStop (e_options ef) with
        | Some f => modify (emit (EvOnStop e)) ;;; rec (CProg f) ;;; ret VUndef
        | None => ret VUndef
        end
      else ret VUndef
  end.

Definition trigger (target : nat) (k : key) (ty : ttype) : M value :=
  modify (emit (EvTrigger target k ty)) ;;;
  let* s := get_state in
  match trigger_collect s target k ty with
  | None => ret VUndef
  | Some (inl err) => throw err
  | Some (inr (effs, computedEffects)) =>
      (* Run computed effects first, then regular effects *)
      rec (CReplay computedEffects) ;;;
      rec (CReplay effs)
  end.

(** The scheduler closure of [computed]. *)
Definition computed_scheduler (c : nat) : M value :=
  let* s := get_state in
  match heap s !! c with
  | Some (OComputed v dirty e st) =>
      if dirty then ret VUndef
      else modify (emit (EvDirty c)) ;;;
           modify (store c (OComputed v true e st)) ;;;
           trigger c (KStr "value") TSet
  | _ => throw Unsupported
  end.

(** [job] of [watch]. *)
Definition job (w : nat) : M value :=
  let* s := get_state in
  match watchers s !! w with
  | None => throw Unsupported
  | Some wr =>
      match w_cleanup wr with
      | Some c => modify (emit (EvCleanup w)) ;;; rec (CProg c)
      | None => ret VUndef
      end ;;;
      let* newValue := rec (CEffectFn (w_effect wr)) in
      let* s := get_state in
      match watchers s !! w with
      | None => throw Unsupported
      | Some wr' =>
          let oldValue := w_oldValue wr' in
          if w_deep wr || strict_neq newValue oldValue || is_object newValue then
            modify (emit (EvCallback w newValue oldValue)) ;;;
            rec (CProg (w_callback wr w newValue oldValue)) ;;;
            modify (set_oldValue w newValue) ;;;
            ret VUndef
          else ret VUndef
      end
  end.

(** The scheduler closure of [watch]. *)
Definition watch_scheduler (w : nat) : M value :=
  let* s := get_state in
  match watchers s !! w with
  | None => throw Unsupported
  | Some wr =>
      match w_flush wr with
      | FlushSync => job w
      | FlushPost =>
          modify (λ s, set_microtasks (microtasks s ++ [TThenJob w]) s) ;;; ret VUndef
      | FlushDefault =>
          modify (λ s, set_microtasks (microtasks s ++ [TJob w]) s) ;;; ret VUndef
      end
  end.

(** One step of a replay loop of [trigger]. *)
Definition replay_one (e : nat) : M value :=
  let* s := get_state in
  match effects s !! e with
  | None => throw Unsupported
  | Some ef =>
      match opt_scheduler (e_options ef) with
      | Some sch =>
          modify (emit (EvSched e)) ;;;
          match sch with
          | SchedUser f => rec (CProg (f e))
          | SchedComputed c => computed_scheduler c
          | SchedWatch w => watch_scheduler w
          end
      | None => rec (CEffectFn e)
      end
  end.

Definition replay (es : list nat) : M value :=
  match es with
  | [] => ret VUndef
  | e :: r => replay_one e ;;; rec (CReplay r)
  end.

Definition run_all (es : list nat) : M value :=
  match es with
  | [] => ret VUndef
  | e :: r => rec (CEffectFn e) ;;; rec (CRunAll r)
  end.
End engine.

(** What a read of a dirty computed stores: [value = effectFn(); dirty = false]. *)
Definition memoize (v : value) (o : obj) : obj :=
  match o with
  | OComputed _ _ e st => OComputed v false e st
  | _ => o
  end.

Section containers.
Variable rec : call → M value.

Definition reactive (target : value) : M value :=
  match target with
  | VObj a =>
      (* if (target.__isReactive) return target *)
      let* marker := rec (CGet a (KStr "__isReactive")) in
      if truthy marker then ret target
      else
        let* s := get_state in
        match reactiveMap s !! a with
        | Some existingProxy => ret (VObj existingProxy)
        | None =>
            let* proxy := alloc_obj (OProxy a) in
            modify (λ s, set_reactiveMap (<[a := proxy]> (reactiveMap s)) s) ;;;
            ret (VObj proxy)
        end
  | _ => ret target
  end.

(** reactiveHandlers.get *)
Definition reactiveHandlers_get (target : nat) (k : key) : M value :=
  if bool_decide (k = KStr "__isReactive") then ret (VBool true)
  else if bool_decide (k = KStr "__raw") then ret (VObj target)
  else
    let* result := rec (CGet target k) in
    modify (track target k) ;;;
    if is_object result then reactive result else ret result.

(** reactiveHandlers.set *)
Definition reactiveHandlers_set (target : nat) (k : key) (v : value) : M value :=
  let* oldValue := rec (CGet target k) in
  let* s := get_state in
  let* hadKey :=
    if is_array s target then
      match k with
      | KStr str => ret (num_lt (to_number str) (Num (array_length s target)))
      | KSym _ => throw TypeError       (* Number(symbol) *)
      end
    else ret (has_own s target k) in
  let* result := rec (CSet target k v) in
  (if negb hadKey then trigger rec target k TAdd
   else if strict_neq v oldValue && (strict_eq v v || strict_eq oldValue oldValue)
        then trigger rec target k TSet
        else ret VUndef) ;;;
  ret result.

(** reactiveHandlers.deleteProperty *)
Definition reactiveHandlers_deleteProperty (target : nat) (k : key) : M value :=
  let* s := get_state in
  let hadKey := has_own s target k in
  let* result :=
    match heap s !! target with
    | Some (OPlain props) =>
        modify (store target (OPlain (alist_del k props))) ;;; ret true
    | Some (OArray len props) =>
        if bool_decide (k = KStr "length") then ret false
        else modify (store target (OArray len (alist_del k props))) ;;; ret true
    | _ => throw Unsupported
    end in
  (if hadKey && result then trigger rec target k TDelete else ret VUndef) ;;;
  ret (VBool result).

(** reactiveHandlers.has *)
Definition reactiveHandlers_has (target : nat) (k : key) : M value :=
  modify (track target k) ;;;
  let* s := get_state in
  ret (VBool (has_own s target k)).

(** reactiveHandlers.ownKeys *)
Definition reactiveHandlers_ownKeys (target : nat) : M (list key) :=
  let* s := get_state in
  modify (track target (if is_array s target then KStr "length" else KSym "iterate")) ;;;
  ret (match heap s !! target with Some o => own_keys o | None => [] end).

(** The accessors of the object returned by [ref]. *)
Definition ref_get (r : nat) (v : value) (k : key) : M value :=
  if bool_decide (k = KStr "value") then modify (track r (KStr "value")) ;;; ret v
  else if bool_decide (k = KStr "__isRef") then ret (VBool true)
  else ret VUndef.

Definition ref_set (r : nat) (cur : value) (k : key) (newValue : value) : M value :=
  if bool_decide (k = KStr "value") then
    (if strict_neq newValue cur then
       modify (store r (ORef newValue)) ;;;
       trigger rec r (KStr "value") TSet
     else ret VUndef) ;;;
    ret (VBool true)
  else throw Unsupported.

(** The accessors of the object returned by [computed]. *)
Definition computed_get (c : nat) (dirty : bool) (eff : nat) (k : key) : M value :=
  if bool_decide (k = KStr "value") then
    (if dirty then
       let* v := rec (CEffectFn eff) in
       modify (λ s, set_heap
         (alter (memoize v) c (heap s)) s)
     else ret tt) ;;;
    modify (track c (KStr "value")) ;;;
    let* s := get_state in
    ret (match heap s !! c with Some (OComputed v _ _ _) => v | _ => VUndef end)
  else if bool_decide (k = KStr "__isRef") || bool_decide (k = KStr "__isComputed")
  then ret (VBool true)
  else ret VUndef.

Definition computed_set (st : setter) (k : key) (newValue : value) : M value :=
  if bool_decide (k = KStr "value") then
    match st with
    | SetterReadonly => modify (emit EvWarn)
    | SetterUser f => rec (CProg (f newValue)) ;;; ret tt
    | SetterMissing => throw TypeError
    end ;;;
    ret (VBool true)
  else throw Unsupported.

(** [a[k]] for any object [a]. *)
Definition obj_get (a : nat) (k : key) : M value :=
  let* s := get_state in
  match heap s !! a with
  | None => throw Unsupported
  | Some (OProxy target) => reactiveHandlers_get target k
  | Some (ORef v) => ref_get a v k
  | Some (OComputed _ dirty eff _) => computed_get a dirty eff k
  | Some o => ret (raw_get o k)
  end.

(** [a[k] = v] for any object [a]; the result is that of [Reflect.set]. *)
Definition obj_set (a : nat) (k : key) (v : value) : M value :=
  let* s := get_state in
  match heap s !! a with
  | None => throw Unsupported
  | Some (OProxy target) => reactiveHandlers_set target k v
  | Some (ORef old) => ref_set a old k v
  | Some (OComputed _ _ _ st) => computed_set st k v
  | Some (OPlain props) =>
      modify (store a (OPlain (alist_set k v props))) ;;; ret (VBool true)
  | Some (OArray len props) =>
      match array_set len props k v with
      | Some o => modify (store a o) ;;; ret (VBool true)
      | None => throw RangeError
      end
  end.

Definition ref (v : value) : M value :=
  let* r := alloc_obj (ORef v) in ret (VObj r).

Definition computed (getter : prog) (st : setter) : M value :=
  let* s := get_state in
  let computedRef := fresh (dom (heap s)) in
  let* effectFn :=
    effect rec getter
      {| opt_lazy := true; opt_computed := true;
         opt_scheduler := Some (SchedComputed computedRef); opt_onStop := None |} in
  modify (store computedRef (OComputed VUndef true effectFn st)) ;;;
  ret (VObj computedRef).

(** [isRef(v)] and [isReactive(v)]: [v?.__isRef === true]. *)
Definition has_flag (flag : string) (v : value) : M bool :=
  match v with
  | VObj a => let* m := rec (CGet a (KStr flag)) in ret (strict_eq m (VBool true))
  | _ => ret false
  end.

(** The getter [watch] derives from its source.  Deep traversal of a
    container and arrays of sources are outside the model. *)
Definition watch_getter (source : prog + value) : M prog :=
  match source with
  | inl f => ret f
  | inr (VFun _) => throw Unsupported
  | inr v =>
      let* r := has_flag "__isRef" v in
      if r then ret (GetProp v (KStr "value") Ret)
      else
        let* p := has_flag "__isReactive" v in
        if p then throw Unsupported
        else
          let* s := get_state in
          match v with
          | VObj a => if is_array s a then throw Unsupported else ret (Ret v)
          | _ => ret (Ret v)
          end
  end.

Definition watch (source : prog + value) (callback : nat → value → value → prog)
    (immediate deep : bool) (fl : flush) : M nat :=
  let* getter := watch_getter source in
  let* s := get_state in
  let w := fresh (dom (watchers s)) in
  let* effectFn :=
    effect rec getter
      {| opt_lazy := true; opt_computed := false;
         opt_scheduler := Some (SchedWatch w); opt_onStop := None |} in
  modify (λ s, set_watchers
    (<[w := {| w_effect := effectFn; w_oldValue := VUndef; w_cleanup := None;
               w_callback := callback; w_deep := deep; w_flush := fl |}]>
       (watchers s)) s) ;;;
  (if immediate then job rec w
   else
     let* v := rec (CEffectFn effectFn) in
     modify (set_oldValue w v) ;;;
     ret VUndef) ;;;
  ret w.

(** The function returned by [watch]. *)
Definition watch_stop (w : nat) : M value :=
  let* s := get_state in
  match watchers s !! w with
  | None => throw Unsupported
  | Some wr =>
      stop rec (w_effect wr) ;;;
      let* s := get_state in
      match watchers s !! w with
      | Some {| w_cleanup := Some c |} =>
          modify (emit (EvCleanup w)) ;;; rec (CProg c)
      | _ => ret VUndef
      end
  end.

(** [onCleanup(fn)] of watcher [w]. *)
Definition onCleanup (w : nat) (fn : prog) : M unit :=
  modify (set_cleanup w fn).

Definition batch (fn : prog) : M value :=
  modify (λ s, set_batch true (batchQueue s) s) ;;;
  rec (CProg fn) ;;;
  (* finally *)
  modify (λ s, set_batch false (batchQueue s) s) ;;;
  let* s := get_state in
  modify (emit (EvFlush (batchQueue s))) ;;;
  rec (CRunAll (batchQueue s)) ;;;
  modify (λ s, set_batch (isBatching s) [] s) ;;;
  ret VUndef.
End containers.

(** ** Running user code *)

(** Runners of [computed] and [watch] are private to their closures. *)
Definition user_effect (s : state) (e : nat) : bool :=
  match effects s !! e with
  | Some ef =>
      match opt_scheduler (e_options ef) with
      | Some (SchedComputed _) | Some (SchedWatch _) => false
      | _ => true
      end
  | None => false
  end.

Definition index_key (i : nat) : key := KStr (pretty i).

(** The own properties of an array literal. *)
Definition array_props (elems : list value) : list (key * value) :=
  imap (λ i v, (index_key i, v)) elems.

Section user.
Variable rec : call → M value.

Definition run_prog (p : prog) : M value :=
  match p with
  | Ret v => ret v
  | Log v k => modify (emit (EvLog v)) ;;; rec (CProg k)
  | NewObject props k =>
      let* a := alloc_obj (OPlain (foldl (λ acc kv, alist_set kv.1 kv.2 acc) [] props)) in
      rec (CProg (k (VObj a)))
  | NewArray elems k =>
      let* a := alloc_obj (OArray (Z.of_nat (List.length elems)) (array_props elems)) in
      rec (CProg (k (VObj a)))
  | GetProp o p k =>
      match o with
      | VObj a => let* v := rec (CGet a p) in rec (CProg (k v))
      | VUndef | VNull => throw TypeError
      | _ => throw Unsupported
      end
  | SetProp o p v k =>
      match o with
      | VObj a => rec (CSet a p v) ;;; rec (CProg k)
      | VUndef | VNull => throw TypeError
      | _ => throw Unsupported
      end
  | DeleteProp o p k =>
      let* s := get_state in
      match o with
      | VObj a =>
          match heap s !! a with
          | Some (OProxy target) =>
              let* b := reactiveHandlers_deleteProperty rec target p in rec (CProg (k b))
          | Some (OPlain props) =>
              modify (store a (OPlain (alist_del p props))) ;;; rec (CProg (k (VBool true)))
          | _ => throw Unsupported
          end
      | _ => throw Unsupported
      end
  | HasProp o p k =>
      let* s := get_state in
      match o with
      | VObj a =>
          match heap s !! a with
          | Some (OProxy target) =>
              let* b := reactiveHandlers_has target p in rec (CProg (k b))
          | Some _ => rec (CProg (k (VBool (has_own s a p))))
          | None => throw Unsupported
          end
      | _ => throw TypeError
      end
  | OwnKeys o k =>
      let* s := get_state in
      match o with
      | VObj a =>
          match heap s !! a with
          | Some (OProxy target) =>
              let* ks := reactiveHandlers_ownKeys target in rec (CProg (k ks))
          | Some ob => rec (CProg (k (own_keys ob)))
          | None => throw Unsupported
          end
      | _ => throw TypeError
      end
  | Reactive v k => let* p := reactive rec v in rec (CProg (k p))
  | MkRef v k => let* r := ref v in rec (CProg (k r))
  | ComputedFn getter k =>
      let* c := computed rec getter SetterReadonly in rec (CProg (k c))
  | ComputedOpts getter st k =>
      let* c := computed rec getter
                  (match st with Some f => SetterUser f | None => SetterMissing end) in
      rec (CProg (k c))
  | Effect fn lazy comp sch onStop k =>
      let* e := effect rec fn
                  {| opt_lazy := lazy; opt_computed := comp;
                     opt_scheduler := SchedUser <$> sch; opt_onStop := onStop |} in
      rec (CProg (k e))
  | CallEffect e k =>
      let* s := get_state in
      if user_effect s e then let* v := rec (CEffectFn e) in rec (CProg (k v))
      else throw Unsupported
  | Stop e k =>
      let* s := get_state in
      if user_effect s e then stop rec e ;;; rec (CProg k)
      else throw Unsupported
  | Watch source callback immediate deep fl k =>
      let* w := watch rec source callback immediate deep fl in rec (CProg (k w))
  | OnCleanup w fn k => onCleanup w fn ;;; rec (CProg k)
  | StopWatch w k => watch_stop rec w ;;; rec (CProg k)
  | Batch fn k => batch rec fn ;;; rec (CProg k)
  | Track target p k => modify (track target p) ;;; rec (CProg k)
  | Trigger target p ty k =>
      (* Array.isArray and .length of a proxy go through the proxied
         object; the engine itself only ever passes raw targets *)
      let* s := get_state in
      match heap s !! target with
      | Some (OProxy _) => throw Unsupported
      | _ => trigger rec target p ty ;;; rec (CProg k)
      end
  end.
End user.

(** The interpreter: every call spends one unit of the budget. *)
Fixpoint exec (fuel : nat) (c : call) : M value :=
  match fuel with
  | O => throw OutOfFuel
  | S n =>
      match c with
      | CProg p => run_prog (exec n) p
      | CEffectFn e => effectFn_call (exec n) e
      | CGet a k => obj_get (exec n) a k
      | CSet a k v => obj_set (exec n) a k v
      | CReplay es => replay (exec n) es
      | CRunAll es => run_all (exec n) es
      end
  end.

Arguments exec : simpl never.

(** A whole script, from the state of a freshly loaded module. *)
Definition run (fuel : nat) (p : prog) : res value := exec fuel (CProg p) init.

(** Draining the microtask queue, at most [n] tasks. *)
Fixpoint drain (n fuel : nat) : M value :=
  match n with
  | O => ret VUndef
  | S n' =>
      let* s := get_state in
      match microtasks s with
      | [] => ret VUndef
      | t :: q =>
          modify (set_microtasks q) ;;;
          match t with
          | TJob w => job (exec fuel) w
          | TThenJob w =>
              modify (λ s, set_microtasks (microtasks s ++ [TJob w]) s) ;;; ret VUndef
          end ;;;
          drain n' fuel
      end
  end.

Definition trace {A} (r : res A) : list event :=
  match r with Ok _ s | Err _ s => log s end.

(** ** Auxiliary definitions for the statements *)


Definition res_state {A} (r : res A) : state :=
  match r with Ok _ s | Err _ s => s end.

(** [Q] holds of the state in which a call returns, if it returns. *)
Definition holds_ok {A} (Q : state → Prop) (r : res A) : Prop :=
  match r with Ok _ s => Q s | Err _ _ => True end.

(** Updates in place never change what kind of object an address holds,
    nor the closure variables of a computed that are constants. *)
Definition same_kind (o o' : obj) : Prop :=
  match o, o' with
  | OPlain _, OPlain _ | OArray _ _, OArray _ _ | ORef _, ORef _ => True
  | OProxy t, OProxy t' => t = t'
  | OComputed _ _ e st, OComputed _ _ e' st' => e = e' ∧ st = st'
  | _, _ => False
  end.

(** Plain objects, arrays and cells. *)
Definition is_data (o : obj) : Prop :=
  match o with OPlain _ | OArray _ _ | ORef _ => True | _ => False end.

(** The state in which an outer [batch] call runs its function: the flag
    has just been set. *)
Definition outer_active : state := set_batch true (batchQueue init) init.

(** Every cached proxy is a proxy of the object it is cached for. *)
Definition wf_reactiveMap (s : state) : Prop :=
  ∀ a q, reactiveMap s !! a = Some q → heap s !! q = Some (OProxy a).

(** What [o.__isReactive] evaluates to. *)
Definition reactive_marker (o : obj) : value :=
  match o with
  | OProxy _ => VBool true
  | OPlain _ | OArray _ _ => raw_get o (KStr "__isReactive")
  | _ => VUndef
  end.


(** The two sets are sorted: [effects] holds plain computations only,
    [computedEffects] derived ones only, neither holds one twice. *)
Definition sorted_sets (s : state) (acc : list nat * list nat) : Prop :=
  Forall (λ e, is_computed s e = false) acc.1 ∧
  Forall (λ e, is_computed s e = true) acc.2 ∧
  NoDup acc.1 ∧ NoDup acc.2.

(** ** Scripts *)

Definition kvalue : key := KStr "value".
Definition klength : key := KStr "length".
Definition int (z : Z) : value := VNum (Num z).


(** [const r = ref(NaN); effect(() => log(r.value)); r.value = NaN] *)
Definition ref_nan_script : prog :=
  MkRef (VNum NaN) (λ r,
  Effect (GetProp r kvalue (λ v, Log v (Ret VUndef))) false false None None (λ _,
  SetProp r kvalue (VNum NaN) (Ret VUndef))).

(** [const arr = reactive([1, 2, 3]); effect(() => log(arr.length));
     arr.length = 3] *)
Definition same_length_script : prog :=
  NewArray [int 1; int 2; int 3] (λ raw,
  Reactive raw (λ arr,
  Effect (GetProp arr klength (λ l, Log l (Ret VUndef))) false false None None (λ _,
  SetProp arr klength (int 3) (Ret VUndef)))).

(** [const x = ref(0); let e;
     effect(() => { if (x.value >= 1) stop(e) });
     e = effect(() => log(x.value), { onStop: () => log('stopped') });
     x.value = 1; x.value = 2]
    (the second effect gets the identity 1) *)
Definition stop_in_flight_script : prog :=
  MkRef (int 0) (λ x,
  Effect (GetProp x kvalue (λ v,
            if num_ge (value_to_number v) (Num 1) then Stop 1 (Ret VUndef)
            else Ret VUndef)) false false None None (λ _,
  Effect (GetProp x kvalue (λ v, Log v (Ret VUndef))) false false None
         (Some (Log (VStr "stopped") (Ret VUndef))) (λ _,
  SetProp x kvalue (int 1) (SetProp x kvalue (int 2) (Ret VUndef))))).

(** [const arr = reactive([1, 2, 3]);
     effect(() => { for (const v of arr) log(v) }); arr.length = 1]
    where the loop reads [arr[Symbol.iterator]], [arr.length] and the
    elements. *)
Definition iterate_then_shrink_script : prog :=
  NewArray [int 1; int 2; int 3] (λ raw,
  Reactive raw (λ arr,
  Effect (GetProp arr (KSym "Symbol.iterator") (λ _,
          GetProp arr klength (λ _,
          GetProp arr (KStr "0") (λ v0, Log v0 (
          GetProp arr klength (λ _,
          GetProp arr (KStr "1") (λ v1, Log v1 (
          GetProp arr klength (λ _,
          GetProp arr (KStr "2") (λ v2, Log v2 (
          GetProp arr klength (λ _, Ret VUndef)))))))))))) false false None None (λ _,
  SetProp arr klength (int 1) (Ret VUndef)))).

(** [const x = ref(1);
     watch(() => x.value, (nv, ov) => record(nv, ov), { flush: 'sync' });
     x.value = 9; log('next statement')] *)
Definition sync_watch_script : prog :=
  MkRef (int 1) (λ x,
  Watch (inl (GetProp x kvalue Ret)) (λ _ nv ov, Log nv (Log ov (Ret VUndef)))
        false false FlushSync (λ _,
  SetProp x kvalue (int 9) (Log (VStr "next statement") (Ret VUndef)))).

(** The state after
    [const x = ref(1);
     watch(() => x.value, (nv, ov) => record(nv, ov), { flush: 'sync' })]:
    the cell is object 0, the watcher 0 and its effect 0. *)
Definition sync_watch_setup : state :=
  res_state (run 20
    (MkRef (int 1) (λ x,
     Watch (inl (GetProp x kvalue Ret)) (λ _ nv ov, Log nv (Log ov (Ret VUndef)))
           false false FlushSync (λ _, Ret VUndef)))).

(** A call that returns has popped what it pushed: the stack of running
    effects is the one it started with, and the running effect is the one
    it started with or the top of that stack. *)
Definition stack_restored (s s' : state) : Prop :=
  effectStack s' = effectStack s ∧
  (activeEffect s' = activeEffect s ∨ activeEffect s' = last (effectStack s)).

(** [activeEffect] is the top of [effectStack]. *)
Definition wf_active (s : state) : Prop := activeEffect s = last (effectStack s).

(** [k] reads of [c.value] in a row. *)
Fixpoint read_many (fuel : nat) (c : nat) (k : nat) : M (list value) :=
  match k with
  | O => ret []
  | S k' =>
      let* v := exec fuel (CGet c (KStr "value")) in
      let* vs := read_many fuel c k' in
      ret (v :: vs)
  end.

(** The object at [c] is the computed with backing effect [e] and setter [st]. *)
Definition is_computed_ref (c e : nat) (st : setter) (s : state) : Prop :=
  ∃ v d, heap s !! c = Some (OComputed v d e st).

Definition double (v : value) : value :=
  match value_to_number v with Num z => int (2 * z) | NaN => VNum NaN end.

(** The state after
    [const x = ref(1); const d = computed(() => { log('getter'); return x.value * 2 })]:
    the cell is object 0, the computed object 1 and its effect 0. *)
Definition doubled_setup : state :=
  res_state (run 20
    (MkRef (int 1) (λ x,
     ComputedFn (Log (VStr "getter") (GetProp x kvalue (λ v, Ret (double v))))
       (λ _, Ret VUndef)))).

(** [... d.value (five times); x.value = 5; d.value] *)
Definition doubled_script : prog :=
  MkRef (int 1) (λ x,
  ComputedFn (Log (VStr "getter") (GetProp x kvalue (λ v, Ret (double v)))) (λ d,
  GetProp d kvalue (λ v1, GetProp d kvalue (λ v2, GetProp d kvalue (λ v3,
  GetProp d kvalue (λ v4, GetProp d kvalue (λ v5, Log v5 (
  SetProp x kvalue (int 5) (
  GetProp d kvalue (λ v6, Log v6 (Ret VUndef))))))))))).

(** A computed whose getter reads the computed itself once, when asked to:
    [const x = ref(1); const flag = { again: false };
     const c = computed(() => {
       log('getter'); const v = x.value;
       if (flag.again) { flag.again = false; return c.value }
       return v });
     c.value; flag.again = true; x.value = 2; log(c.value); x.value = 3]
    The cell is object 0, [flag] object 1, the computed object 2 and its
    effect 0. *)
Definition self_reading_script : prog :=
  MkRef (int 1) (λ x,
  NewObject [(KStr "again", VBool false)] (λ flag,
  ComputedFn
    (Log (VStr "getter") (GetProp x kvalue (λ v,
     GetProp flag (KStr "again") (λ a,
     if truthy a
     then SetProp flag (KStr "again") (VBool false) (GetProp (VObj 2) kvalue Ret)
     else Ret v))))
    (λ c,
  GetProp c kvalue (λ _,
  SetProp flag (KStr "again") (VBool true) (
  SetProp x kvalue (int 2) (
  GetProp c kvalue (λ v, Log v (
  SetProp x kvalue (int 3) (Ret c))))))))).

(** How many times the effect [e] was run in a stretch of the log. *)
Fixpoint runs_of (e : nat) (l : list event) : nat :=
  match l with
  | [] => 0
  | EvRun e' :: l => (if decide (e' = e) then 1 else 0) + runs_of e l
  | _ :: l => runs_of e l
  end.

(** The test of the set handler:
    [value !== oldValue && (value === value || oldValue === oldValue)]. *)
Definition changed (v old : value) : bool :=
  strict_neq v old && (strict_eq v v || strict_eq old old).

(** Back references: an effect that is a member of a dependency set has
    that set among its [deps]. *)
Definition wf_deps (s : state) : Prop :=
  ∀ e t k, e ∈ dep_of s t k →
    ∃ ef, effects s !! e = Some ef ∧ (t, k) ∈ e_deps ef.

(** A [Map] has each key once, a [Set] each member once. *)
Definition wf_depsMap (dm : list (key * list nat)) : Prop :=
  NoDup dm.*1 ∧ ∀ k dep, (k, dep) ∈ dm → NoDup dep.

(** The states the engine can be in. *)
Definition wf_registry (s : state) : Prop :=
  wf_deps s ∧
  (∀ t dm, targetMap s !! t = Some dm → wf_depsMap dm) ∧
  (∀ a, a ∈ effectStack s → is_Some (effects s !! a)) ∧
  wf_active s.

(** ** The remaining exports: [unref], [isRef], [isReactive], [toRaw] *)

Section api.
Variable rec : call → M value.

(** [value?.__isRef === true] *)
Definition isRef (v : value) : M bool := has_flag rec "__isRef" v.

(** [value?.__isReactive === true] *)
Definition isReactive (v : value) : M bool := has_flag rec "__isReactive" v.

(** [ref?.__isRef ? ref.value : ref] *)
Definition unref (r : value) : M value :=
  match r with
  | VObj a =>
      let* m := rec (CGet a (KStr "__isRef")) in
      if truthy m then rec (CGet a (KStr "value")) else ret r
  | _ => ret r
  end.

(** [observed?.__raw || observed] *)
Definition toRaw (observed : value) : M value :=
  match observed with
  | VObj a =>
      let* r := rec (CGet a (KStr "__raw")) in
      if truthy r then ret r else ret observed
  | _ => ret observed
  end.
End api.

(** ** States for the examples *)

(** [const x = ref(1); effect(() => log(x.value))]: the cell is object 0,
    the effect 0. *)
Definition counter_setup : state :=
  res_state (run 20
    (MkRef (int 1) (λ x,
     Effect (GetProp x kvalue (λ v, Log v (Ret VUndef))) false false None None
       (λ _, Ret VUndef)))).

(** The state in which the effect of [counter_setup] is running and has
    not read anything yet. *)
Definition counter_running : state :=
  set_active (Some 0) [0] (cleanup 0 counter_setup).

(** [const arr = reactive([1, 2, 3]); effect(() => log(arr[2]));
     effect(() => log(arr.length))]: the array is object 0, its proxy
    object 1, the effects 0 and 1. *)
Definition array_setup : state :=
  res_state (run 20
    (NewArray [int 1; int 2; int 3] (λ a,
     Reactive a (λ arr,
     Effect (GetProp arr (KStr "2") (λ v, Log v (Ret VUndef))) false false None None
       (λ _,
     Effect (GetProp arr klength (λ v, Log v (Ret VUndef))) false false None None
       (λ _, Ret VUndef)))))).


(** [const o = { a: 1, b: { c: 2 } }; const p = reactive(o)]: the nested
    object is object 0, [o] object 1 and [p] object 2. *)
Definition nested_setup : state :=
  res_state (run 20
    (NewObject [(KStr "c", int 2)] (λ b,
     NewObject [(KStr "a", int 1); (KStr "b", b)] (λ o,
     Reactive o (λ _, Ret VUndef))))).

(** [const x = ref(1); watch(() => x.value, (nv, ov) => record(nv, ov))]
    with the default flush: the cell is object 0, the watcher 0 and its
    effect 0. *)
Definition queued_watch_setup : state :=
  res_state (run 20
    (MkRef (int 1) (λ x,
     Watch (inl (GetProp x kvalue Ret)) (λ _ nv ov, Log nv (Log ov (Ret VUndef)))
           false false FlushDefault (λ _, Ret VUndef)))).

(** The task a watcher's scheduler queues. *)
Definition queued_task (fl : flush) (w : nat) : task :=
  match fl with FlushPost => TThenJob w | _ => TJob w end.

(** Whether [job] calls the callback:
    [options.deep || newValue !== oldValue ||
     (typeof newValue === 'object' && newValue !== null)]. *)
Definition job_fires (deep : bool) (newValue oldValue : value) : bool :=
  deep || strict_neq newValue oldValue || is_object newValue.

(** [const x = ref(1);
     effect(() => x.value, { scheduler: () => log('scheduled') })]:
    the cell is object 0, the effect 0. *)
Definition scheduled_setup : state :=
  res_state (run 20
    (MkRef (int 1) (λ x,
     Effect (GetProp x kvalue Ret) false false
       (Some (λ _, Log (VStr "scheduled") (Ret VUndef))) None
       (λ _, Ret VUndef)))).


(** The state in which effect 0 of [nested_setup], a fresh effect, is
    running. *)
Definition nested_running : state :=
  set_active (Some 0) [0]
    (set_effects
       (<[0 := {| e_fn := Ret VUndef; e_deps := [];
                  e_options := {| opt_lazy := false; opt_computed := false;
                                  opt_scheduler := None; opt_onStop := None |};
                  e_active := true |}]> (effects nested_setup)) nested_setup).

(** ** [traverse]

    [traverse] reads every property of everything it can reach, so that
    the running computation comes to depend on all of it; [seen] is the
    set of objects visited so far.  The set is one mutable object shared
    by all the recursive calls: here each call returns it. *)

Fixpoint foldM {A B} (f : B → A → M B) (l : list A) (b : B) : M B :=
  match l with
  | [] => ret b
  | a :: r => let* b' := f b a in foldM f r b'
  end.

(** [Array.isArray(value)]; a proxy answers for its target. *)
Definition isArray (s : state) (a : nat) : bool :=
  match heap s !! a with
  | Some (OArray _ _) => true
  | Some (OProxy t) => is_array s t
  | _ => false
  end.

(** The abstract operation HasProperty: the [has] trap for a proxy. *)
Definition has_property (a : nat) (k : key) : M bool :=
  let* s := get_state in
  match heap s !! a with
  | Some (OProxy t) => modify (track t k) ;;; ret (has_own s t k)
  | Some _ => ret (has_own s a k)
  | None => throw Unsupported
  end.

Definition is_string_key (k : key) : bool :=
  match k with KStr _ => true | KSym _ => false end.

(** [Object.keys(value)]: the [ownKeys] trap for a proxy, then the
    enumerable string keys.  An object with integer keys, which come
    first and in ascending order, is outside the model. *)
Definition object_keys (a : nat) : M (list key) :=
  let* s := get_state in
  let* ks :=
    match heap s !! a with
    | Some (OProxy t) => reactiveHandlers_ownKeys t
    | Some o => ret (own_keys o)
    | None => throw Unsupported
    end in
  if forallb (λ k, bool_decide (array_index k = None)) ks
  then ret (filter (λ k, is_string_key k = true) ks)
  else throw Unsupported.

Section traversal.
Variable rec : call → M value.

(** [Array.prototype.forEach] called on [a] with the callback [f]: the
    length is read once, then each index is tested and read in turn. *)
Definition forEach (f : list nat → value → M (list nat)) (a : nat)
    (seen : list nat) : M (list nat) :=
  let* len := rec (CGet a (KStr "length")) in
  match len with
  | VNum (Num n) =>
      foldM (λ seen i,
               let* present := has_property a (index_key i) in
               if present
               then let* x := rec (CGet a (index_key i)) in f seen x
               else ret seen)
            (seq 0 (Z.to_nat n)) seen
  | _ => throw Unsupported
  end.

Fixpoint traverse_go (fuel : nat) (v : value) (seen : list nat) : M (list nat) :=
  match fuel with
  | O => throw OutOfFuel
  | S n =>
      match v with
      | VObj a =>
          if set_has a seen then ret seen
          else
            let seen := seen ++ [a] in
            let* s := get_state in
            if isArray s a then
              (* value.forEach: the method is looked up on the value *)
              let* m := rec (CGet a (KStr "forEach")) in
              match m with
              | VUndef => forEach (λ seen x, traverse_go n x seen) a seen
              | _ => throw Unsupported
              end
            else
              let* keys := object_keys a in
              foldM (λ seen k,
                       let* x := rec (CGet a k) in traverse_go n x seen)
                    keys seen
      | _ => ret seen
      end
  end.

Definition traverse (fuel : nat) (v : value) : M value :=
  traverse_go fuel v [] ;;; ret v.
End traversal.

(** [const o = { n: 1, self: null }; o.self = o; const p = reactive(o)]:
    [o] is object 0 and [p] object 1. *)
Definition cyclic_setup : state :=
  res_state (run 20
    (NewObject [(KStr "n", int 1); (KStr "self", VNull)] (λ o,
     SetProp o (KStr "self") o (
     Reactive o (λ _, Ret VUndef))))).

(** *** Heaps of plain data

    The states in which [traverse] runs no user code: every object is a
    plain object with string keys (no integer keys, no [__isReactive] or
    [__raw]) whose values are primitives, functions or plain objects, or
    it is the cached proxy of such an object. *)

Definition plain_ok (s : state) (props : list (key * value)) : Prop :=
  NoDup props.*1 ∧
  ∀ k v, (k, v) ∈ props →
    is_string_key k = true ∧ array_index k = None ∧
    k ≠ KStr "__isReactive" ∧ k ≠ KStr "__raw" ∧
    match v with
    | VObj b => ∃ bprops, heap s !! b = Some (OPlain bprops)
    | _ => True
    end.

Definition data_only (s : state) : Prop :=
  wf_reactiveMap s ∧
  ∀ a o, heap s !! a = Some o →
    match o with
    | OPlain props => plain_ok s props
    | OProxy t => (∃ props, heap s !! t = Some (OPlain props)) ∧
                  reactiveMap s !! t = Some a
    | _ => False
    end.

Definition is_track (ev : event) : Prop := ∃ t k, ev = EvTrack t k.

(** [s'] comes from [s] by reads only: the log has grown by the calls of
    [track] in [l], proxies may have been created, nothing else differs. *)
Definition grows (s s' : state) (l : list event) : Prop :=
  log s' = log s ++ l ∧ Forall is_track l ∧
  (∀ a o, heap s !! a = Some o → heap s' !! a = Some o) ∧
  (∀ a props, heap s' !! a = Some (OPlain props) → heap s !! a = Some (OPlain props)) ∧
  activeEffect s' = activeEffect s ∧ effectStack s' = effectStack s ∧
  (∀ e t k, e ∈ dep_of s t k → e ∈ dep_of s' t k) ∧
  (∀ e t k, activeEffect s = Some e → EvTrack t k ∈ l → e ∈ dep_of s' t k).

(** The plain object [b] can be reached from the plain object [t] through
    properties. *)
Inductive reachable (s : state) : nat → nat → Prop :=
| reach_here t : reachable s t t
| reach_step t props k b c :
    heap s !! t = Some (OPlain props) → (k, VObj b) ∈ props →
    reachable s b c → reachable s t c.

(** The members of [seen] are proxies of plain objects known in [U]. *)
Definition visited_ok (s : state) (U : gset nat) (seen : list nat) : Prop :=
  NoDup seen ∧ ∀ q, q ∈ seen → ∃ t, t ∈ U ∧ heap s !! q = Some (OProxy t).

(** Every object a property of the target of [q] holds has its proxy in
    [seen]. *)
Definition closed_node (s : state) (seen : list nat) (q : nat) : Prop :=
  ∀ t props k b,
    heap s !! q = Some (OProxy t) → heap s !! t = Some (OPlain props) →
    (k, VObj b) ∈ props → ∃ qb, qb ∈ seen ∧ heap s !! qb = Some (OProxy b).

(** Every key of the target of [q], and the enumeration itself, has been
    passed to [track]. *)
Definition keys_tracked (s : state) (l : list event) (q : nat) : Prop :=
  ∀ t props,
    heap s !! q = Some (OProxy t) → heap s !! t = Some (OPlain props) →
    EvTrack t (KSym "iterate") ∈ l ∧ ∀ k, k ∈ props.*1 → EvTrack t k ∈ l.

(** Every plain object is known in [U]. *)
Definition plain_in (U : gset nat) (s : state) : Prop :=
  ∀ a props, heap s !! a = Some (OPlain props) → a ∈ U.

Definition proxy_or_primitive (s : state) (v : value) : Prop :=
  match v with VObj a => ∃ t, heap s !! a = Some (OProxy t) | _ => True end.

(** What a call [traverse(v, seen)] has done when it returns: it has only
    read, [seen] has grown by [new], and every object in [new] has had all
    its keys tracked and all the objects it holds visited. *)
Definition traversed (U : gset nat) (s : state) (seen : list nat) (v : value)
    (r : res (list nat)) : Prop :=
  ∃ new s' l,
    r = Ok (seen ++ new) s' ∧ data_only s' ∧ grows s s' l ∧
    visited_ok s' U (seen ++ new) ∧
    (∀ q, q ∈ new → closed_node s' (seen ++ new) q ∧ keys_tracked s' l q) ∧
    match v with VObj a => a ∈ seen ++ new | _ => True end.

(** * Properties *)

(** ** What [track] and [cleanup] leave alone *)

Lemma dep_delete_proj {X} (π : state → X) e s tk :
  (∀ m s, π (set_targetMap m s) = π s) → π (dep_delete e s tk) = π s.
Proof. intros H. unfold dep_delete. repeat case_match; auto. Qed.

Lemma cleanup_proj {X} (π : state → X) e s :
  (∀ m s, π (set_targetMap m s) = π s) →
  (∀ m s, π (set_effects m s) = π s) →
  π (cleanup e s) = π s.
Proof.
  intros H1 H2. unfold cleanup. destruct (effects s !! e) as [ef|]; [|done].
  rewrite H2. generalize (e_deps ef). intros l. revert s.
  induction l as [|tk l IH]; intros s; simpl; [done|].
  rewrite IH. by apply dep_delete_proj.
Qed.

Lemma track_proj {X} (π : state → X) t k s :
  (∀ ev s, π (emit ev s) = π s) →
  (∀ m s, π (set_targetMap m s) = π s) →
  (∀ m s, π (set_effects m s) = π s) →
  π (track t k s) = π s.
Proof.
  intros H0 H1 H2. unfold track.
  repeat case_match; rewrite ?H2, ?H1, ?H0; auto.
Qed.

(** ** Fields that [track] and [cleanup] do not change *)

Lemma heap_cleanup e s : heap (cleanup e s) = heap s.
Proof. by apply cleanup_proj. Qed.

Lemma watchers_track t k s : watchers (track t k s) = watchers s.
Proof. by apply track_proj. Qed.

Lemma watchers_cleanup e s : watchers (cleanup e s) = watchers s.
Proof. by apply cleanup_proj. Qed.

Lemma activeEffect_track t k s : activeEffect (track t k s) = activeEffect s.
Proof. by apply track_proj. Qed.

Lemma effectStack_track t k s : effectStack (track t k s) = effectStack s.
Proof. by apply track_proj. Qed.

Lemma activeEffect_cleanup e s : activeEffect (cleanup e s) = activeEffect s.
Proof. by apply cleanup_proj. Qed.

Lemma effectStack_cleanup e s : effectStack (cleanup e s) = effectStack s.
Proof. by apply cleanup_proj. Qed.

Lemma log_cleanup e s : log (cleanup e s) = log s.
Proof. by apply cleanup_proj. Qed.

Lemma log_track t k s : log (track t k s) = log s ++ [EvTrack t k].
Proof. unfold track. repeat case_match; reflexivity. Qed.

Lemma effects_cleanup e s : effects (cleanup e s) = alter (with_deps []) e (effects s).
Proof.
  unfold cleanup. destruct (effects s !! e) as [ef|] eqn:E.
  - simpl. f_equal. generalize (e_deps ef). intros l. revert s E.
    induction l as [|tk l IH]; intros s E; simpl; [done|].
    rewrite IH; [by apply (dep_delete_proj effects)|].
    by rewrite (dep_delete_proj effects).
  - apply map_eq. intros i. destruct (decide (e = i)) as [->|].
    + by rewrite lookup_alter_eq, E.
    + by rewrite lookup_alter_ne.
Qed.

Lemma fresh_heap_None s : heap s !! fresh (dom (heap s)) = None.
Proof. apply not_elem_of_dom, is_fresh. Qed.

Lemma heap_track t k s : heap (track t k s) = heap s.
Proof. by apply track_proj. Qed.

Lemma reactiveMap_track t k s : reactiveMap (track t k s) = reactiveMap s.
Proof. by apply track_proj. Qed.


(** ** Laws of the state-and-error monad *)

Lemma bind_modify {B} (g : state → state) (f : unit → M B) s :
  bind (modify g) f s = f tt (g s).
Proof. reflexivity. Qed.

Lemma bind_get_state {B} (f : state → M B) s : bind get_state f s = f s s.
Proof. reflexivity. Qed.

Lemma bind_ret {A B} (a : A) (f : A → M B) s : bind (ret a) f s = f a s.
Proof. reflexivity. Qed.

Lemma bind_throw {A B} err (f : A → M B) s : bind (throw err) f s = Err err s.
Proof. reflexivity. Qed.

Lemma bind_assoc {A B C} (m : M A) (f : A → M B) (g : B → M C) s :
  bind (bind m f) g s = bind m (λ a, bind (f a) g) s.
Proof. unfold bind. destruct (m s); reflexivity. Qed.

Lemma bind_unfold {A B} (m : M A) (f : A → M B) s :
  bind m f s = match m s with Ok a s' => f a s' | Err e s' => Err e s' end.
Proof. reflexivity. Qed.

Lemma ret_run {A} (a : A) s : ret a s = Ok a s.
Proof. reflexivity. Qed.

Lemma throw_run {A} err s : @throw A err s = Err err s.
Proof. reflexivity. Qed.

Lemma modify_run g s : modify g s = Ok tt (g s).
Proof. reflexivity. Qed.

Create Rewrite HintDb eng.
#[global] Hint Rewrite @ret_run @throw_run @modify_run : eng.
#[global] Hint Rewrite @bind_assoc @bind_modify @bind_get_state @bind_ret @bind_throw : eng.

Ltac norm := repeat (progress (cbv beta iota zeta; autorewrite with eng)).


(** The interpreter, one call at a time. *)
Lemma exec_O c s : exec 0 c s = Err OutOfFuel s.
Proof. reflexivity. Qed.

Lemma exec_CProg n p : exec (S n) (CProg p) = run_prog (exec n) p.
Proof. reflexivity. Qed.

Lemma exec_CEffectFn n e : exec (S n) (CEffectFn e) = effectFn_call (exec n) e.
Proof. reflexivity. Qed.

Lemma exec_CGet n a k : exec (S n) (CGet a k) = obj_get (exec n) a k.
Proof. reflexivity. Qed.

Lemma exec_CSet n a k v : exec (S n) (CSet a k v) = obj_set (exec n) a k v.
Proof. reflexivity. Qed.

Lemma exec_CReplay n es : exec (S n) (CReplay es) = replay (exec n) es.
Proof. reflexivity. Qed.

Lemma exec_CRunAll n es : exec (S n) (CRunAll es) = run_all (exec n) es.
Proof. reflexivity. Qed.

Lemma same_kind_refl o : same_kind o o.
Proof. destruct o; simpl; auto. Qed.

Lemma same_kind_trans o1 o2 o3 : same_kind o1 o2 → same_kind o2 o3 → same_kind o1 o3.
Proof. destruct o1, o2; simpl; try tauto; destruct o3; simpl; try tauto; intuition congruence. Qed.

Lemma array_set_kind len props k v o :
  array_set len props k v = Some o → same_kind (OArray len props) o.
Proof.
  unfold array_set. repeat case_match; intros; simplify_eq; exact I.
Qed.

(** ** Invariants of the interpreter

    A relation between the state at some earlier point and the current
    state that is kept by every elementary update of the engine, and
    restored when [effectFn] pops what it pushed, is kept by every call
    that returns. *)
Section invariant.
Variable R : state → state → Prop.
Hypothesis R_refl : ∀ s, R s s.
Hypothesis R_emit : ∀ s0 ev s, R s0 s → R s0 (emit ev s).
Hypothesis R_track : ∀ s0 t k s, R s0 s → R s0 (track t k s).
Hypothesis R_cleanup : ∀ s0 e s, R s0 s → R s0 (cleanup e s).
(* effectFn: push, run fn, pop *)
Hypothesis R_bracket : ∀ s0 e s s',
  R s0 s → is_Some (effects s !! e) →
  R (emit (EvRun e) (set_active (Some e) (effectStack s ++ [e]) s)) s' →
  R s0 (set_active (last (removelast (effectStack s'))) (removelast (effectStack s')) s').
Hypothesis R_new_effect : ∀ s0 ef s,
  R s0 s → R s0 (set_effects (<[fresh (dom (effects s)) := ef]> (effects s)) s).
Hypothesis R_deactivate : ∀ s0 e s,
  R s0 s → R s0 (set_effects (alter (with_active false) e (effects s)) s).
Hypothesis R_alloc : ∀ s0 o s, R s0 s → R s0 (store (fresh (dom (heap s))) o s).
Hypothesis R_store : ∀ s0 a o o' s,
  heap s !! a = Some o → is_data o → same_kind o o' → R s0 s → R s0 (store a o' s).
(* the scheduler of a computed: dirty = true *)
Hypothesis R_dirty : ∀ s0 c v e st s,
  heap s !! c = Some (OComputed v false e st) →
  R s0 s → R s0 (store c (OComputed v true e st) (emit (EvDirty c) s)).
(* a read of a dirty computed: run the getter, keep what it returned *)
Hypothesis R_memo : ∀ s0 c v e st r s s',
  heap s !! c = Some (OComputed v true e st) →
  R s0 s → R s s' → R s0 (set_heap (alter (memoize r) c (heap s')) s').
Hypothesis R_watchers : ∀ s0 m s, R s0 s → R s0 (set_watchers m s).
Hypothesis R_microtasks : ∀ s0 q s, R s0 s → R s0 (set_microtasks q s).
Hypothesis R_reactiveMap : ∀ s0 a q s,
  heap s !! q = Some (OProxy a) → reactiveMap s !! a = None →
  R s0 s → R s0 (set_reactiveMap (<[a := q]> (reactiveMap s)) s).
Hypothesis R_batch_flag : ∀ s0 b s, R s0 s → R s0 (set_batch b (batchQueue s) s).
Hypothesis R_batch_clear : ∀ s0 s, R s0 s → R s0 (set_batch (isBatching s) [] s).

Section from.
Variable s0 : state.
Local Abbreviation P := (R s0).

Lemma rs_bind {A B} (m : M A) (f : A → M B) s :
  holds_ok P (m s) →
  (∀ a s', m s = Ok a s' → P s' → holds_ok P (f a s')) →
  holds_ok P (bind m f s).
Proof.
  unfold bind. destruct (m s) as [a s'|e s'] eqn:E; simpl; intros HP Hf; auto.
Qed.

Lemma rs_modify {B} (g : state → state) (f : unit → M B) s :
  holds_ok P (f tt (g s)) → holds_ok P (bind (modify g) f s).
Proof. done. Qed.

Lemma rs_get {B} (f : state → M B) s :
  holds_ok P (f s s) → holds_ok P (bind get_state f s).
Proof. done. Qed.

Lemma rs_alloc o s : P s → holds_ok P (alloc_obj o s).
Proof. intros HP. unfold alloc_obj, alloc. simpl. by apply R_alloc. Qed.

Ltac leaf :=
  simpl;
  eauto 8 using same_kind_refl, array_set_kind, rs_alloc.

Ltac walk :=
  repeat first
    [ progress intros
    | match goal with
      | |- holds_ok P (bind get_state _ _) => apply rs_get
      | |- holds_ok P (bind (modify _) _ _) => apply rs_modify
      | |- holds_ok P (bind _ _ _) => apply rs_bind
      | |- holds_ok P (match ?x with _ => _ end _) => destruct x eqn:?
      | |- holds_ok P (ret _ _) => simpl
      | |- holds_ok P (throw _ _) => simpl
      | |- holds_ok P (modify _ _) => simpl
      | |- holds_ok P (get_state _) => simpl
      end ].

Section bodies.
Variable rec : call → M value.
Hypothesis IH : ∀ s1 c s, R s1 s → holds_ok (R s1) (rec c s).

Lemma inv_effectFn_call e s : P s → holds_ok P (effectFn_call rec e s).
Proof.
  intros HP. unfold effectFn_call. apply rs_get.
  destruct (effects s !! e) as [ef|] eqn:He; [|exact I].
  do 3 apply rs_modify. unfold bind.
  match goal with |- holds_ok _ (match rec ?c ?st with _ => _ end) =>
    pose proof (IH st c st (R_refl st)) as Hb;
    destruct (rec c st) as [v s'|]; [|exact I]
  end.
  simpl in *. eapply R_bracket; [| |exact Hb]; [by apply R_cleanup|].
  rewrite effects_cleanup, lookup_alter_eq, He. by eexists.
Qed.

Lemma inv_effect fn o s : P s → holds_ok P (effect rec fn o s).
Proof. intros HP. unfold effect. walk; leaf. Qed.

Lemma inv_stop e s : P s → holds_ok P (stop rec e s).
Proof. intros HP. unfold stop. walk; leaf. Qed.

Lemma inv_trigger t k ty s : P s → holds_ok P (trigger rec t k ty s).
Proof. intros HP. unfold trigger. walk; leaf. Qed.

Lemma inv_computed_scheduler c s :
  P s → holds_ok P (computed_scheduler rec c s).
Proof.
  intros HP. unfold computed_scheduler. walk; leaf.
  apply inv_trigger. by apply R_dirty.
Qed.

Lemma inv_job w s : P s → holds_ok P (job rec w s).
Proof. intros HP. unfold job. walk; leaf. Qed.

Lemma inv_watch_scheduler w s : P s → holds_ok P (watch_scheduler rec w s).
Proof. intros HP. unfold watch_scheduler. walk; leaf; by apply inv_job. Qed.

Lemma inv_replay_one e s : P s → holds_ok P (replay_one rec e s).
Proof.
  intros HP. unfold replay_one. walk; leaf;
    eauto using inv_computed_scheduler, inv_watch_scheduler.
Qed.

Lemma inv_replay es s : P s → holds_ok P (replay rec es s).
Proof. intros HP. unfold replay. walk; leaf; eauto using inv_replay_one. Qed.

Lemma inv_run_all es s : P s → holds_ok P (run_all rec es s).
Proof. intros HP. unfold run_all. walk; leaf. Qed.

Lemma inv_reactive v s : P s → holds_ok P (reactive rec v s).
Proof.
  intros HP. unfold reactive. walk; leaf.
  match goal with H : alloc_obj _ _ = Ok _ _ |- _ =>
    unfold alloc_obj, alloc in H; injection H as <- <- end.
  apply R_reactiveMap; simpl; auto. apply lookup_insert_eq.
Qed.

Lemma inv_reactiveHandlers_get t k s :
  P s → holds_ok P (reactiveHandlers_get rec t k s).
Proof.
  intros HP. unfold reactiveHandlers_get. walk; leaf; eauto using inv_reactive.
Qed.

Lemma inv_reactiveHandlers_set t k v s :
  P s → holds_ok P (reactiveHandlers_set rec t k v s).
Proof.
  intros HP. unfold reactiveHandlers_set. walk; leaf; eauto using inv_trigger.
Qed.

Lemma inv_reactiveHandlers_deleteProperty t k s :
  P s → holds_ok P (reactiveHandlers_deleteProperty rec t k s).
Proof.
  intros HP. unfold reactiveHandlers_deleteProperty. walk; leaf;
    try (eapply R_store; eauto; exact I); eauto using inv_trigger.
Qed.

Lemma inv_reactiveHandlers_has t k s :
  P s → holds_ok P (reactiveHandlers_has t k s).
Proof. intros HP. unfold reactiveHandlers_has. walk; leaf. Qed.

Lemma inv_reactiveHandlers_ownKeys t s :
  P s → holds_ok P (reactiveHandlers_ownKeys t s).
Proof. intros HP. unfold reactiveHandlers_ownKeys. walk; leaf. Qed.

Lemma inv_ref_get r v k s : P s → holds_ok P (ref_get r v k s).
Proof. intros HP. unfold ref_get. walk; leaf. Qed.

Lemma inv_ref_set r old k v s :
  heap s !! r = Some (ORef old) → P s → holds_ok P (ref_set rec r old k v s).
Proof.
  intros Hr HP. unfold ref_set. walk; leaf.
  apply inv_trigger. eapply R_store; eauto; exact I.
Qed.

Lemma inv_computed_get c v d e st k s :
  heap s !! c = Some (OComputed v d e st) →
  P s → holds_ok P (computed_get rec c d e k s).
Proof.
  intros Hc HP. unfold computed_get.
  destruct (bool_decide (k = KStr "value")); [|walk; leaf].
  destruct d; [|walk; leaf].
  rewrite bind_assoc. unfold bind at 1.
  pose proof (IH s (CEffectFn e) s (R_refl s)) as Hb.
  destruct (rec (CEffectFn e) s) as [r s'|]; [|exact I].
  simpl in Hb. apply rs_modify.
  assert (P (set_heap (alter (memoize r) c (heap s')) s')) by eauto using R_memo.
  walk; leaf.
Qed.

Lemma inv_computed_set st k v s : P s → holds_ok P (computed_set rec st k v s).
Proof. intros HP. unfold computed_set. walk; leaf. Qed.

Lemma inv_obj_get a k s : P s → holds_ok P (obj_get rec a k s).
Proof.
  intros HP. unfold obj_get. walk; leaf;
    eauto using inv_reactiveHandlers_get, inv_ref_get, inv_computed_get.
Qed.

Lemma inv_obj_set a k v s : P s → holds_ok P (obj_set rec a k v s).
Proof.
  intros HP. unfold obj_set. walk; leaf;
    eauto using inv_reactiveHandlers_set, inv_ref_set, inv_computed_set.
  - eapply R_store; eauto; exact I.
  - match goal with H : array_set ?l ?p _ _ = Some _ |- _ =>
      eapply (R_store s0 _ (OArray l p)); eauto using array_set_kind; exact I
    end.
Qed.

Lemma inv_ref v s : P s → holds_ok P (ref v s).
Proof. intros HP. unfold ref. walk; leaf. Qed.

Lemma inv_computed g st s : P s → holds_ok P (computed rec g st s).
Proof.
  intros HP. unfold computed, effect, bind, get_state, modify, ret. simpl.
  apply (R_alloc s0 _ (set_effects _ s)). by apply R_new_effect.
Qed.

Lemma inv_has_flag f v s : P s → holds_ok P (has_flag rec f v s).
Proof. intros HP. unfold has_flag. walk; leaf. Qed.

Lemma inv_watch_getter src s : P s → holds_ok P (watch_getter rec src s).
Proof.
  intros HP. unfold watch_getter. walk; try (by apply inv_has_flag); leaf.
Qed.

Lemma inv_watch src cb im dp fl s :
  P s → holds_ok P (watch rec src cb im dp fl s).
Proof.
  intros HP. unfold watch. walk; leaf;
    eauto 8 using inv_watch_getter, inv_effect, inv_job.
Qed.

Lemma inv_watch_stop w s : P s → holds_ok P (watch_stop rec w s).
Proof. intros HP. unfold watch_stop. walk; leaf; eauto using inv_stop. Qed.

Lemma inv_onCleanup w fn s : P s → holds_ok P (onCleanup w fn s).
Proof. intros HP. unfold onCleanup. walk; leaf. Qed.

Lemma inv_batch fn s : P s → holds_ok P (batch rec fn s).
Proof. intros HP. unfold batch. walk; leaf. Qed.

Lemma inv_run_prog p s : P s → holds_ok P (run_prog rec p s).
Proof.
  intros HP. destruct p; simpl; walk;
    try (by eauto 8 using inv_reactiveHandlers_deleteProperty,
           inv_reactiveHandlers_has, inv_reactiveHandlers_ownKeys, inv_reactive,
           inv_ref, inv_computed, inv_effect, inv_stop, inv_watch, inv_onCleanup,
           inv_watch_stop, inv_batch, inv_trigger);
    leaf.
  apply IH. eapply R_store; eauto; exact I.
Qed.
End bodies.

End from.

Theorem exec_invariant fuel : ∀ s0 c s, R s0 s → holds_ok (R s0) (exec fuel c s).
Proof.
  induction fuel as [|n IH]; intros s0 c s HP; [exact I|].
  destruct c;
    rewrite ?exec_CProg, ?exec_CEffectFn, ?exec_CGet, ?exec_CSet, ?exec_CReplay,
      ?exec_CRunAll;
    eauto using inv_run_prog, inv_effectFn_call, inv_obj_get, inv_obj_set,
      inv_replay, inv_run_all.
Qed.

Corollary exec_relation fuel c s v s' : exec fuel c s = Ok v s' → R s s'.
Proof.
  intros E. pose proof (exec_invariant fuel s c s (R_refl s)) as H. by rewrite E in H.
Qed.
End invariant.

(** The special case of a state predicate that does not look at the stack
    of running effects. *)
Section predicate.
Variable P : state → Prop.
Hypothesis P_emit : ∀ ev s, P s → P (emit ev s).
Hypothesis P_track : ∀ t k s, P s → P (track t k s).
Hypothesis P_cleanup : ∀ e s, P s → P (cleanup e s).
Hypothesis P_active : ∀ a st s, P s → P (set_active a st s).
Hypothesis P_new_effect : ∀ ef s,
  P s → P (set_effects (<[fresh (dom (effects s)) := ef]> (effects s)) s).
Hypothesis P_deactivate : ∀ e s,
  P s → P (set_effects (alter (with_active false) e (effects s)) s).
Hypothesis P_alloc : ∀ o s, P s → P (store (fresh (dom (heap s))) o s).
Hypothesis P_store : ∀ a o o' s,
  heap s !! a = Some o → same_kind o o' → P s → P (store a o' s).
Hypothesis P_watchers : ∀ m s, P s → P (set_watchers m s).
Hypothesis P_microtasks : ∀ q s, P s → P (set_microtasks q s).
Hypothesis P_reactiveMap : ∀ a q s,
  heap s !! q = Some (OProxy a) → reactiveMap s !! a = None →
  P s → P (set_reactiveMap (<[a := q]> (reactiveMap s)) s).
Hypothesis P_batch_flag : ∀ b s, P s → P (set_batch b (batchQueue s) s).
Hypothesis P_batch_clear : ∀ s, P s → P (set_batch (isBatching s) [] s).

Lemma P_memoize c r s : P s → P (set_heap (alter (memoize r) c (heap s)) s).
Proof.
  intros HP. destruct (heap s !! c) as [o|] eqn:E.
  - replace (alter (memoize r) c (heap s)) with (<[c := memoize r o]> (heap s)).
    + apply (P_store c o); auto. destruct o; simpl; auto.
    + apply map_eq. intros i. destruct (decide (c = i)) as [->|].
      * by rewrite lookup_insert_eq, lookup_alter_eq, E.
      * by rewrite lookup_insert_ne, lookup_alter_ne.
  - replace (alter (memoize r) c (heap s)) with (heap s).
    + destruct s; exact HP.
    + apply map_eq. intros i. destruct (decide (c = i)) as [->|].
      * by rewrite lookup_alter_eq, E.
      * by rewrite lookup_alter_ne.
Qed.

Theorem exec_preserves fuel c s v s' : P s → exec fuel c s = Ok v s' → P s'.
Proof.
  intros HP E. revert HP.
  apply (exec_relation (λ s s', P s → P s')) with (fuel := fuel) (c := c) (v := v);
    try done; eauto.
  - intros s0 e s1 s2 H1 _ H2 H0. apply P_active, H2, P_emit, P_active, H1, H0.
  - intros s0 c0 v0 e st s1 Hc H1 H0.
    apply (P_store c0 (OComputed v0 false e st)); [exact Hc|done|]. apply P_emit; auto.
  - intros s0 c0 v0 e st r s1 s2 _ H1 H2 H0. apply P_memoize; auto.
Qed.
End predicate.

(** ** The stack of running effects *)

Lemma exec_stack fuel c s v s' : exec fuel c s = Ok v s' → stack_restored s s'.
Proof.
  apply (exec_relation stack_restored); unfold stack_restored; try (simpl; tauto).
  - intros s0 t k s1. by rewrite activeEffect_track, effectStack_track.
  - intros s0 e s1. by rewrite activeEffect_cleanup, effectStack_cleanup.
  - intros s0 e s1 s2 [H1 _] _ [H2 _]. simpl in *.
    rewrite H2, removelast_last, H1. auto.
  - intros s0 c0 v0 e st r s1 s2 _ [H1 H1'] [H2 H2']. simpl.
    split; [congruence|].
    destruct H1' as [A|A], H2' as [B|B]; [left|right|right|right]; congruence.
Qed.

Lemma exec_active fuel c s v s' :
  wf_active s → exec fuel c s = Ok v s' →
  activeEffect s' = activeEffect s ∧ effectStack s' = effectStack s ∧ wf_active s'.
Proof.
  unfold wf_active. intros Hwf [Hs Ha]%exec_stack.
  assert (activeEffect s' = activeEffect s) as E by (destruct Ha; congruence).
  repeat split; congruence.
Qed.

(** ** Objects keep their kind *)

Lemma is_computed_ref_exec c e st fuel cl s v s' :
  is_computed_ref c e st s → exec fuel cl s = Ok v s' → is_computed_ref c e st s'.
Proof.
  apply (exec_preserves (is_computed_ref c e st)); unfold is_computed_ref; try done.
  - intros t k s0. by rewrite heap_track.
  - intros e0 s0. by rewrite heap_cleanup.
  - intros o s0 (v0 & d0 & H). simpl. exists v0, d0.
    rewrite lookup_insert_ne; [done|]. intros E.
    pose proof (fresh_heap_None s0) as Hf. rewrite E, H in Hf. done.
  - intros a o o' s0 Ho Hk (v0 & d0 & H). simpl.
    destruct (decide (a = c)) as [->|]; [|rewrite lookup_insert_ne by done; eauto].
    rewrite lookup_insert_eq. rewrite Ho in H. injection H as ->.
    destruct o'; simpl in Hk; try done. destruct Hk as [<- <-]. eauto.
Qed.

(** ** Reasoning about calls that return *)

Lemma bind_ok {A B} (m : M A) (f : A → M B) s b s' :
  bind m f s = Ok b s' → ∃ a s1, m s = Ok a s1 ∧ f a s1 = Ok b s'.
Proof. unfold bind. destruct (m s) as [a s1|]; [eauto|discriminate]. Qed.

Lemma exec_ok_fuel fuel c s v s' : exec fuel c s = Ok v s' → ∃ n, fuel = S n.
Proof. destruct fuel; [discriminate|eauto]. Qed.

(** ** The batch queue

    [batchQueue] is private to the module and nothing adds to it. *)

Lemma batchQueue_exec fuel c s v s' :
  batchQueue s = [] → exec fuel c s = Ok v s' → batchQueue s' = [].
Proof.
  apply (exec_preserves (λ s, batchQueue s = [])); try done.
  - intros t k s0 H. by rewrite (track_proj batchQueue).
  - intros e s0 H. by rewrite (cleanup_proj batchQueue).
Qed.

Lemma batchQueue_run fuel p v s : run fuel p = Ok v s → batchQueue s = [].
Proof. by apply batchQueue_exec. Qed.

(** C9, counterexample.  The claim says that an inner [batch] completing
    while an outer one is active performs no flush and leaves the batching
    flag set.  Here the outer call is active ([isBatching] is true) and the
    inner call [batch(() => {})] returns with the flag cleared and the
    queue flushed; in the nested script the inner flush happens before the
    rest of the outer function runs. *)
Lemma nested_batch_inner_flushes :
  isBatching outer_active = true ∧
  (∃ s', batch (exec 2) (Ret VUndef) outer_active = Ok VUndef s' ∧
         isBatching s' = false ∧ log s' = [EvFlush []]) ∧
  trace (run 6 (Batch (Batch (Ret VUndef) (Log (VStr "rest of outer") (Ret VUndef)))
                  (Ret VUndef)))
  = [EvFlush []; EvLog (VStr "rest of outer"); EvFlush []].
Proof.
  split; [reflexivity|]. split; [|vm_compute; reflexivity].
  eexists. split; [vm_compute; reflexivity|]. split; reflexivity.
Qed.

(** C9, amended.  [batch] keeps no nesting depth: every call that returns,
    nested or not, has cleared the batching flag and has replayed and
    emptied the queue as its last steps.  (The queue is always empty when a
    call starts, see [batchQueue_exec].) *)
Theorem batch_always_flushes_on_return fuel fn s v s' :
  batchQueue s = [] →
  batch (exec fuel) fn s = Ok v s' →
  isBatching s' = false ∧ batchQueue s' = [] ∧
  ∃ r s2, exec fuel (CProg fn) (set_batch true (batchQueue s) s) = Ok r s2 ∧
          log s' = log s2 ++ [EvFlush []].
Proof.
  intros Hq H. unfold batch in H.
  apply bind_ok in H as (u & s1 & Hm & H1). injection Hm as _ <-.
  apply bind_ok in H1 as (r & s2 & Hfn & H2).
  assert (Hq2 : batchQueue s2 = []).
  { by apply (batchQueue_exec fuel (CProg fn) (set_batch true (batchQueue s) s) r s2). }
  destruct (exec_ok_fuel _ _ _ _ _ Hfn) as [n ->].
  cbn [bind modify get_state] in H2. rewrite Hq2, exec_CRunAll in H2. simpl in H2.
  injection H2 as <- <-. do 2 (split; [done|]).
  exists r, s2. split; [exact Hfn|done].
Qed.

Lemma batch_always_flushes_on_return_witness :
  batchQueue outer_active = [] ∧
  ∃ s', batch (exec 2) (Ret VUndef) outer_active = Ok VUndef s' ∧
        isBatching s' = false ∧ batchQueue s' = [].
Proof.
  split; [reflexivity|]. eexists. split; [vm_compute; reflexivity|].
  destruct (batch_always_flushes_on_return 2 (Ret VUndef) outer_active VUndef
              (emit (EvFlush []) (set_batch false [] init)))
    as (H1 & H2 & _); [reflexivity|vm_compute; reflexivity|].
  split; [exact H1|exact H2].
Defined.

(** ** [reactive] *)

Lemma exec_get_marker n s a o :
  heap s !! a = Some o →
  exec (S n) (CGet a (KStr "__isReactive")) s = Ok (reactive_marker o) s.
Proof.
  intros H. rewrite exec_CGet. unfold obj_get, bind, get_state. rewrite H.
  destruct o; reflexivity.
Qed.

Lemma reactive_unfold n s a o :
  heap s !! a = Some o →
  reactive (exec (S n)) (VObj a) s =
  if truthy (reactive_marker o) then Ok (VObj a) s
  else match reactiveMap s !! a with
       | Some q => Ok (VObj q) s
       | None =>
           let q := fresh (dom (heap s)) in
           Ok (VObj q) (set_reactiveMap (<[a := q]> (reactiveMap s)) (store q (OProxy a) s))
       end.
Proof.
  intros H. unfold reactive, bind. rewrite (exec_get_marker n s a o H).
  destruct (truthy (reactive_marker o)); [reflexivity|].
  unfold get_state. destruct (reactiveMap s !! a); reflexivity.
Qed.

Lemma wf_reactiveMap_init : wf_reactiveMap init.
Proof. intros a q H. simpl in H. by rewrite lookup_empty in H. Qed.

Lemma wf_reactiveMap_exec fuel c s v s' :
  wf_reactiveMap s → exec fuel c s = Ok v s' → wf_reactiveMap s'.
Proof.
  apply (exec_preserves wf_reactiveMap); try done.
  - intros t k s0 H a q. rewrite (track_proj reactiveMap), (track_proj heap) by done. apply H.
  - intros e s0 H a q. rewrite (cleanup_proj reactiveMap), (cleanup_proj heap) by done.
    apply H.
  - intros o s0 H a q Hq. simpl in *. pose proof (H a q Hq) as Hh.
    rewrite lookup_insert_ne; [done|]. intros <-. by rewrite fresh_heap_None in Hh.
  - intros a o o' s0 Ho Hk H b q Hq. simpl in *. pose proof (H b q Hq) as Hh.
    destruct (decide (a = q)) as [->|]; [|by rewrite lookup_insert_ne].
    rewrite lookup_insert_eq. rewrite Ho in Hh. injection Hh as ->.
    destruct o'; simpl in Hk; try done. by subst.
  - intros a q s0 Hq Hn H b p Hb. simpl in *.
    destruct (decide (a = b)) as [->|].
    + rewrite lookup_insert_eq in Hb. by injection Hb as <-.
    + rewrite lookup_insert_ne in Hb by done. by apply H.
Qed.

(** A cache entry, once made, is never replaced. *)
Lemma reactiveMap_entry_exec a q fuel c s v s' :
  reactiveMap s !! a = Some q → exec fuel c s = Ok v s' → reactiveMap s' !! a = Some q.
Proof.
  apply (exec_preserves (λ s, reactiveMap s !! a = Some q)); try done.
  - intros t k s0 H. by rewrite (track_proj reactiveMap).
  - intros e s0 H. by rewrite (cleanup_proj reactiveMap).
  - intros b p s0 _ Hn H. simpl. rewrite lookup_insert_ne; [done|]. congruence.
Qed.



(** ** [ref] *)

(** Reading [r.value] calls [track(r, 'value')] and returns the stored
    value as it is. *)
Lemma ref_value_get n s r v :
  heap s !! r = Some (ORef v) →
  exec (S n) (CGet r (KStr "value")) s = Ok v (track r (KStr "value") s).
Proof. intros H. rewrite exec_CGet. unfold obj_get, bind, get_state. by rewrite H. Qed.





(** ** [trigger] *)

Lemma elem_of_set_add {A} `{EqDecision A} (x y : A) l :
  y ∈ set_add x l ↔ y = x ∨ y ∈ l.
Proof.
  unfold set_add, set_has. case_bool_decide.
  - split; [auto|]. intros [->|]; auto.
  - rewrite elem_of_app, list_elem_of_singleton. tauto.
Qed.

Lemma NoDup_set_add {A} `{EqDecision A} (x : A) l : NoDup l → NoDup (set_add x l).
Proof.
  intros H. unfold set_add, set_has. case_bool_decide; [done|].
  apply NoDup_app. split; [done|]. split.
  - intros y Hy ->%list_elem_of_singleton. done.
  - apply NoDup_singleton.
Qed.

(** What [addEffects(dep)] adds to the two sets: the members of [dep]
    other than the running effect, sorted by [options.computed]; the sets
    stay duplicate free. *)
Lemma addEffects_spec s dep acc :
  let r := addEffects s dep acc in
  (∀ e, e ∈ r.1 ↔ e ∈ acc.1 ∨
        (e ∈ dep ∧ activeEffect s ≠ Some e ∧ is_computed s e = false)) ∧
  (∀ e, e ∈ r.2 ↔ e ∈ acc.2 ∨
        (e ∈ dep ∧ activeEffect s ≠ Some e ∧ is_computed s e = true)) ∧
  (NoDup acc.1 → NoDup r.1) ∧ (NoDup acc.2 → NoDup r.2).
Proof.
  revert acc. induction dep as [|x dep IH]; intros acc; simpl.
  - repeat split; auto; intros [?|[H%elem_of_nil _]]; auto; done.
  - unfold addEffects in *. simpl.
    set (acc' := if bool_decide (activeEffect s = Some x) then acc
                 else if is_computed s x then (acc.1, set_add x acc.2)
                 else (set_add x acc.1, acc.2)).
    destruct (IH acc') as (I1 & I2 & I3 & I4).
    assert (E1 : ∀ e, e ∈ acc'.1 ↔ e ∈ acc.1 ∨
               (e = x ∧ activeEffect s ≠ Some e ∧ is_computed s e = false)).
    { intros e. unfold acc'. case_bool_decide as Ha.
      - split; [auto|]. intros [?|(-> & ? & ?)]; done.
      - destruct (is_computed s x) eqn:Hc; simpl.
        + split; [auto|]. intros [?|(-> & ? & ?)]; [done|congruence].
        + rewrite elem_of_set_add. split; [intros [->|]; auto|].
          intros [?|(-> & ? & ?)]; auto. }
    assert (E2 : ∀ e, e ∈ acc'.2 ↔ e ∈ acc.2 ∨
               (e = x ∧ activeEffect s ≠ Some e ∧ is_computed s e = true)).
    { intros e. unfold acc'. case_bool_decide as Ha.
      - split; [auto|]. intros [?|(-> & ? & ?)]; done.
      - destruct (is_computed s x) eqn:Hc; simpl.
        + rewrite elem_of_set_add. split; [intros [->|]; auto|].
          intros [?|(-> & ? & ?)]; auto.
        + split; [auto|]. intros [?|(-> & ? & ?)]; [done|congruence]. }
    assert (N1 : NoDup acc.1 → NoDup acc'.1).
    { unfold acc'. repeat case_match; simpl; auto using NoDup_set_add. }
    assert (N2 : NoDup acc.2 → NoDup acc'.2).
    { unfold acc'. repeat case_match; simpl; auto using NoDup_set_add. }
    repeat split; auto.
    + rewrite I1, E1, elem_of_cons. tauto.
    + rewrite I1, E1, elem_of_cons. tauto.
    + rewrite I2, E2, elem_of_cons. tauto.
    + rewrite I2, E2, elem_of_cons. tauto.
Qed.

Lemma addEffects_sorted s dep acc :
  sorted_sets s acc → sorted_sets s (addEffects s dep acc).
Proof.
  intros (F1 & F2 & N1 & N2).
  destruct (addEffects_spec s dep acc) as (I1 & I2 & I3 & I4).
  rewrite Forall_forall in F1, F2.
  repeat split; auto; apply Forall_forall; intros e He.
  - apply I1 in He as [?|(_ & _ & ?)]; auto.
  - apply I2 in He as [?|(_ & _ & ?)]; auto.
Qed.

Lemma length_sweep_sorted s len depsMap acc acc' :
  sorted_sets s acc → length_sweep s len depsMap acc = Some acc' → sorted_sets s acc'.
Proof.
  revert acc. induction depsMap as [|[k dep] r IH]; intros acc Hs H; simpl in H.
  - by injection H as <-.
  - destruct k as [str|]; [|done]. eapply IH; [|exact H].
    destruct (num_ge _ _); auto using addEffects_sorted.
Qed.

Lemma trigger_collect_sorted s target k ty acc :
  trigger_collect s target k ty = Some (inr acc) → sorted_sets s acc.
Proof.
  unfold trigger_collect. destruct (targetMap s !! target) as [depsMap|]; [|done].
  set (acc0 := addEffects s _ ([], [])).
  assert (H0 : sorted_sets s acc0).
  { apply addEffects_sorted. repeat split; simpl; auto using NoDup_nil_2. }
  set (acc1 := if bool_decide (ty = TAdd) && is_array s target
               then addEffects s _ acc0 else acc0).
  assert (H1 : sorted_sets s acc1).
  { unfold acc1. destruct (_ && _); auto using addEffects_sorted. }
  clearbody acc1 acc0.
  destruct (bool_decide (k = KStr "length") && is_array s target).
  - destruct (length_sweep _ _ _ _) as [acc'|] eqn:E; [|done].
    intros [= <-]. eauto using length_sweep_sorted.
  - by intros [= <-].
Qed.

(** [trigger] looks at the registry, the running effect, the options of
    the effects and the target only. *)
Lemma addEffects_ext s s' dep acc :
  activeEffect s = activeEffect s' → effects s = effects s' →
  addEffects s dep acc = addEffects s' dep acc.
Proof.
  intros Ha He. unfold addEffects, is_computed. rewrite Ha, He. reflexivity.
Qed.

Lemma length_sweep_ext s s' len depsMap acc :
  activeEffect s = activeEffect s' → effects s = effects s' →
  length_sweep s len depsMap acc = length_sweep s' len depsMap acc.
Proof.
  intros Ha He. revert acc. induction depsMap as [|[[str|] dep] r IH]; intros acc; simpl; auto.
  rewrite (addEffects_ext s s') by done. apply IH.
Qed.

Lemma trigger_collect_ext s s' target k ty :
  targetMap s = targetMap s' → activeEffect s = activeEffect s' →
  effects s = effects s' → heap s = heap s' →
  trigger_collect s target k ty = trigger_collect s' target k ty.
Proof.
  intros Ht Ha He Hh. unfold trigger_collect, is_array, array_length.
  rewrite Ht, Hh. destruct (targetMap s' !! target) as [depsMap|]; [|done].
  rewrite !(addEffects_ext s s') by done.
  by rewrite (length_sweep_ext s s').
Qed.

Lemma trigger_collect_emit ev s target k ty :
  trigger_collect (emit ev s) target k ty = trigger_collect s target k ty.
Proof. by apply trigger_collect_ext. Qed.

(** How a call of [trigger] proceeds, by what it collected. *)
Lemma trigger_unfold rec s target k ty :
  trigger rec target k ty s =
  let s0 := emit (EvTrigger target k ty) s in
  match trigger_collect s target k ty with
  | None => Ok VUndef s0
  | Some (inl err) => Err err s0
  | Some (inr (effs, computedEffects)) =>
      bind (rec (CReplay computedEffects)) (λ _, rec (CReplay effs)) s0
  end.
Proof.
  unfold trigger. cbn [bind modify get_state].
  rewrite trigger_collect_emit.
  destruct (trigger_collect s target k ty) as [[err|[effs comps]]|]; reflexivity.
Qed.



(** A plain update of a key other than [length]: only the dependency set
    of that key is collected. *)
Lemma trigger_collect_set s target k depsMap :
  targetMap s !! target = Some depsMap → k ≠ klength →
  trigger_collect s target k TSet
  = Some (inr (addEffects s (default [] (alist_get k depsMap)) ([], []))).
Proof.
  intros Ht Hk. unfold trigger_collect. rewrite Ht.
  rewrite (bool_decide_eq_false_2 (TSet = TAdd)) by done.
  rewrite (bool_decide_eq_false_2 (k = KStr "length")) by done.
  reflexivity.
Qed.

Lemma addEffects_single_plain s e :
  activeEffect s ≠ Some e → is_computed s e = false →
  addEffects s [e] ([], []) = ([e], []).
Proof.
  intros Ha Hc. unfold addEffects. cbn [foldl].
  rewrite bool_decide_eq_false_2 by done. rewrite Hc. reflexivity.
Qed.

(** ** [computed] *)

Lemma alist_get_set_eq {K V} `{EqDecision K} (k : K) (v : V) l :
  alist_get k (alist_set k v l) = Some v.
Proof.
  induction l as [|[k' v'] l IH]; simpl.
  - by rewrite decide_True.
  - destruct (decide (k = k')) as [->|Hne]; simpl.
    + by rewrite decide_True.
    + by rewrite decide_False.
Qed.

Lemma alist_get_set_ne {K V} `{EqDecision K} (k k' : K) (v : V) l :
  k ≠ k' → alist_get k' (alist_set k v l) = alist_get k' l.
Proof.
  intros Hne. induction l as [|[k0 v0] l IH]; simpl.
  - by rewrite decide_False.
  - destruct (decide (k = k0)) as [->|]; simpl.
    + by rewrite !decide_False.
    + destruct (decide (k' = k0)); auto.
Qed.

(** What [track] does to the dependency set it is called for: the running
    effect joins it, once. *)
Lemma dep_of_track t k s :
  dep_of (track t k s) t k =
  match activeEffect s with
  | Some a => set_add a (dep_of s t k)
  | None => dep_of s t k
  end.
Proof.
  unfold track, dep_of. cbn [activeEffect emit targetMap].
  destruct (activeEffect s) as [a|]; [|reflexivity].
  set (depsMap := default [] (targetMap s !! t)).
  set (dep := default [] (alist_get k depsMap)).
  assert (E : match targetMap s !! t with
              | Some dm => default [] (alist_get k dm)
              | None => []
              end = dep).
  { unfold dep, depsMap. destruct (targetMap s !! t); reflexivity. }
  rewrite E. unfold set_add.
  destruct (set_has a dep); cbn [targetMap set_targetMap set_effects];
    rewrite lookup_insert_eq, alist_get_set_eq; reflexivity.
Qed.

Lemma track_registers t k s a :
  activeEffect s = Some a → a ∈ dep_of (track t k s) t k.
Proof. intros H. rewrite dep_of_track, H. apply elem_of_set_add. auto. Qed.

Lemma log_iter_track t k n s :
  log (Nat.iter n (track t k) s) = log s ++ replicate n (EvTrack t k).
Proof.
  induction n as [|n IH]; simpl.
  - by rewrite app_nil_r.
  - rewrite log_track, IH, <- app_assoc. f_equal.
    change [EvTrack t k] with (replicate 1 (EvTrack t k)).
    rewrite <- replicate_add. by rewrite Nat.add_comm.
Qed.

Lemma heap_iter_track t k n s : heap (Nat.iter n (track t k) s) = heap s.
Proof. induction n as [|n IH]; simpl; [done|]. by rewrite heap_track. Qed.

(** A read of a computed that is not dirty. *)
Lemma computed_get_clean n s c v e st :
  heap s !! c = Some (OComputed v false e st) →
  exec (S n) (CGet c kvalue) s = Ok v (track c kvalue s).
Proof.
  intros H. rewrite exec_CGet. unfold obj_get. norm. rewrite H.
  unfold computed_get. rewrite bool_decide_eq_true_2 by reflexivity. norm.
  by rewrite heap_track, H.
Qed.

(** A read of a dirty computed. *)
Lemma computed_get_dirty n s c v e st :
  heap s !! c = Some (OComputed v true e st) →
  exec (S n) (CGet c kvalue) s =
  match exec n (CEffectFn e) s with
  | Ok r s1 => Ok r (track c kvalue (store c (OComputed r false e st) s1))
  | Err err s1 => Err err s1
  end.
Proof.
  intros H. rewrite exec_CGet. unfold obj_get. norm. rewrite H.
  unfold computed_get. rewrite bool_decide_eq_true_2 by reflexivity. norm.
  rewrite bind_unfold.
  destruct (exec n (CEffectFn e) s) as [r s1|err s1] eqn:E; [|reflexivity].
  destruct (is_computed_ref_exec c e st n (CEffectFn e) s r s1) as (v1 & d1 & H1);
    [by exists v, true|done|].
  norm. rewrite heap_track. cbn [heap set_heap]. rewrite lookup_alter_eq, H1. cbn.
  do 2 f_equal. unfold store. f_equal. apply map_eq. intros i.
  destruct (decide (c = i)) as [->|].
  - by rewrite lookup_alter_eq, lookup_insert_eq, H1.
  - by rewrite lookup_alter_ne, lookup_insert_ne.
Qed.

Lemma read_many_clean n s c v e st k :
  heap s !! c = Some (OComputed v false e st) →
  read_many (S n) c k s = Ok (replicate k v) (Nat.iter k (track c kvalue) s).
Proof.
  revert s. induction k as [|k IH]; intros s H; [reflexivity|].
  cbn [read_many]. rewrite bind_unfold.
  change (KStr "value") with kvalue. rewrite (computed_get_clean n s c v e st H).
  rewrite bind_unfold, IH by by rewrite heap_track.
  norm. by rewrite Nat.iter_succ_r.
Qed.

(** From a state in which the computed [c] is not dirty, whatever the
    engine does, the computed keeps its value and stays not dirty unless
    the scheduler of its backing effect makes the transition
    [dirty = true] ([EvDirty c] in the log). *)
Lemma clean_until_dirty c fuel c' s r s' :
  exec fuel c' s = Ok r s' →
  ∃ l, log s' = log s ++ l ∧
    ∀ v e st, EvDirty c ∉ l →
      heap s !! c = Some (OComputed v false e st) →
      heap s' !! c = Some (OComputed v false e st).
Proof.
  apply (exec_relation (λ s s', ∃ l, log s' = log s ++ l ∧
    ∀ v e st, EvDirty c ∉ l →
      heap s !! c = Some (OComputed v false e st) →
      heap s' !! c = Some (OComputed v false e st)));
    try (intros; assumption).
  - intros s1. exists []. split; [by rewrite app_nil_r|auto].
  - intros s0 ev s1 (l & Hl & H). exists (l ++ [ev]). cbn [log heap emit].
    split; [by rewrite Hl, app_assoc|].
    intros v e st Hn. apply H. set_solver.
  - intros s0 t k s1 (l & Hl & H). exists (l ++ [EvTrack t k]).
    rewrite log_track, heap_track. split; [by rewrite Hl, app_assoc|].
    intros v e st Hn. apply H. set_solver.
  - intros s0 e s1 (l & Hl & H). exists l. by rewrite log_cleanup, heap_cleanup.
  - (* effectFn *)
    intros s0 e s1 s2 (l & Hl & H) _ (l' & Hl' & H').
    exists (l ++ [EvRun e] ++ l'). cbn [log heap emit set_active] in *.
    split; [by rewrite Hl', Hl, <- !app_assoc|].
    intros v e0 st Hn Hc. apply H', H; [set_solver|set_solver|done].
  - (* a new object *)
    intros s0 o s1 (l & Hl & H). exists l. split; [done|].
    intros v e st Hn Hc. cbn [heap store set_heap].
    rewrite lookup_insert_ne; [by apply H|].
    intros E. specialize (H _ _ _ Hn Hc). rewrite <- E, fresh_heap_None in H. done.
  - (* a write to a plain object, an array or a cell *)
    intros s0 a o o' s1 Ha Hd _ (l & Hl & H). exists l. split; [done|].
    intros v e st Hn Hc. cbn [heap store set_heap].
    rewrite lookup_insert_ne; [by apply H|].
    intros ->. specialize (H _ _ _ Hn Hc). rewrite Ha in H. by injection H as ->.
  - (* dirty = true *)
    intros s0 c0 v0 e0 st0 s1 Hc0 (l & Hl & H). exists (l ++ [EvDirty c0]).
    cbn [log heap store set_heap emit]. split; [by rewrite Hl, app_assoc|].
    intros v e st Hn Hc. rewrite lookup_insert_ne; [apply H; [set_solver|done]|].
    intros ->. set_solver.
  - (* a read of a dirty computed *)
    intros s0 c0 v0 e0 st0 r0 s1 s2 Hc0 (l & Hl & H) (l' & Hl' & H').
    exists (l ++ l'). cbn [log heap set_heap].
    split; [by rewrite Hl', Hl, app_assoc|].
    intros v e st Hn Hc.
    assert (H1 : heap s1 !! c = Some (OComputed v false e st))
      by (apply H; [set_solver|done]).
    rewrite lookup_alter_ne; [apply H'; [set_solver|done]|].
    intros ->. congruence.
Qed.

(** C2, counterexample.  The claim says that between two dirty transitions
    the getter runs at most once, however many times [.value] is read.
    The flag is cleared only after the getter has returned, so a read of
    [c.value] made while the getter is running finds it still set.  In
    [self_reading_script] the getter reads its own computed once: between
    the transitions caused by [x.value = 2] and by [x.value = 3] the
    single outer read [c.value] runs the backing effect twice, and
    ['getter'] is logged twice. *)
Lemma self_reading_getter_runs_twice :
  ∃ l,
    trace (run 40 self_reading_script)
    = [EvRun 0; EvLog (VStr "getter"); EvTrack 0 kvalue; EvTrack 2 kvalue;
       EvTrigger 0 kvalue TSet; EvSched 0]
      ++ [EvDirty 2] ++ l ++ [EvDirty 2]
      ++ [EvTrigger 2 kvalue TSet; EvSched 0] ∧
    l = [EvTrigger 2 kvalue TSet;
         EvRun 0; EvLog (VStr "getter"); EvTrack 0 kvalue;
         EvRun 0; EvLog (VStr "getter"); EvTrack 0 kvalue;
         EvTrack 2 kvalue; EvTrack 2 kvalue; EvLog (int 2);
         EvTrigger 0 kvalue TSet; EvSched 0] ∧
    (EvDirty 2 ∉ l) ∧
    runs_of 0 l = 2 ∧
    ∃ v d, heap (res_state (run 40 self_reading_script)) !! 2
           = Some (OComputed v d 0 SetterReadonly).
Proof.
  exists [EvTrigger 2 kvalue TSet;
          EvRun 0; EvLog (VStr "getter"); EvTrack 0 kvalue;
          EvRun 0; EvLog (VStr "getter"); EvTrack 0 kvalue;
          EvTrack 2 kvalue; EvTrack 2 kvalue; EvLog (int 2);
          EvTrigger 0 kvalue TSet; EvSched 0].
  split; [vm_compute; reflexivity|]. split; [reflexivity|].
  split; [|split; [reflexivity|]].
  - intros H. repeat (apply elem_of_cons in H as [H|H]; [discriminate|]).
    by apply elem_of_nil in H.
  - eexists _, _. vm_compute. reflexivity.
Qed.

(** C2, amended.  A read of [c.value] while the computed is not dirty
    returns the memoized value and does nothing but call [track]; a read
    while it is dirty calls the backing computation, stores what it
    returned and clears the flag.  So once a read has returned [r], any
    number of further reads return [r] and add only their [track] calls
    to the log, and whatever else the engine does from a state in which
    the computed is not dirty, the memoized value and the cleared flag
    stay as they are until the scheduler makes the next dirty transition:
    no read issued after a read has returned and before the next dirty
    transition runs the getter.  (A read issued while the getter is still
    running is a read in the dirty state and runs it again.)
    Every read ends with [track(c, 'value')], which registers the running
    computation, if any, in the dependency set of the computed itself; on
    a well-formed stack that is the computation that was running when the
    read began. *)
Theorem computed_memoized n s c v d e st :
  heap s !! c = Some (OComputed v d e st) →
  (d = false → exec (S n) (CGet c kvalue) s = Ok v (track c kvalue s)) ∧
  (d = true →
   exec (S n) (CGet c kvalue) s =
   match exec n (CEffectFn e) s with
   | Ok r s1 => Ok r (track c kvalue (store c (OComputed r false e st) s1))
   | Err err s1 => Err err s1
   end) ∧
  (∀ r s', exec (S n) (CGet c kvalue) s = Ok r s' →
     heap s' !! c = Some (OComputed r false e st) ∧
     (∀ k, ∃ s'',
        read_many (S n) c k s' = Ok (replicate k r) s'' ∧
        log s'' = log s' ++ replicate k (EvTrack c kvalue) ∧
        heap s'' !! c = Some (OComputed r false e st)) ∧
     (∀ a, activeEffect s' = Some a → a ∈ dep_of s' c kvalue) ∧
     (wf_active s → activeEffect s' = activeEffect s)) ∧
  (d = false → ∀ fuel c' r s', exec fuel c' s = Ok r s' →
     ∃ l, log s' = log s ++ l ∧
          (EvDirty c ∉ l → heap s' !! c = Some (OComputed v false e st))).
Proof.
  intros H. split; [intros ->; by apply (computed_get_clean n s c v e st)|].
  split; [intros ->; by apply (computed_get_dirty n s c v e st)|].
  split.
  2: { intros -> fuel c' r s' Hex.
       destruct (clean_until_dirty c fuel c' s r s' Hex) as (l & Hl & Hc).
       exists l. split; [exact Hl|]. intros Hn. by apply Hc. }
  intros r s' Hread.
  assert (Hs' : ∃ s1, s' = track c kvalue s1 ∧
                      heap s1 !! c = Some (OComputed r false e st)).
  { destruct d.
    - rewrite (computed_get_dirty n s c v e st H) in Hread.
      destruct (exec n (CEffectFn e) s) as [r1 s1|]; [|done].
      injection Hread as <- <-. eexists. split; [reflexivity|].
      simpl. by rewrite lookup_insert_eq.
    - rewrite (computed_get_clean n s c v e st H) in Hread.
      injection Hread as <- <-. eauto. }
  destruct Hs' as (s1 & -> & H1).
  assert (H' : heap (track c kvalue s1) !! c = Some (OComputed r false e st))
    by by rewrite heap_track.
  split; [exact H'|]. split; [|split].
  - intros k. eexists. split; [by apply (read_many_clean n _ c r e st)|].
    by rewrite log_iter_track, heap_iter_track.
  - intros a Ha. rewrite activeEffect_track in Ha. by apply track_registers.
  - intros Hwf. by destruct (exec_active _ _ _ _ _ Hwf Hread) as (-> & _).
Qed.

Lemma computed_memoized_witness :
  heap doubled_setup !! 1 = Some (OComputed VUndef true 0 SetterReadonly) ∧
  ∃ s' s'',
    exec 6 (CGet 1 kvalue) doubled_setup = Ok (int 2) s' ∧
    read_many 6 1 5 s' = Ok (replicate 5 (int 2)) s'' ∧
    log s'' = log s' ++ replicate 5 (EvTrack 1 kvalue).
Proof.
  assert (H : heap doubled_setup !! 1 = Some (OComputed VUndef true 0 SetterReadonly))
    by (vm_compute; reflexivity).
  split; [exact H|].
  destruct (exec 6 (CGet 1 kvalue) doubled_setup) as [r s'|] eqn:E;
    [|by vm_compute in E].
  assert (r = int 2) as -> by (vm_compute in E; by injection E as <-).
  destruct (computed_memoized 5 doubled_setup 1 _ _ _ _ H) as (_ & _ & H3 & _).
  destruct (H3 _ _ E) as (_ & Hk & _).
  destruct (Hk 5) as (s'' & H1 & H2 & _).
  exists s', s''. auto.
Defined.

(** The scenario of the specification: five reads run the getter once,
    and the read after [x.value = 5] runs it once more. *)
Example doubled_script_trace :
  trace (run 40 doubled_script)
  = [EvRun 0; EvLog (VStr "getter"); EvTrack 0 kvalue;
     EvTrack 1 kvalue; EvTrack 1 kvalue; EvTrack 1 kvalue; EvTrack 1 kvalue;
     EvTrack 1 kvalue; EvLog (int 2);
     EvTrigger 0 kvalue TSet; EvSched 0; EvDirty 1; EvTrigger 1 kvalue TSet;
     EvRun 0; EvLog (VStr "getter"); EvTrack 0 kvalue; EvTrack 1 kvalue;
     EvLog (int 10)].
Proof. vm_compute. reflexivity. Qed.

(** ** Where the code departs from the specification *)

(** C3, evaluated at the failing input.  The cell holds NaN and NaN is
    written to it: the setter compares with a plain [!==], so it calls
    [trigger] and the dependent effect runs a second time. *)
Theorem ref_NaN_write_triggers :
  trace (run 20 ref_nan_script)
  = [EvRun 0; EvTrack 0 kvalue; EvLog (VNum NaN);
     EvTrigger 0 kvalue TSet;
     EvRun 0; EvTrack 0 kvalue; EvLog (VNum NaN)].
Proof. vm_compute. reflexivity. Qed.

(** The same for every state: writing NaN over NaN stores it and calls
    [trigger]. *)
Lemma ref_set_NaN n s r :
  heap s !! r = Some (ORef (VNum NaN)) →
  exec (S n) (CSet r kvalue (VNum NaN)) s
  = bind (trigger (exec n) r kvalue TSet) (λ _, ret (VBool true))
      (store r (ORef (VNum NaN)) s).
Proof.
  intros H. rewrite exec_CSet. unfold obj_set, bind at 1, get_state. rewrite H.
  reflexivity.
Qed.

(** C1, evaluated at the failing input.  [length] is an existing key of
    the array and 3 is its current value, yet the set handler computes
    [hadKey] as [Number('length') < 3], which is false, and calls
    [trigger(target, 'length', 'add')]: the effect runs again. *)
Theorem same_length_write_triggers :
  trace (run 20 same_length_script)
  = [EvRun 0; EvTrack 0 klength; EvLog (int 3);
     EvTrigger 0 klength TAdd;
     EvRun 0; EvTrack 0 klength; EvLog (int 3)].
Proof. vm_compute. reflexivity. Qed.

(** C4, evaluated at the failing input.  The first effect stops the second
    one while [trigger] is replaying both: the second, already collected,
    is run all the same (its [active] flag is not looked at), registers
    itself again, and the next write to the cell runs it once more. *)
Theorem stopped_effect_runs_again :
  trace (run 40 stop_in_flight_script)
  = [EvRun 0; EvTrack 0 kvalue;
     EvRun 1; EvTrack 0 kvalue; EvLog (int 0);
     (* x.value = 1 *)
     EvTrigger 0 kvalue TSet;
     EvRun 0; EvTrack 0 kvalue; EvOnStop 1; EvLog (VStr "stopped");
     EvRun 1; EvTrack 0 kvalue; EvLog (int 1);
     (* x.value = 2 *)
     EvTrigger 0 kvalue TSet;
     EvRun 0; EvTrack 0 kvalue;
     EvRun 1; EvTrack 0 kvalue; EvLog (int 2)] ∧
  (let s := res_state (run 40 stop_in_flight_script) in
   e_active <$> effects s !! 1 = Some false ∧ 1 ∈ dep_of s 0 kvalue).
Proof.
  split; [vm_compute; reflexivity|]. split; [vm_compute; reflexivity|].
  vm_compute. apply list_elem_of_In. simpl. auto.
Qed.

(** C6, evaluated at the failing input.  The effect has read the array
    with a for-of loop, so a dependency set is registered under the key
    [Symbol.iterator]; setting [length] to 1 makes [trigger] compare that
    key with the length, which throws before anything is replayed. *)
Theorem shrink_after_iteration_throws :
  ∃ s, run 40 iterate_then_shrink_script = Err TypeError s ∧
       dep_of s 0 (KStr "2") = [0] ∧
       log s = [EvRun 0; EvTrack 0 (KSym "Symbol.iterator");
                EvTrack 0 klength; EvTrack 0 (KStr "0"); EvLog (int 1);
                EvTrack 0 klength; EvTrack 0 (KStr "1"); EvLog (int 2);
                EvTrack 0 klength; EvTrack 0 (KStr "2"); EvLog (int 3);
                EvTrack 0 klength;
                EvTrigger 0 klength TAdd].
Proof.
  eexists. split; [vm_compute; reflexivity|].
  split; vm_compute; reflexivity.
Qed.

(** ** The set handler on a plain object

    What C1 says does hold where [hadKey] is computed from the own
    properties: on every container that is not an array. *)

Lemma strict_eq_true v w : strict_eq v w = true ↔ v = w ∧ v ≠ VNum NaN.
Proof.
  unfold strict_eq. destruct v as [| |b|[|z]|str|a|f], w as [| |b'|[|z']|str'|a'|f'];
    try (rewrite bool_decide_eq_true); split; intros H; try done;
    try (split; [done|discriminate]); try (by destruct H); try (by destruct H as [_ []]).
Qed.

(** The test fails exactly when the two values are the same value, NaN
    counting as equal to itself. *)
Lemma changed_false v old :
  changed v old = false ↔ v = old.
Proof.
  unfold changed, strict_neq.
  destruct (strict_eq v old) eqn:E; simpl.
  - apply strict_eq_true in E as [-> _]. done.
  - destruct (strict_eq v v) eqn:Ev; simpl.
    + split; [done|]. intros ->. congruence.
    + destruct (strict_eq old old) eqn:Eo; simpl.
      * split; [done|]. intros ->. congruence.
      * assert (v = VNum NaN).
        { destruct (decide (v = VNum NaN)); [done|].
          assert (strict_eq v v = true) by by apply strict_eq_true. congruence. }
        assert (old = VNum NaN).
        { destruct (decide (old = VNum NaN)); [done|].
          assert (strict_eq old old = true) by by apply strict_eq_true. congruence. }
        split; [congruence|done].
Qed.

Lemma alist_get_elem_of {K V} `{EqDecision K} (k : K) (v : V) l :
  alist_get k l = Some v → k ∈ l.*1.
Proof.
  induction l as [|[k' v'] l IH]; simpl; [done|].
  destruct (decide (k = k')) as [->|]; intros H.
  - apply elem_of_cons. auto.
  - apply elem_of_cons. auto.
Qed.

(** Writing an own property of a plain object through its proxy: the
    write, and a call of [trigger] exactly when the value changes. *)
Lemma reactive_set_own_key n s p t props k v old :
  heap s !! p = Some (OProxy t) →
  heap s !! t = Some (OPlain props) →
  alist_get k props = Some old →
  exec (S (S n)) (CSet p k v) s =
  let s1 := store t (OPlain (alist_set k v props)) s in
  if changed v old
  then bind (trigger (exec (S n)) t k TSet) (λ _, ret (VBool true)) s1
  else Ok (VBool true) s1.
Proof.
  intros Hp Ht Hk. rewrite exec_CSet. unfold obj_set. norm. rewrite Hp.
  unfold reactiveHandlers_set. rewrite bind_unfold, exec_CGet. unfold obj_get. norm.
  rewrite Ht. norm. cbn [raw_get]. rewrite Hk. cbn [default from_option id].
  unfold is_array, has_own. rewrite Ht. norm.
  rewrite bool_decide_eq_true_2 by (cbn [own_keys]; eauto using alist_get_elem_of).
  rewrite bind_unfold, exec_CSet. unfold obj_set. norm. rewrite Ht. norm.
  cbn [negb]. fold (changed v old). destruct (changed v old); norm; reflexivity.
Qed.

(** What a plain [trigger(target, key, 'set')] replays: each member of the
    dependency set of (target, key) other than the running effect, once. *)
Lemma trigger_set_replays_each_once s t k effs comps :
  k ≠ klength →
  trigger_collect s t k TSet = Some (inr (effs, comps)) →
  NoDup (comps ++ effs) ∧
  ∀ e, e ∈ comps ++ effs ↔ e ∈ dep_of s t k ∧ activeEffect s ≠ Some e.
Proof.
  intros Hk H. split.
  { destruct (trigger_collect_sorted _ _ _ _ _ H) as (F1 & F2 & N1 & N2). cbn in *.
    apply NoDup_app. repeat split; auto. intros e H2 H1.
    rewrite Forall_forall in F1, F2. specialize (F1 e H1). specialize (F2 e H2).
    congruence. }
  unfold trigger_collect in H. unfold dep_of.
  destruct (targetMap s !! t) as [dm|]; [|done].
  rewrite (bool_decide_eq_false_2 (TSet = TAdd)) in H by done.
  rewrite (bool_decide_eq_false_2 (k = KStr "length")) in H by done.
  cbn [andb] in H. injection H as H.
  destruct (addEffects_spec s (default [] (alist_get k dm)) ([], [])) as (I1 & I2 & _).
  rewrite H in I1, I2. cbn [fst snd] in I1, I2.
  intros e. rewrite elem_of_app, I1, I2, !elem_of_nil.
  destruct (is_computed s e); intuition congruence.
Qed.

(** ** [cleanup] *)

Lemma elem_of_set_delete {A} `{EqDecision A} (x y : A) l :
  y ∈ set_delete x l ↔ y ∈ l ∧ y ≠ x.
Proof. unfold set_delete. by rewrite list_elem_of_filter, (comm and). Qed.

Lemma dep_of_dep_delete e s tk t k :
  dep_of (dep_delete e s tk) t k =
  if decide (tk = (t, k)) then set_delete e (dep_of s t k) else dep_of s t k.
Proof.
  unfold dep_delete, dep_of. destruct tk as [t' k']. cbn [fst snd].
  destruct (decide ((t', k') = (t, k))) as [[= -> ->]|Hne].
  - destruct (targetMap s !! t) as [dm|] eqn:Ht; [|by rewrite Ht].
    destruct (alist_get k dm) as [dep|] eqn:Hk; [|by rewrite Ht, Hk].
    cbn [targetMap set_targetMap]. by rewrite lookup_insert_eq, alist_get_set_eq.
  - destruct (targetMap s !! t') as [dm|] eqn:Ht; [|done].
    destruct (alist_get k' dm) as [dep|] eqn:Hk; [|done].
    cbn [targetMap set_targetMap].
    destruct (decide (t' = t)) as [->|].
    + rewrite lookup_insert_eq, Ht. rewrite alist_get_set_ne; [done|]. congruence.
    + by rewrite lookup_insert_ne.
Qed.

Lemma dep_of_foldl_dep_delete e l s t k :
  dep_of (foldl (dep_delete e) s l) t k =
  if bool_decide ((t, k) ∈ l) then set_delete e (dep_of s t k) else dep_of s t k.
Proof.
  revert s. induction l as [|tk l IH]; intros s; simpl; [done|].
  rewrite IH, dep_of_dep_delete.
  assert (Hidem : ∀ d : list nat, set_delete e (set_delete e d) = set_delete e d).
  { intros d. unfold set_delete. by apply list_filter_filter_l. }
  destruct (decide (tk = (t, k))) as [->|Hne].
  - rewrite (bool_decide_eq_true_2 ((t, k) ∈ (t, k) :: l)) by apply list_elem_of_here.
    case_bool_decide; [apply Hidem|done].
  - case_bool_decide as H1; case_bool_decide as H2; try done.
    + exfalso. apply H2. by apply list_elem_of_further.
    + exfalso. apply elem_of_cons in H2 as [?|?]; congruence.
Qed.

Lemma dep_of_cleanup e s t k :
  dep_of (cleanup e s) t k =
  match effects s !! e with
  | Some ef =>
      if bool_decide ((t, k) ∈ e_deps ef) then set_delete e (dep_of s t k)
      else dep_of s t k
  | None => dep_of s t k
  end.
Proof.
  unfold cleanup. destruct (effects s !! e) as [ef|]; [|done].
  rewrite <- dep_of_foldl_dep_delete. reflexivity.
Qed.

(** After [cleanup(e)] the effect is a member of no dependency set. *)
Lemma cleanup_clears e s t k : wf_deps s → e ∉ dep_of (cleanup e s) t k.
Proof.
  intros Hwf. rewrite dep_of_cleanup.
  destruct (effects s !! e) as [ef|] eqn:He.
  - case_bool_decide as Hin.
    + rewrite elem_of_set_delete. tauto.
    + intros H. destruct (Hwf e t k H) as (ef' & He' & Hd). congruence.
  - intros H. destruct (Hwf e t k H) as (ef' & He' & _). congruence.
Qed.

(** ** Well-formed registries *)

Lemma alist_set_keys {K V} `{EqDecision K} (k : K) (v : V) l :
  (alist_set k v l).*1 = if bool_decide (k ∈ l.*1) then l.*1 else l.*1 ++ [k].
Proof.
  induction l as [|[k' v'] l IH]; csimpl; [done|].
  destruct (decide (k = k')) as [->|Hne]; csimpl.
  - by rewrite bool_decide_eq_true_2 by apply list_elem_of_here.
  - rewrite IH. case_bool_decide as H1.
    + by rewrite bool_decide_eq_true_2 by by apply list_elem_of_further.
    + rewrite bool_decide_eq_false_2; [done|].
      intros [?|?]%elem_of_cons; congruence.
Qed.

Lemma alist_set_entries {K V} `{EqDecision K} (k k' : K) (v v' : V) l :
  (k', v') ∈ alist_set k v l → (k' = k ∧ v' = v) ∨ (k', v') ∈ l.
Proof.
  induction l as [|[k0 v0] l IH]; simpl.
  - intros [= -> ->]%list_elem_of_singleton. auto.
  - destruct (decide (k = k0)) as [->|Hne].
    + intros [[= -> ->]|H]%elem_of_cons; [auto|]. right. by apply list_elem_of_further.
    + intros [[= -> ->]|H]%elem_of_cons.
      * right. apply list_elem_of_here.
      * destruct (IH H) as [?|?]; [auto|]. right. by apply list_elem_of_further.
Qed.

Lemma alist_get_entry {K V} `{EqDecision K} (k : K) (v : V) l :
  alist_get k l = Some v → (k, v) ∈ l.
Proof.
  induction l as [|[k' v'] l IH]; simpl; [done|].
  destruct (decide (k = k')) as [->|].
  - intros [= ->]. apply list_elem_of_here.
  - intros H. by apply list_elem_of_further, IH.
Qed.

Lemma wf_depsMap_nil : wf_depsMap [].
Proof. split; [apply NoDup_nil_2|]. intros k dep H. by apply elem_of_nil in H. Qed.

Lemma wf_depsMap_set k dep dm :
  wf_depsMap dm → NoDup dep → wf_depsMap (alist_set k dep dm).
Proof.
  intros [Hk Hd] Hdep. split.
  - rewrite alist_set_keys. case_bool_decide as Hin; [done|].
    apply NoDup_app. repeat split; [done| |apply NoDup_singleton].
    intros x Hx ->%list_elem_of_singleton. done.
  - intros k' dep' [[-> ->]|H]%alist_set_entries; eauto.
Qed.

Lemma wf_depsMap_get k dep dm : wf_depsMap dm → alist_get k dm = Some dep → NoDup dep.
Proof. intros [_ Hd] H. eauto using alist_get_entry. Qed.

Lemma NoDup_set_delete (x : nat) l : NoDup l → NoDup (set_delete x l).
Proof. apply NoDup_filter. Qed.

(** [dep_of] at a key other than the tracked one. *)
Lemma dep_of_track_ne t k s t' k' :
  (t', k') ≠ (t, k) → dep_of (track t k s) t' k' = dep_of s t' k'.
Proof.
  intros Hne. unfold track, dep_of. cbn [activeEffect emit targetMap].
  destruct (activeEffect s) as [a|]; [|reflexivity].
  assert (E : ∀ d, match <[t := alist_set k d (default [] (targetMap s !! t))]>
                            (targetMap s) !! t' with
                   | Some dm => default [] (alist_get k' dm)
                   | None => []
                   end
                   = match targetMap s !! t' with
                     | Some dm => default [] (alist_get k' dm)
                     | None => []
                     end).
  { intros d. destruct (decide (t = t')) as [->|].
    - rewrite lookup_insert_eq. rewrite alist_get_set_ne by congruence.
      by destruct (targetMap s !! t').
    - by rewrite lookup_insert_ne. }
  destruct (set_has a _); cbn [targetMap set_targetMap set_effects]; apply E.
Qed.

(** The records of the effects after [track]: only the running effect's
    [deps] may have grown. *)
Lemma effects_track t k s e ef :
  effects s !! e = Some ef →
  ∃ ef', effects (track t k s) !! e = Some ef' ∧
         (∀ tk, tk ∈ e_deps ef → tk ∈ e_deps ef') ∧
         (activeEffect s = Some e → e ∉ dep_of s t k → (t, k) ∈ e_deps ef').
Proof.
  intros He. unfold track. cbn [activeEffect emit].
  destruct (activeEffect s) as [a|] eqn:Ha.
  - fold (dep_of s t k).
    assert (Hd : default [] (alist_get k (default [] (targetMap s !! t))) = dep_of s t k).
    { unfold dep_of. by destruct (targetMap s !! t). }
    cbn [targetMap emit]. rewrite Hd. unfold set_has.
    case_bool_decide as Hin; cbn [effects set_effects set_targetMap emit].
    + exists ef. split; [done|]. split; [auto|]. intros [= ->]. done.
    + destruct (decide (a = e)) as [->|Hne].
      * rewrite lookup_alter_eq, He. eexists. split; [reflexivity|].
        cbn [e_deps with_deps]. split.
        -- intros tk Htk. apply elem_of_set_add. auto.
        -- intros _ _. apply elem_of_set_add. auto.
      * rewrite lookup_alter_ne by done. exists ef. split; [done|]. split; [auto|].
        intros [= ->]. done.
  - exists ef. cbn [effects emit]. split; [done|]. split; [auto|]. intros [=].
Qed.

Lemma targetMap_track t k s t' dm :
  (∀ t dm, targetMap s !! t = Some dm → wf_depsMap dm) →
  targetMap (track t k s) !! t' = Some dm → wf_depsMap dm.
Proof.
  intros Hwf. unfold track. cbn [activeEffect emit].
  destruct (activeEffect s) as [a|]; [|apply Hwf].
  assert (Hdm : wf_depsMap (default [] (targetMap s !! t))).
  { destruct (targetMap s !! t) as [d|] eqn:E; simpl; [eauto|apply wf_depsMap_nil]. }
  assert (Hdep : NoDup (default [] (alist_get k (default [] (targetMap s !! t))))).
  { destruct (alist_get k _) as [d|] eqn:E; simpl; [|apply NoDup_nil_2].
    eauto using wf_depsMap_get. }
  cbn [targetMap emit].
  assert (H : ∀ d, NoDup d →
            <[t := alist_set k d (default [] (targetMap s !! t))]> (targetMap s) !! t'
            = Some dm → wf_depsMap dm).
  { intros d Hd. destruct (decide (t = t')) as [->|].
    - rewrite lookup_insert_eq. intros [= <-]. by apply wf_depsMap_set.
    - rewrite lookup_insert_ne by done. apply Hwf. }
  unfold set_has. case_bool_decide; cbn [targetMap set_targetMap set_effects]; apply H; auto.
  apply NoDup_app. repeat split; [done| |apply NoDup_singleton].
  intros x Hx ->%list_elem_of_singleton. done.
Qed.

Lemma wf_registry_emit ev s : wf_registry s → wf_registry (emit ev s).
Proof. done. Qed.

Lemma elem_of_last {A} (l : list A) x : last l = Some x → x ∈ l.
Proof.
  induction l as [|y [|z l] IH]; simpl; [done| |].
  - intros [= ->]. apply list_elem_of_here.
  - intros H. apply list_elem_of_further. by apply IH.
Qed.

Lemma wf_registry_track t k s : wf_registry s → wf_registry (track t k s).
Proof.
  intros (H1 & H2 & H3 & H4). split; [|split; [|split]].
  - intros e t' k' He.
    destruct (decide ((t', k') = (t, k))) as [[= -> ->]|Hne].
    + rewrite dep_of_track in He.
      destruct (activeEffect s) as [a|] eqn:Ha.
      * apply elem_of_set_add in He as [->|He].
        -- assert (is_Some (effects s !! a)) as [ef Hef].
           { apply H3, elem_of_last. by rewrite <- H4. }
           destruct (effects_track t k s a ef Hef) as (ef' & E1 & E2 & E3).
           exists ef'. split; [done|].
           destruct (decide (a ∈ dep_of s t k)) as [Hin|Hnin]; [|by apply E3].
           destruct (H1 a t k Hin) as (ef0 & Hef0 & Hd). apply E2. congruence.
        -- destruct (H1 e t k He) as (ef & Hef & Hd).
           destruct (effects_track t k s e ef Hef) as (ef' & E1 & E2 & _). eauto.
      * destruct (H1 e t k He) as (ef & Hef & Hd).
        destruct (effects_track t k s e ef Hef) as (ef' & E1 & E2 & _). eauto.
    + rewrite dep_of_track_ne in He by done.
      destruct (H1 e t' k' He) as (ef & Hef & Hd).
      destruct (effects_track t k s e ef Hef) as (ef' & E1 & E2 & _). eauto.
  - intros t' dm. by apply targetMap_track.
  - intros a Ha. rewrite effectStack_track in Ha. destruct (H3 a Ha) as [ef Hef].
    destruct (effects_track t k s a ef Hef) as (ef' & E1 & _). by eexists.
  - unfold wf_active. by rewrite activeEffect_track, effectStack_track.
Qed.

Lemma wf_depsMap_dep_delete e s tk :
  (∀ t dm, targetMap s !! t = Some dm → wf_depsMap dm) →
  ∀ t dm, targetMap (dep_delete e s tk) !! t = Some dm → wf_depsMap dm.
Proof.
  intros Hwf t dm. unfold dep_delete.
  destruct (targetMap s !! tk.1) as [dm0|] eqn:E0; [|apply Hwf].
  destruct (alist_get tk.2 dm0) as [dep|] eqn:E1; [|apply Hwf].
  cbn [targetMap set_targetMap]. destruct (decide (tk.1 = t)) as [<-|].
  - rewrite lookup_insert_eq. intros [= <-]. apply wf_depsMap_set; [eauto|].
    apply NoDup_set_delete. eapply wf_depsMap_get; eauto.
  - rewrite lookup_insert_ne by done. apply Hwf.
Qed.

Lemma wf_registry_cleanup e s : wf_registry s → wf_registry (cleanup e s).
Proof.
  intros (H1 & H2 & H3 & H4). split; [|split; [|split]].
  - intros e' t k He'.
    assert (e' ≠ e) as Hne by (intros ->; by apply (cleanup_clears e s t k H1)).
    assert (e' ∈ dep_of s t k) as Hin.
    { rewrite dep_of_cleanup in He'. destruct (effects s !! e); [|done].
      case_bool_decide; [|done]. by apply elem_of_set_delete in He' as [? _]. }
    destruct (H1 e' t k Hin) as (ef & Hef & Hd). exists ef.
    by rewrite effects_cleanup, lookup_alter_ne.
  - unfold cleanup. destruct (effects s !! e) as [ef|]; [|done].
    cbn [targetMap set_effects]. generalize (e_deps ef). intros l.
    clear H1 H3 H4. revert s H2. induction l as [|tk l IH]; intros s H2; simpl; [done|].
    apply IH. by apply wf_depsMap_dep_delete.
  - intros a Ha. rewrite effectStack_cleanup in Ha. destruct (H3 a Ha) as [ef Hef].
    rewrite effects_cleanup. destruct (decide (e = a)) as [->|].
    + rewrite lookup_alter_eq, Hef. by eexists.
    + rewrite lookup_alter_ne by done. by eexists.
  - unfold wf_active. by rewrite activeEffect_cleanup, effectStack_cleanup.
Qed.

Lemma wf_registry_init : wf_registry init.
Proof.
  split; [|split; [|split]]; try done.
  - intros e t k H. by apply elem_of_nil in H.
  - intros a H. by apply elem_of_nil in H.
Qed.

Lemma elem_of_removelast {A} (l : list A) x : x ∈ removelast l → x ∈ l.
Proof.
  induction l as [|y [|z l] IH]; simpl; [done| |].
  - intros H. by apply elem_of_nil in H.
  - intros [->|H]%elem_of_cons; [apply list_elem_of_here|].
    apply list_elem_of_further. by apply IH.
Qed.

(** Every call that returns keeps the registry well formed. *)
Theorem wf_registry_exec fuel c s v s' :
  wf_registry s → exec fuel c s = Ok v s' → wf_registry s'.
Proof.
  intros Hwf E. revert Hwf.
  apply (exec_relation (λ s s', wf_registry s → wf_registry s'))
    with (fuel := fuel) (c := c) (v := v); try done.
  - eauto using wf_registry_track.
  - eauto using wf_registry_cleanup.
  - (* effectFn: the pushed effect exists, and is popped again *)
    intros s0 e s1 s2 H01 [ef He] H12 H0.
    destruct (H01 H0) as (A1 & A2 & A3 & A4).
    destruct H12 as (B1 & B2 & B3 & B4).
    { split; [exact A1|]. split; [exact A2|]. split.
      - cbn [effectStack emit set_active effects].
        intros a [Ha| ->%list_elem_of_singleton]%elem_of_app; [auto|by eexists].
      - unfold wf_active. cbn [activeEffect effectStack emit set_active].
        by rewrite last_snoc. }
    split; [exact B1|]. split; [exact B2|]. split.
    + cbn [effectStack set_active effects]. intros a Ha%elem_of_removelast. auto.
    + reflexivity.
  - (* a new effect *)
    intros s0 ef s1 H01 H0. destruct (H01 H0) as (A1 & A2 & A3 & A4).
    assert (Hf : effects s1 !! fresh (dom (effects s1)) = None)
      by apply not_elem_of_dom, is_fresh.
    split; [|split; [exact A2|split; [|exact A4]]].
    + intros e t k He. destruct (A1 e t k He) as (ef' & Hef' & Hd).
      exists ef'. cbn [effects set_effects]. rewrite lookup_insert_ne; [done|].
      intros <-. congruence.
    + intros a Ha. cbn [effects set_effects]. destruct (A3 a Ha) as [ef' Hef'].
      rewrite lookup_insert_ne; [by eexists|]. intros <-. congruence.
  - (* stop: active = false *)
    intros s0 e s1 H01 H0. destruct (H01 H0) as (A1 & A2 & A3 & A4).
    split; [|split; [exact A2|split; [|exact A4]]].
    + intros e' t k He'. destruct (A1 e' t k He') as (ef' & Hef' & Hd).
      cbn [effects set_effects]. destruct (decide (e = e')) as [->|].
      * rewrite lookup_alter_eq, Hef'. eexists. split; [reflexivity|done].
      * rewrite lookup_alter_ne by done. eauto.
    + intros a Ha. cbn [effects set_effects]. destruct (A3 a Ha) as [ef' Hef'].
      destruct (decide (e = a)) as [->|].
      * rewrite lookup_alter_eq, Hef'. by eexists.
      * rewrite lookup_alter_ne by done. by eexists.
  - (* a read of a dirty computed *)
    intros s0 c0 v0 e st r s1 s2 _ H1 H2 H0. exact (H2 (H1 H0)).
Qed.

(** ** The array policy of [trigger]

    What C6 says does hold whenever the sweep over [depsMap] meets string
    keys only; one symbol key makes it throw. *)

Lemma addEffects_mono s dep acc e :
  e ∈ acc.2 ++ acc.1 → e ∈ (addEffects s dep acc).2 ++ (addEffects s dep acc).1.
Proof.
  destruct (addEffects_spec s dep acc) as (I1 & I2 & _).
  rewrite !elem_of_app, I1, I2. tauto.
Qed.

Lemma addEffects_covers s dep acc e :
  e ∈ dep → activeEffect s ≠ Some e →
  e ∈ (addEffects s dep acc).2 ++ (addEffects s dep acc).1.
Proof.
  intros Hin Ha. destruct (addEffects_spec s dep acc) as (I1 & I2 & _).
  rewrite !elem_of_app, I1, I2. destruct (is_computed s e); tauto.
Qed.

Lemma addEffects_members s dep acc e :
  e ∈ (addEffects s dep acc).2 ++ (addEffects s dep acc).1 →
  e ∈ acc.2 ++ acc.1 ∨ (e ∈ dep ∧ activeEffect s ≠ Some e).
Proof.
  destruct (addEffects_spec s dep acc) as (I1 & I2 & _).
  rewrite !elem_of_app, I1, I2. tauto.
Qed.

Lemma length_sweep_mono s len dm acc acc' e :
  length_sweep s len dm acc = Some acc' → e ∈ acc.2 ++ acc.1 → e ∈ acc'.2 ++ acc'.1.
Proof.
  revert acc. induction dm as [|[[str|] dep] dm IH]; intros acc H He; simpl in H.
  - by injection H as <-.
  - eapply IH; [exact H|]. destruct (num_ge _ _); auto using addEffects_mono.
  - done.
Qed.

(** The sweep collects every dependency set registered under a string key
    whose number is at or beyond the length. *)
Lemma length_sweep_covers s len dm acc acc' str dep e :
  length_sweep s len dm acc = Some acc' →
  (KStr str, dep) ∈ dm → num_ge (to_number str) (Num len) = true →
  e ∈ dep → activeEffect s ≠ Some e →
  e ∈ acc'.2 ++ acc'.1.
Proof.
  revert acc. induction dm as [|[[str0|] dep0] dm IH]; intros acc H Hin Hge He Ha;
    simpl in H.
  - by apply elem_of_nil in Hin.
  - apply elem_of_cons in Hin as [[= <- <-]|Hin].
    + rewrite Hge in H. eapply length_sweep_mono; [exact H|].
      by apply addEffects_covers.
    + eapply IH; eauto.
  - done.
Qed.

(** It collects nothing but members of the dependency sets it meets. *)
Lemma length_sweep_members s len dm acc acc' e :
  length_sweep s len dm acc = Some acc' → e ∈ acc'.2 ++ acc'.1 →
  e ∈ acc.2 ++ acc.1 ∨ ∃ k dep, (k, dep) ∈ dm ∧ e ∈ dep.
Proof.
  revert acc. induction dm as [|[[str0|] dep0] dm IH]; intros acc H He; simpl in H.
  - injection H as <-. auto.
  - destruct (IH _ H He) as [Hacc|(k & dep & Hin & Hd)].
    + destruct (num_ge _ _); [|auto].
      apply addEffects_members in Hacc as [?|[? _]]; [auto|].
      right. exists (KStr str0), dep0. split; [apply list_elem_of_here|done].
    + right. exists k, dep. split; [by apply list_elem_of_further|done].
  - done.
Qed.


(** An addition to an array also collects the dependents of [length]. *)
Lemma trigger_add_collects_length s t k effs comps e :
  is_array s t = true →
  trigger_collect s t k TAdd = Some (inr (effs, comps)) →
  e ∈ dep_of s t klength → activeEffect s ≠ Some e →
  e ∈ comps ++ effs.
Proof.
  intros Harr H He Ha. unfold trigger_collect in H. unfold dep_of in He.
  destruct (targetMap s !! t) as [dm|]; [|done].
  rewrite Harr, (bool_decide_eq_true_2 (TAdd = TAdd)) in H by done. cbn [andb] in H.
  set (acc1 := addEffects s (default [] (alist_get (KStr "length") dm)) _) in H.
  assert (H1 : e ∈ acc1.2 ++ acc1.1) by by apply addEffects_covers.
  rewrite andb_true_r in H. case_bool_decide.
  - destruct (length_sweep _ _ _ _) as [acc'|] eqn:E; [|done]. injection H as ->.
    by apply (length_sweep_mono _ _ _ _ _ _ E).
  - injection H as H. by rewrite H in H1.
Qed.

(** Setting [length] of an array also collects the dependents of every
    index at or beyond the new length. *)
Lemma trigger_length_collects_indices s t ty effs comps str e :
  is_array s t = true →
  trigger_collect s t klength ty = Some (inr (effs, comps)) →
  num_ge (to_number str) (Num (array_length s t)) = true →
  e ∈ dep_of s t (KStr str) → activeEffect s ≠ Some e →
  e ∈ comps ++ effs.
Proof.
  intros Harr H Hge He Ha. unfold trigger_collect in H. unfold dep_of in He.
  destruct (targetMap s !! t) as [dm|]; [|by apply elem_of_nil in He].
  rewrite Harr, andb_true_r in H.
  rewrite (bool_decide_eq_true_2 (klength = KStr "length")) in H by done.
  destruct (length_sweep _ _ _ _) as [acc'|] eqn:E; [|done]. injection H as ->.
  destruct (alist_get (KStr str) dm) as [dep|] eqn:Hget; [|by apply elem_of_nil in He].
  eapply (length_sweep_covers _ _ _ _ _ str dep e E); eauto using alist_get_entry.
Qed.


(** ** [stop]

    What C4 says of [stop] itself does hold: it takes an active effect out
    of every dependency set and marks it inactive.  The defect is that
    nothing looks at the mark afterwards. *)

(** [stop] on an active effect without an [onStop] hook. *)
Lemma stop_active rec e ef s :
  effects s !! e = Some ef → e_active ef = true → opt_onStop (e_options ef) = None →
  stop rec e s =
  Ok VUndef (set_effects (alter (with_active false) e (effects (cleanup e s))) (cleanup e s)).
Proof.
  intros He Ha Ho. unfold stop. norm. rewrite He, Ha, Ho. norm. reflexivity.
Qed.

(** [stop] on an active effect with an [onStop] hook: the hook is called
    after the effect has been taken out and marked. *)
Lemma stop_active_hook rec e ef f s :
  effects s !! e = Some ef → e_active ef = true → opt_onStop (e_options ef) = Some f →
  stop rec e s =
  bind (rec (CProg f)) (λ _, ret VUndef)
    (emit (EvOnStop e)
       (set_effects (alter (with_active false) e (effects (cleanup e s))) (cleanup e s))).
Proof.
  intros He Ha Ho. unfold stop. norm. rewrite He, Ha, Ho. norm. reflexivity.
Qed.

Lemma NoDup_keys_get {K V} `{EqDecision K} (k : K) (v : V) l :
  NoDup l.*1 → (k, v) ∈ l → alist_get k l = Some v.
Proof.
  induction l as [|[k' v'] l IH]; csimpl; intros Hnd Hin.
  - by apply elem_of_nil in Hin.
  - apply NoDup_cons in Hnd as [Hk' Hnd].
    apply elem_of_cons in Hin as [[= -> ->]|Hin].
    + by rewrite decide_True.
    + rewrite decide_False; [by apply IH|].
      intros ->. apply Hk'. apply list_elem_of_fmap. by exists (k', v).
Qed.

(** Right after [stop] has done its updates the effect is inactive, in no
    dependency set, and no [trigger] collects it. *)
Lemma stop_post e ef s :
  wf_registry s → effects s !! e = Some ef →
  let s' := set_effects (alter (with_active false) e (effects (cleanup e s))) (cleanup e s) in
  (e_active <$> effects s' !! e = Some false) ∧
  (∀ t k, e ∉ dep_of s' t k) ∧
  (∀ t k ty effs comps,
     trigger_collect s' t k ty = Some (inr (effs, comps)) → e ∉ comps ++ effs).
Proof.
  intros Hwf He s'.
  assert (Hd : ∀ t k, e ∉ dep_of s' t k).
  { intros t k. unfold s', dep_of. cbn [targetMap set_effects].
    apply cleanup_clears, Hwf. }
  split; [|split; [exact Hd|]].
  - unfold s'. cbn [effects set_effects]. rewrite effects_cleanup.
    by rewrite !lookup_alter_eq, He.
  - intros t k ty effs comps H. unfold trigger_collect in H.
    pose proof (Hd t k) as Hk. pose proof (Hd t klength) as Hl.
    assert (Hall : ∀ dm k' dep, targetMap s' !! t = Some dm → (k', dep) ∈ dm → e ∉ dep).
    { intros dm k' dep Hdm Hin. pose proof (Hd t k') as Hk'. unfold dep_of in Hk'.
      rewrite Hdm in Hk'.
      destruct (wf_registry_cleanup e s Hwf) as (_ & W & _).
      destruct (W t dm Hdm) as [Hnd _].
      by rewrite (NoDup_keys_get k' dep dm Hnd Hin) in Hk'. }
    unfold dep_of in Hk, Hl.
    destruct (targetMap s' !! t) as [dm|] eqn:Hdm; [|done].
    set (acc0 := addEffects s' (default [] (alist_get k dm)) ([], [])) in *.
    assert (H0 : e ∉ acc0.2 ++ acc0.1).
    { intros [?|[? _]]%addEffects_members; [|done].
      by apply elem_of_nil in H0. }
    set (acc1 := if bool_decide (ty = TAdd) && is_array s' t
                 then addEffects s' (default [] (alist_get (KStr "length") dm)) acc0
                 else acc0) in *.
    assert (H1 : e ∉ acc1.2 ++ acc1.1).
    { unfold acc1. destruct (_ && _); [|done].
      intros [?|[? _]]%addEffects_members; done. }
    destruct (bool_decide (k = KStr "length") && is_array s' t).
    + destruct (length_sweep _ _ _ _) as [acc'|] eqn:E; [|done]. injection H as ->.
      intros [?|(k' & dep & Hin & Hdep)]%(length_sweep_members _ _ _ _ _ _ E); [done|].
      by apply (Hall dm k' dep).
    + injection H as H. by rewrite H in H1.
Qed.

(** ** [watch] with [flush: 'sync'] *)

Lemma removelast_snoc {A} (l : list A) x : removelast (l ++ [x]) = l.
Proof. by rewrite removelast_last. Qed.

(** C7.  A watcher with [flush: 'sync'] whose getter reads the cell [x],
    with 1 as the old value it holds and as the value of the cell: the
    assignment [x.value = 9] triggers the watcher's effect, whose scheduler
    runs the job at once; the job re-runs the getter and calls the
    callback with (9, 1).  The assignment returns exactly when the callback
    returns, so the callback has been invoked before the statement after
    the assignment runs. *)
Theorem sync_watch_fires_inside_assignment n s x w e wr ef depsMap :
  heap s !! x = Some (ORef (int 1)) →
  watchers s !! w = Some wr →
  w_effect wr = e → w_flush wr = FlushSync → w_deep wr = false →
  w_cleanup wr = None → w_oldValue wr = int 1 →
  effects s !! e = Some ef →
  e_fn ef = GetProp (VObj x) kvalue Ret →
  opt_scheduler (e_options ef) = Some (SchedWatch w) →
  opt_computed (e_options ef) = false →
  targetMap s !! x = Some depsMap → alist_get kvalue depsMap = Some [e] →
  activeEffect s ≠ Some e →
  ∃ s_cb,
    log s_cb = log s ++ [EvTrigger x kvalue TSet; EvSched e; EvRun e;
                         EvTrack x kvalue; EvCallback w (int 9) (int 1)] ∧
    exec (5 + n) (CSet x kvalue (int 9)) s =
      match exec (3 + n) (CProg (w_callback wr w (int 9) (int 1))) s_cb with
      | Ok _ s2 => Ok (VBool true) (set_oldValue w (int 9) s2)
      | Err err s2 => Err err s2
      end.
Proof.
  intros Hx Hw He Hfl Hdeep Hcl Hold Hef Hfn Hsch Hcomp Htm Hdep Hact.
  eexists. split; cycle 1.
  - change (5 + n) with (S (S (S (S (S n))))). change (3 + n) with (S (S (S n))).
    rewrite exec_CSet. unfold obj_set. norm. rewrite Hx.
    unfold ref_set. rewrite bool_decide_eq_true_2 by reflexivity.
    change (strict_neq (int 9) (int 1)) with true. norm.
    rewrite bind_unfold, trigger_unfold. cbv zeta.
    assert (Hc : trigger_collect (store x (ORef (int 9)) s) x (KStr "value") TSet
                 = Some (inr ([e], []))).
    { rewrite (trigger_collect_set _ _ _ depsMap) by done.
      change (alist_get (KStr "value") depsMap) with (alist_get kvalue depsMap).
      rewrite Hdep. cbn [default from_option id].
      rewrite addEffects_single_plain; [done|done|].
      unfold is_computed. cbn [effects store set_heap]. by rewrite Hef, Hcomp. }
    rewrite Hc. rewrite exec_CReplay. unfold replay at 1. norm.
    rewrite exec_CReplay. unfold replay at 1. unfold replay_one. norm.
    cbn [effects emit store set_heap]. rewrite Hef, Hsch. norm.
    unfold watch_scheduler. norm. cbn [watchers emit store set_heap]. rewrite Hw, Hfl.
    unfold job. norm. cbn [watchers emit store set_heap]. rewrite Hw, Hcl. norm.
    rewrite He. rewrite bind_unfold. rewrite exec_CEffectFn. unfold effectFn_call. norm.
    cbn [effects emit store set_heap]. rewrite Hef. norm.
    rewrite Hfn. rewrite bind_unfold, exec_CProg. cbn [run_prog]. 
    rewrite bind_unfold, exec_CGet. unfold obj_get. norm.
    cbn [heap emit set_active]. rewrite heap_cleanup. cbn [heap emit store set_heap].
    rewrite lookup_insert_eq. unfold ref_get.
    rewrite bool_decide_eq_true_2 by reflexivity. norm.
    rewrite exec_CProg. cbn [run_prog]. norm.
    cbn [watchers set_active]. rewrite watchers_track. cbn [watchers emit set_active].
    rewrite watchers_cleanup. cbn [watchers emit store set_heap]. rewrite Hw. norm.
    rewrite Hdeep, Hold. change (strict_neq (int 9) (int 1)) with true. norm.
    cbn [orb is_object]. norm.
    match goal with |- context [bind (exec _ (CProg (w_callback _ _ _ _))) _ ?st] =>
      match goal with |- _ = match exec _ _ ?ev with _ => _ end => unify ev st end
    end.
    rewrite bind_unfold.
    match goal with |- context [exec ?f (CProg ?p) ?st] =>
      destruct (exec f (CProg p) st) as [r s2|err s2] end; [|reflexivity].
    norm. rewrite exec_CReplay. unfold replay. norm. reflexivity.
  - cbn [log emit set_active]. rewrite log_track. cbn [log emit set_active].
    rewrite log_cleanup. cbn [log emit store set_heap].
    rewrite <- !app_assoc. reflexivity.
Qed.


Lemma sync_watch_fires_inside_assignment_witness :
  heap sync_watch_setup !! 0 = Some (ORef (int 1)) ∧
  dep_of sync_watch_setup 0 kvalue = [0] ∧
  ∃ s', exec 6 (CSet 0 kvalue (int 9)) sync_watch_setup = Ok (VBool true) s' ∧
        log s' = log sync_watch_setup ++
                 [EvTrigger 0 kvalue TSet; EvSched 0; EvRun 0; EvTrack 0 kvalue;
                  EvCallback 0 (int 9) (int 1); EvLog (int 9); EvLog (int 1)].
Proof.
  split; [vm_compute; reflexivity|]. split; [vm_compute; reflexivity|].
  destruct (watchers sync_watch_setup !! 0) as [wr|] eqn:Hw; [|by vm_compute in Hw].
  destruct (effects sync_watch_setup !! 0) as [ef|] eqn:Hef; [|by vm_compute in Hef].
  destruct (targetMap sync_watch_setup !! 0) as [dm|] eqn:Hdm; [|by vm_compute in Hdm].
  destruct (sync_watch_fires_inside_assignment 1 sync_watch_setup 0 0 0 wr ef dm)
    as (scb & Hlog & Heq); try done.
  1-5: by (vm_compute in Hw; injection Hw as <-).
  1-3: by (vm_compute in Hef; injection Hef as <-).
  1: by (vm_compute in Hdm; injection Hdm as <-).
  change (5 + 1) with 6 in Heq. rewrite Heq.
  vm_compute in Hw. injection Hw as <-. cbn [w_callback].
  change (3 + 1) with 4.
  rewrite exec_CProg. cbn [run_prog]. norm.
  rewrite exec_CProg. cbn [run_prog]. norm.
  rewrite exec_CProg. cbn [run_prog]. norm.
  eexists. split; [reflexivity|].
  cbn [log set_oldValue set_watchers emit]. rewrite Hlog.
  rewrite <- !app_assoc. reflexivity.
Defined.

(** The scenario of the specification, as a whole script. *)
Example sync_watch_script_trace :
  trace (run 40 sync_watch_script)
  = [EvRun 0; EvTrack 0 kvalue;
     EvTrigger 0 kvalue TSet; EvSched 0; EvRun 0; EvTrack 0 kvalue;
     EvCallback 0 (int 9) (int 1); EvLog (int 9); EvLog (int 1);
     EvLog (VStr "next statement")].
Proof. vm_compute. reflexivity. Qed.
(** * Further properties of the engine *)

Ltac norm_in H := repeat (progress (cbv beta iota zeta in H; autorewrite with eng in H)).

(** ** [track] *)

Lemma set_targetMap_id s : set_targetMap (targetMap s) s = s.
Proof. by destruct s. Qed.

Lemma alist_set_id {K V} `{EqDecision K} (k : K) (v : V) l :
  alist_get k l = Some v → alist_set k v l = l.
Proof.
  induction l as [|[k' v'] l IH]; simpl; [done|].
  destruct (decide (k = k')) as [->|]; [by intros [= ->]|].
  intros H. by rewrite IH.
Qed.

(** What [track] does to the effects: the running effect gets the set
    added to its [deps] when it was not a member. *)
Lemma effects_track_eq t k s :
  effects (track t k s) =
  match activeEffect s with
  | Some a =>
      if bool_decide (a ∈ dep_of s t k) then effects s
      else alter (λ ef, with_deps (set_add (t, k) (e_deps ef)) ef) a (effects s)
  | None => effects s
  end.
Proof.
  unfold track, dep_of. cbn [activeEffect emit targetMap effects].
  destruct (activeEffect s) as [a|]; [|reflexivity].
  unfold set_has.
  destruct (targetMap s !! t) as [dm|]; cbn [default from_option id alist_get];
    case_bool_decide; reflexivity.
Qed.

(** A second [track] of the same key under the same effect only adds its
    line to the log. *)
Lemma track_again t k s e :
  activeEffect s = Some e → e ∈ dep_of s t k →
  track t k s = emit (EvTrack t k) s.
Proof.
  intros Ha He. unfold track. cbn [activeEffect emit targetMap]. rewrite Ha.
  unfold dep_of in He.
  destruct (targetMap s !! t) as [dm|] eqn:Ht; [|by apply elem_of_nil in He].
  destruct (alist_get k dm) as [dep|] eqn:Hk; [|by apply elem_of_nil in He].
  cbn [default from_option id] in *. rewrite Hk. cbn [default from_option id].
  unfold set_has. rewrite !bool_decide_eq_true_2 by done.
  rewrite (alist_set_id k dep dm Hk).
  fold (emit (EvTrack t k) s).
  replace (<[t:=dm]> (targetMap s)) with (targetMap (emit (EvTrack t k) s)).
  - apply set_targetMap_id.
  - symmetry. by apply insert_id.
Qed.

(** X1.  [track(target, key)] outside any effect registers nothing.  Under
    a running effect [e], in a consistent registry, it puts [e] into the
    dependency set of (target, key), once, and that set into [e.deps]; it
    touches no other dependency set and no member other than [e]; and a
    second call for the same key changes nothing more. *)
Theorem track_registers_once t k s :
  (activeEffect s = None → track t k s = emit (EvTrack t k) s) ∧
  (∀ e ef, wf_registry s → activeEffect s = Some e → effects s !! e = Some ef →
     let s1 := track t k s in
     e ∈ dep_of s1 t k ∧ NoDup (dep_of s1 t k) ∧
     (∀ e', e' ≠ e → e' ∈ dep_of s1 t k ↔ e' ∈ dep_of s t k) ∧
     (∀ t' k', (t', k') ≠ (t, k) → dep_of s1 t' k' = dep_of s t' k') ∧
     (∃ ef1, effects s1 !! e = Some ef1 ∧ (t, k) ∈ e_deps ef1 ∧
             e_fn ef1 = e_fn ef ∧ e_options ef1 = e_options ef ∧
             e_active ef1 = e_active ef) ∧
     (∀ e', e' ≠ e → effects s1 !! e' = effects s !! e') ∧
     track t k s1 = emit (EvTrack t k) s1).
Proof.
  split.
  { intros Ha. unfold track. cbn [activeEffect emit]. by rewrite Ha. }
  intros e ef Hwf Ha He s1.
  assert (Hwf1 : wf_registry s1) by by apply wf_registry_track.
  assert (Hin : e ∈ dep_of s1 t k) by by apply track_registers.
  split; [exact Hin|]. split; [|split; [|split; [|split; [|split]]]].
  - destruct Hwf1 as (_ & Hnd & _). unfold dep_of.
    destruct (targetMap s1 !! t) as [dm|] eqn:Ht; [|apply NoDup_nil_2].
    destruct (alist_get k dm) as [dep|] eqn:Hk; [|apply NoDup_nil_2].
    eapply wf_depsMap_get; eauto.
  - intros e' Hne. unfold s1. rewrite dep_of_track, Ha, elem_of_set_add.
    split; [by intros [?|?]|auto].
  - intros t' k' Hne. by apply dep_of_track_ne.
  - unfold s1. rewrite effects_track_eq, Ha. case_bool_decide as Hold.
    + exists ef. repeat split; try done.
      destruct Hwf as (Hd & _). destruct (Hd e t k Hold) as (ef' & He' & Hin').
      congruence.
    + rewrite lookup_alter_eq, He. eexists. split; [reflexivity|].
      cbn. repeat split; try done. apply elem_of_set_add. auto.
  - intros e' Hne. unfold s1. rewrite effects_track_eq, Ha.
    case_bool_decide; [done|]. by rewrite lookup_alter_ne.
  - apply (track_again t k s1 e); [|exact Hin].
    unfold s1. by rewrite activeEffect_track.
Qed.

Lemma wf_registry_run fuel p v s : run fuel p = Ok v s → wf_registry s.
Proof. intros E. eapply wf_registry_exec; [apply wf_registry_init|exact E]. Qed.

Lemma wf_registry_set_active ae st s :
  wf_registry s → (∀ a, a ∈ st → is_Some (effects s !! a)) → ae = last st →
  wf_registry (set_active ae st s).
Proof.
  intros (A1 & A2 & _ & _) H1 H2.
  split; [exact A1|split; [exact A2|split; [exact H1|exact H2]]].
Qed.

Lemma wf_counter_setup : wf_registry counter_setup.
Proof.
  unfold counter_setup.
  match goal with |- wf_registry (res_state ?r) => destruct r as [v s|] eqn:E end;
    [|by vm_compute in E].
  by apply wf_registry_run in E.
Qed.

Lemma wf_counter_running : wf_registry counter_running.
Proof.
  apply wf_registry_set_active; [apply wf_registry_cleanup, wf_counter_setup| |done].
  intros a ->%list_elem_of_singleton. vm_compute. by eexists.
Qed.

Lemma track_registers_once_witness :
  let s1 := track 0 kvalue counter_running in
  dep_of counter_running 0 kvalue = [] ∧
  dep_of s1 0 kvalue = [0] ∧
  track 0 kvalue s1 = emit (EvTrack 0 kvalue) s1.
Proof.
  intros s1.
  assert (He : ∃ ef, effects counter_running !! 0 = Some ef)
    by (vm_compute; by eexists).
  destruct He as [ef He].
  destruct (track_registers_once 0 kvalue counter_running) as [_ H].
  destruct (H 0 ef wf_counter_running eq_refl He) as (_ & _ & _ & _ & _ & _ & H1).
  split; [vm_compute; reflexivity|]. split; [vm_compute; reflexivity|]. exact H1.
Defined.

(** ** [cleanup] *)

(** X2.  [cleanup(e)] takes [e] out of every dependency set and empties
    [e.deps]; the other members of the sets, the other effects, the heap
    and the log are left as they were. *)
Theorem cleanup_removes_everywhere e ef s :
  wf_registry s → effects s !! e = Some ef →
  let s' := cleanup e s in
  (∀ t k, e ∉ dep_of s' t k) ∧
  effects s' !! e = Some (with_deps [] ef) ∧
  (∀ e' t k, e' ≠ e → e' ∈ dep_of s' t k ↔ e' ∈ dep_of s t k) ∧
  (∀ e', e' ≠ e → effects s' !! e' = effects s !! e') ∧
  heap s' = heap s ∧ log s' = log s ∧ wf_registry s'.
Proof.
  intros Hwf He s'. split; [|split; [|split; [|split; [|split; [|split]]]]].
  - intros t k. apply cleanup_clears, Hwf.
  - unfold s'. by rewrite effects_cleanup, lookup_alter_eq, He.
  - intros e' t k Hne. unfold s'. rewrite dep_of_cleanup, He.
    case_bool_decide; [|done]. rewrite elem_of_set_delete. tauto.
  - intros e' Hne. unfold s'. by rewrite effects_cleanup, lookup_alter_ne.
  - apply heap_cleanup.
  - apply log_cleanup.
  - by apply wf_registry_cleanup.
Qed.

Lemma cleanup_removes_everywhere_witness :
  dep_of counter_setup 0 kvalue = [0] ∧
  dep_of (cleanup 0 counter_setup) 0 kvalue = [] ∧
  ∀ t k, 0 ∉ dep_of (cleanup 0 counter_setup) t k.
Proof.
  assert (He : ∃ ef, effects counter_setup !! 0 = Some ef)
    by (vm_compute; by eexists).
  destruct He as [ef He].
  destruct (cleanup_removes_everywhere 0 ef counter_setup wf_counter_setup He)
    as (H & _).
  split; [vm_compute; reflexivity|]. split; [vm_compute; reflexivity|]. exact H.
Defined.

(** ** The effect runner *)

(** Whatever a call does, a computation that is a member of a dependency
    set when the call returns was a member before or [track] was called
    for that set in between. *)
Lemma deps_come_from_tracks fuel c s v s' :
  exec fuel c s = Ok v s' →
  ∃ l, log s' = log s ++ l ∧
    ∀ e t k, e ∈ dep_of s' t k → e ∈ dep_of s t k ∨ EvTrack t k ∈ l.
Proof.
  apply (exec_relation (λ s s', ∃ l, log s' = log s ++ l ∧
    ∀ e t k, e ∈ dep_of s' t k → e ∈ dep_of s t k ∨ EvTrack t k ∈ l));
    try (intros; assumption).
  - intros s1. exists []. split; [by rewrite app_nil_r|auto].
  - intros s0 ev s1 (l & Hl & H). exists (l ++ [ev]). cbn [log emit].
    split; [by rewrite Hl, app_assoc|].
    intros e t k He. destruct (H e t k He); [auto|right]. set_solver.
  - intros s0 t k s1 (l & Hl & H). exists (l ++ [EvTrack t k]).
    rewrite log_track. split; [by rewrite Hl, app_assoc|].
    intros e t' k' He. destruct (decide ((t', k') = (t, k))) as [[= -> ->]|Hne].
    + right. set_solver.
    + rewrite dep_of_track_ne in He by done.
      destruct (H e t' k' He); [auto|right]. set_solver.
  - intros s0 e s1 (l & Hl & H). exists l. rewrite log_cleanup. split; [done|].
    intros e' t k He'. apply H. rewrite dep_of_cleanup in He'.
    destruct (effects s1 !! e); [|done]. case_bool_decide; [|done].
    by apply elem_of_set_delete in He' as [? _].
  - (* effectFn *)
    intros s0 e s1 s2 (l & Hl & H) _ (l' & Hl' & H').
    exists (l ++ [EvRun e] ++ l'). cbn [log emit set_active] in *.
    split; [by rewrite Hl', Hl, <- !app_assoc|].
    intros e' t k He'. destruct (H' e' t k He') as [Hin|Hin].
    + destruct (H e' t k Hin); [auto|right]. set_solver.
    + right. set_solver.
  - (* dirty = true *)
    intros s0 c0 v0 e0 st0 s1 _ (l & Hl & H). exists (l ++ [EvDirty c0]).
    cbn [log store set_heap emit]. split; [by rewrite Hl, app_assoc|].
    intros e t k He. destruct (H e t k He); [auto|right]. set_solver.
  - (* a read of a dirty computed *)
    intros s0 c0 v0 e0 st0 r0 s1 s2 _ (l & Hl & H) (l' & Hl' & H').
    exists (l ++ l'). cbn [log set_heap].
    split; [by rewrite Hl', Hl, app_assoc|].
    intros e t k He. destruct (H' e t k He) as [Hin|Hin].
    + destruct (H e t k Hin); [auto|right]. set_solver.
    + right. set_solver.
Qed.

(** X3.  A run of an effect.  [effectFn()] first takes the effect out of
    every dependency set, then runs [fn] with the effect on top of the
    stack, so what the effect depends on afterwards is what this run read:
    every dependency set it is a member of was passed to [track] during
    the run.  When the run returns, [activeEffect] and [effectStack] are
    what they were before the call. *)
Theorem effect_run_recollects n e s r s' :
  wf_registry s → exec (S n) (CEffectFn e) s = Ok r s' →
  ∃ ef l s1,
    effects s !! e = Some ef ∧
    exec n (CProg (e_fn ef))
      (emit (EvRun e) (set_active (Some e) (effectStack s ++ [e]) (cleanup e s)))
    = Ok r s1 ∧
    s' = set_active (activeEffect s) (effectStack s) s1 ∧
    log s' = log s ++ EvRun e :: l ∧
    (∀ t k, e ∈ dep_of s' t k → EvTrack t k ∈ l).
Proof.
  intros Hwf E. rewrite exec_CEffectFn in E. unfold effectFn_call in E.
  rewrite bind_get_state in E.
  destruct (effects s !! e) as [ef|] eqn:He; [|done].
  norm_in E. rewrite bind_unfold, effectStack_cleanup in E.
  set (inner := emit (EvRun e) _) in E.
  destruct (exec n (CProg (e_fn ef)) inner) as [r1 s1|] eqn:Ein; [|done].
  norm_in E. injection E as <- <-.
  assert (Hwa : wf_active inner).
  { unfold wf_active, inner. cbn [activeEffect effectStack emit set_active].
    by rewrite last_snoc. }
  destruct (exec_active _ _ _ _ _ Hwa Ein) as (_ & Hst & _).
  destruct (deps_come_from_tracks _ _ _ _ _ Ein) as (l & Hl & Hd).
  exists ef, l, s1. split; [done|]. split; [exact Ein|].
  assert (Hpop : removelast (effectStack s1) = effectStack s).
  { rewrite Hst. unfold inner. cbn [effectStack emit set_active].
    by rewrite removelast_last. }
  split.
  { rewrite Hpop. f_equal. destruct Hwf as (_ & _ & _ & Ha). by rewrite Ha. }
  split.
  { cbn [log set_active]. rewrite Hl. unfold inner. cbn [log emit set_active].
    by rewrite log_cleanup, <- app_assoc. }
  intros t k Hin. change (e ∈ dep_of s1 t k) in Hin.
  destruct (Hd e t k Hin) as [Hold|]; [|done].
  exfalso. change (e ∈ dep_of (cleanup e s) t k) in Hold.
  revert Hold. apply cleanup_clears, Hwf.
Qed.

Lemma effect_run_recollects_witness :
  ∃ s' l,
    exec 6 (CEffectFn 0) counter_setup = Ok VUndef s' ∧
    log s' = log counter_setup ++ EvRun 0 :: l ∧
    (∀ t k, 0 ∈ dep_of s' t k → EvTrack t k ∈ l) ∧
    activeEffect s' = None.
Proof.
  destruct (exec 6 (CEffectFn 0) counter_setup) as [r s'|] eqn:E;
    [|by vm_compute in E].
  assert (r = VUndef) as -> by (vm_compute in E; by injection E as <-).
  destruct (effect_run_recollects 5 0 counter_setup VUndef s' wf_counter_setup E)
    as (ef & l & s1 & _ & _ & Hs & Hl & Hd).
  exists s', l. split; [done|]. split; [exact Hl|]. split; [exact Hd|].
  by rewrite Hs.
Defined.

(** ** [stop] *)

(** X4.  [stop(e)] on an active effect takes it out of every dependency
    set and marks it inactive before the [onStop] hook, if any, is called;
    in the state so reached no [trigger] collects [e].  [stop] on an
    inactive effect does nothing, so the hook is called at most once. *)
Theorem stop_detaches rec e ef s :
  wf_registry s → effects s !! e = Some ef → e_active ef = true →
  let s1 := set_effects (alter (with_active false) e (effects (cleanup e s)))
              (cleanup e s) in
  stop rec e s =
    match opt_onStop (e_options ef) with
    | None => Ok VUndef s1
    | Some f => bind (rec (CProg f)) (λ _, ret VUndef) (emit (EvOnStop e) s1)
    end ∧
  (e_active <$> effects s1 !! e = Some false) ∧
  (∀ t k, e ∉ dep_of s1 t k) ∧
  (∀ t k ty effs comps,
     trigger_collect s1 t k ty = Some (inr (effs, comps)) → e ∉ comps ++ effs) ∧
  stop rec e s1 = Ok VUndef s1.
Proof.
  intros Hwf He Ha s1.
  destruct (stop_post e ef s Hwf He) as (H1 & H2 & H3). fold s1 in H1, H2, H3.
  split; [|split; [exact H1|split; [exact H2|split; [exact H3|]]]].
  - destruct (opt_onStop (e_options ef)) as [f|] eqn:Hf.
    + by apply (stop_active_hook rec e ef f s).
    + by apply (stop_active rec e ef s).
  - unfold stop. rewrite bind_get_state.
    destruct (effects s1 !! e) as [ef1|] eqn:He1; [|done].
    cbn in H1. injection H1 as ->. reflexivity.
Qed.

Lemma stop_detaches_witness :
  ∃ s1, stop (exec 3) 0 counter_setup = Ok VUndef s1 ∧
        dep_of counter_setup 0 kvalue = [0] ∧
        (∀ t k, 0 ∉ dep_of s1 t k) ∧
        stop (exec 3) 0 s1 = Ok VUndef s1.
Proof.
  assert (He : ∃ ef, effects counter_setup !! 0 = Some ef ∧ e_active ef = true ∧
                     opt_onStop (e_options ef) = None)
    by (vm_compute; by eexists).
  destruct He as (ef & He & Ha & Hs).
  destruct (stop_detaches (exec 3) 0 ef counter_setup wf_counter_setup He Ha)
    as (H1 & _ & H2 & _ & H3).
  rewrite Hs in H1. eexists. split; [exact H1|].
  split; [vm_compute; reflexivity|]. split; [exact H2|exact H3].
Defined.
(** ** The registry over time *)

(** An effect, once created, stays: its function and options never
    change, and [active] is never set back to true. *)
Lemma effect_entry_exec e ef fuel c s v s' :
  effects s !! e = Some ef → exec fuel c s = Ok v s' →
  ∃ ef', effects s' !! e = Some ef' ∧ e_fn ef' = e_fn ef ∧
         e_options ef' = e_options ef ∧ (e_active ef = false → e_active ef' = false).
Proof.
  intros He E. revert ef He. revert E.
  apply (exec_relation (λ s s', ∀ ef, effects s !! e = Some ef →
    ∃ ef', effects s' !! e = Some ef' ∧ e_fn ef' = e_fn ef ∧
           e_options ef' = e_options ef ∧ (e_active ef = false → e_active ef' = false)));
    try (by intros; eauto).
  - intros s0 t k s1 H ef0 H0. destruct (H ef0 H0) as (ef1 & H1 & A & B & C).
    rewrite effects_track_eq. destruct (activeEffect s1) as [a|]; [|eauto].
    case_bool_decide; [eauto|]. destruct (decide (a = e)) as [->|].
    + rewrite lookup_alter_eq, H1. eexists. split; [reflexivity|]. auto.
    + rewrite lookup_alter_ne by done. eauto.
  - intros s0 a s1 H ef0 H0. destruct (H ef0 H0) as (ef1 & H1 & A & B & C).
    rewrite effects_cleanup. destruct (decide (a = e)) as [->|].
    + rewrite lookup_alter_eq, H1. eexists. split; [reflexivity|]. auto.
    + rewrite lookup_alter_ne by done. eauto.
  - intros s0 a s1 s2 H _ H' ef0 H0. destruct (H ef0 H0) as (ef1 & H1 & A & B & C).
    destruct (H' ef1 H1) as (ef2 & H2 & A' & B' & C').
    exists ef2. cbn [effects set_active]. repeat split; try congruence. auto.
  - intros s0 efn s1 H ef0 H0. destruct (H ef0 H0) as (ef1 & H1 & A & B & C).
    cbn [effects set_effects]. rewrite lookup_insert_ne; [eauto|].
    intros E. pose proof (is_fresh (dom (effects s1))) as Hf.
    rewrite E in Hf. apply Hf. apply elem_of_dom. by eexists.
  - intros s0 a s1 H ef0 H0. destruct (H ef0 H0) as (ef1 & H1 & A & B & C).
    cbn [effects set_effects]. destruct (decide (a = e)) as [->|].
    + rewrite lookup_alter_eq, H1. eexists. split; [reflexivity|]. auto.
    + rewrite lookup_alter_ne by done. eauto.
  - intros s0 c0 v0 e0 st r s1 s2 _ H H' ef0 H0.
    destruct (H ef0 H0) as (ef1 & H1 & A & B & C).
    destruct (H' ef1 H1) as (ef2 & H2 & A' & B' & C').
    exists ef2. cbn [effects set_heap]. repeat split; try congruence. auto.
Qed.

(** X5.  Every call that returns leaves the registry consistent: a member
    of a dependency set is an effect that has this set among its [deps],
    no map holds a key twice and no set a member twice, every entry of
    [effectStack] is an effect, and [activeEffect] is the top of the
    stack.  Effects are never removed, their function and options never
    change, and an effect that is inactive stays inactive. *)
Theorem registry_stays_consistent fuel c s v s' :
  wf_registry s → exec fuel c s = Ok v s' →
  wf_registry s' ∧
  (∀ e ef, effects s !! e = Some ef →
     ∃ ef', effects s' !! e = Some ef' ∧ e_fn ef' = e_fn ef ∧
            e_options ef' = e_options ef ∧
            (e_active ef = false → e_active ef' = false)) ∧
  activeEffect s' = activeEffect s ∧ effectStack s' = effectStack s.
Proof.
  intros Hwf E. split; [by eapply wf_registry_exec|]. split.
  - intros e ef He. by eapply effect_entry_exec.
  - destruct Hwf as (_ & _ & _ & Ha).
    destruct (exec_active _ _ _ _ _ Ha E) as (H1 & H2 & _). auto.
Qed.

Lemma registry_stays_consistent_witness :
  ∃ s', exec 6 (CSet 0 kvalue (int 2)) counter_setup = Ok (VBool true) s' ∧
        wf_registry s' ∧ activeEffect s' = None.
Proof.
  destruct (exec 6 (CSet 0 kvalue (int 2)) counter_setup) as [r s'|] eqn:E;
    [|by vm_compute in E].
  assert (r = VBool true) as -> by (vm_compute in E; by injection E as <-).
  destruct (registry_stays_consistent _ _ _ _ _ wf_counter_setup E) as (H1 & _ & H2 & _).
  exists s'. auto.
Defined.

(** ** What [trigger] collects *)

Lemma addEffects_members_iff s dep acc e :
  e ∈ (addEffects s dep acc).2 ++ (addEffects s dep acc).1 ↔
  e ∈ acc.2 ++ acc.1 ∨ (e ∈ dep ∧ activeEffect s ≠ Some e).
Proof.
  destruct (addEffects_spec s dep acc) as (I1 & I2 & _).
  rewrite !elem_of_app, I1, I2. destruct (is_computed s e); intuition congruence.
Qed.







(** ** [reactive], [isReactive], [toRaw] *)

Lemma proxy_get_isReactive n s p t :
  heap s !! p = Some (OProxy t) →
  exec (S n) (CGet p (KStr "__isReactive")) s = Ok (VBool true) s.
Proof. intros H. rewrite exec_CGet. unfold obj_get. norm. by rewrite H. Qed.

Lemma proxy_get_raw n s p t :
  heap s !! p = Some (OProxy t) →
  exec (S n) (CGet p (KStr "__raw")) s = Ok (VObj t) s.
Proof. intros H. rewrite exec_CGet. unfold obj_get. norm. by rewrite H. Qed.

(** X8.  [toRaw(reactive(t)) === t] and [isReactive(reactive(t))]: for an
    object without a truthy [__isReactive] property of its own,
    [reactive] returns a proxy, an object other than [t], without logging
    anything; [isReactive] is true of the proxy and false of [t],
    [toRaw] of the proxy gives back [t], and neither call tracks
    anything or changes the state. *)
Theorem reactive_toRaw_round_trip n s a o :
  wf_reactiveMap s → heap s !! a = Some o → truthy (reactive_marker o) = false →
  ∃ p s1,
    reactive (exec (S n)) (VObj a) s = Ok (VObj p) s1 ∧
    p ≠ a ∧ heap s1 !! p = Some (OProxy a) ∧ heap s1 !! a = Some o ∧
    log s1 = log s ∧ targetMap s1 = targetMap s ∧
    isReactive (exec (S n)) (VObj p) s1 = Ok true s1 ∧
    toRaw (exec (S n)) (VObj p) s1 = Ok (VObj a) s1 ∧
    isReactive (exec (S n)) (VObj a) s1 = Ok false s1.
Proof.
  intros Hwf Ha Hm. rewrite (reactive_unfold n s a o Ha), Hm.
  assert (Hraw : ∀ s1, heap s1 !! a = Some o →
            isReactive (exec (S n)) (VObj a) s1 = Ok false s1).
  { intros s1 H1. unfold isReactive, has_flag. rewrite bind_unfold.
    rewrite (exec_get_marker n s1 a o H1). cbn [ret].
    destruct (reactive_marker o) as [| |[]|[]| | |]; try done. }
  assert (Hprox : ∀ p s1, heap s1 !! p = Some (OProxy a) →
            isReactive (exec (S n)) (VObj p) s1 = Ok true s1 ∧
            toRaw (exec (S n)) (VObj p) s1 = Ok (VObj a) s1).
  { intros p s1 H1. unfold isReactive, has_flag, toRaw. rewrite !bind_unfold.
    by rewrite (proxy_get_isReactive n s1 p a H1), (proxy_get_raw n s1 p a H1). }
  destruct (reactiveMap s !! a) as [q|] eqn:Hr.
  - pose proof (Hwf a q Hr) as Hq. destruct (Hprox q s Hq) as [H1 H2].
    exists q, s. repeat split; auto.
    intros ->. rewrite Ha in Hq. by injection Hq as ->.
  - cbv zeta. set (q := fresh (dom (heap s))).
    set (s1 := set_reactiveMap _ (store q (OProxy a) s)).
    assert (Hqa : q ≠ a).
    { intros E. pose proof (fresh_heap_None s) as Hf. fold q in Hf.
      rewrite E, Ha in Hf. done. }
    assert (Hq : heap s1 !! q = Some (OProxy a)) by (simpl; by rewrite lookup_insert_eq).
    assert (Ha1 : heap s1 !! a = Some o) by (simpl; by rewrite lookup_insert_ne).
    destruct (Hprox q s1 Hq) as [H1 H2].
    exists q, s1. repeat split; auto.
Qed.

Lemma wf_reactiveMap_run fuel p v s : run fuel p = Ok v s → wf_reactiveMap s.
Proof. intros E. eapply wf_reactiveMap_exec; [apply wf_reactiveMap_init|exact E]. Qed.

Lemma wf_reactiveMap_nested_setup : wf_reactiveMap nested_setup.
Proof.
  unfold nested_setup.
  match goal with |- wf_reactiveMap (res_state ?r) => destruct r as [v s|] eqn:E end;
    [|by vm_compute in E].
  by apply wf_reactiveMap_run in E.
Qed.

Lemma reactive_toRaw_round_trip_witness :
  reactive (exec 1) (VObj 1) nested_setup = Ok (VObj 2) nested_setup ∧
  ∃ p s1, reactive (exec 1) (VObj 0) nested_setup = Ok (VObj p) s1 ∧
          toRaw (exec 1) (VObj p) s1 = Ok (VObj 0) s1 ∧
          isReactive (exec 1) (VObj p) s1 = Ok true s1.
Proof.
  split; [vm_compute; reflexivity|].
  destruct (reactive_toRaw_round_trip 0 nested_setup 0 (OPlain [(KStr "c", int 2)])
              wf_reactiveMap_nested_setup)
    as (p & s1 & H1 & _ & _ & _ & _ & _ & H2 & H3 & _);
    [vm_compute; reflexivity|reflexivity|].
  exists p, s1. auto.
Defined.

(** ** [ref], [isRef], [unref] *)

(** X9.  [unref(ref(v))] gives back [v], whatever [v] is, and counts as a
    read of the cell (it calls [track]); [isRef] is true of the cell and
    looks at nothing else.  On a value that is not an object [unref] is
    the identity and [isRef] is false.  On the proxy of a plain object
    without a truthy [__isRef], both go through the [get] handler: [isRef]
    is false, [unref] gives back the proxy, and each call counts as a
    read of the key [__isRef] of the target. *)
Theorem unref_ref_round_trip n v s :
  ∃ r s1,
    ref v s = Ok (VObj r) s1 ∧ heap s !! r = None ∧
    log s1 = log s ∧
    isRef (exec (S n)) (VObj r) s1 = Ok true s1 ∧
    unref (exec (S n)) (VObj r) s1 = Ok v (track r kvalue s1) ∧
    (∀ x s2, is_object x = false →
       unref (exec n) x s2 = Ok x s2 ∧ isRef (exec n) x s2 = Ok false s2) ∧
    (∀ p t props s2,
       heap s2 !! p = Some (OProxy t) → heap s2 !! t = Some (OPlain props) →
       truthy (raw_get (OPlain props) (KStr "__isRef")) = false →
       isRef (exec (S (S n))) (VObj p) s2 = Ok false (track t (KStr "__isRef") s2) ∧
       unref (exec (S (S n))) (VObj p) s2 = Ok (VObj p) (track t (KStr "__isRef") s2)).
Proof.
  exists (fresh (dom (heap s))), (store (fresh (dom (heap s))) (ORef v) s).
  set (r := fresh (dom (heap s))). set (s1 := store r (ORef v) s).
  assert (Hr : heap s1 !! r = Some (ORef v)) by (simpl; by rewrite lookup_insert_eq).
  assert (Hflag : exec (S n) (CGet r (KStr "__isRef")) s1 = Ok (VBool true) s1).
  { rewrite exec_CGet. unfold obj_get. norm. by rewrite Hr. }
  split; [reflexivity|]. split; [apply fresh_heap_None|]. split; [reflexivity|].
  split; [|split; [|split]].
  - unfold isRef, has_flag. by rewrite bind_unfold, Hflag.
  - unfold unref. rewrite bind_unfold, Hflag. cbn [truthy].
    by apply ref_value_get.
  - intros x s2 Hx. by destruct x.
  - intros p t props s2 Hp Ht Hm.
    assert (Hget : exec (S (S n)) (CGet p (KStr "__isRef")) s2
                   = Ok (raw_get (OPlain props) (KStr "__isRef"))
                        (track t (KStr "__isRef") s2)).
    { rewrite exec_CGet. unfold obj_get. norm. rewrite Hp.
      unfold reactiveHandlers_get. rewrite !bool_decide_eq_false_2 by done.
      rewrite bind_unfold, exec_CGet. unfold obj_get. norm. rewrite Ht. norm.
      destruct (raw_get (OPlain props) (KStr "__isRef")); try done. }
    unfold isRef, has_flag, unref. rewrite !bind_unfold, Hget, Hm. split; [|done].
    cbn [ret]. do 2 f_equal.
    destruct (raw_get (OPlain props) (KStr "__isRef")) as [| |[]|[]| | |]; done.
Qed.

(** ** Deleting a property *)

Lemma alist_del_absent {K V} `{EqDecision K} (k : K) (l : list (K * V)) :
  k ∉ l.*1 → alist_del k l = l.
Proof.
  induction l as [|[k' v'] l IH]; simpl; [done|]. intros Hn.
  apply not_elem_of_cons in Hn as [Hne Hn]. rewrite decide_False by done.
  by rewrite IH.
Qed.

Lemma alist_get_del_ne {K V} `{EqDecision K} (k k' : K) (l : list (K * V)) :
  k' ≠ k → alist_get k' (alist_del k l) = alist_get k' l.
Proof.
  intros Hne. induction l as [|[k0 v0] l IH]; simpl; [done|].
  destruct (decide (k = k0)) as [->|]; simpl.
  - by rewrite decide_False.
  - destruct (decide (k' = k0)); auto.
Qed.

Lemma alist_del_keys {K V} `{EqDecision K} (k : K) (l : list (K * V)) :
  NoDup l.*1 → k ∉ (alist_del k l).*1.
Proof.
  induction l as [|[k' v'] l IH]; csimpl; [intros _; apply not_elem_of_nil|].
  intros [Hk' Hnd]%NoDup_cons. destruct (decide (k = k')) as [->|Hne]; [done|].
  csimpl. apply not_elem_of_cons. auto.
Qed.

Lemma alist_get_absent {K V} `{EqDecision K} (k : K) (l : list (K * V)) :
  k ∉ l.*1 → alist_get k l = None.
Proof.
  induction l as [|[k' v'] l IH]; csimpl; [done|].
  intros [Hne Hn]%not_elem_of_cons. rewrite decide_False by done. auto.
Qed.

Lemma store_same a o s : heap s !! a = Some o → store a o s = s.
Proof.
  intros H. unfold store. rewrite insert_id by done. by destruct s.
Qed.

(** X10.  The [deleteProperty] handler on a plain object.  Deleting a key
    the object does not have changes nothing and notifies nobody.
    Deleting an own key removes it, leaves the other properties as they
    are, and calls [trigger(target, key, 'delete')]; the handler answers
    true in both cases. *)
Theorem delete_property_notifies n s t props k :
  heap s !! t = Some (OPlain props) → NoDup props.*1 →
  let s1 := store t (OPlain (alist_del k props)) s in
  reactiveHandlers_deleteProperty (exec n) t k s
  = (if has_own s t k
     then bind (trigger (exec n) t k TDelete) (λ _, ret (VBool true)) s1
     else Ok (VBool true) s) ∧
  has_own s1 t k = false ∧
  raw_get (OPlain (alist_del k props)) k = VUndef ∧
  (∀ k', k' ≠ k →
     raw_get (OPlain (alist_del k props)) k' = raw_get (OPlain props) k' ∧
     has_own s1 t k' = has_own s t k').
Proof.
  intros Ht Hnd s1.
  assert (Hown : ∀ k', has_own s t k' = bool_decide (k' ∈ props.*1)).
  { intros k'. unfold has_own. by rewrite Ht. }
  assert (Hown1 : ∀ k', has_own s1 t k' = bool_decide (k' ∈ (alist_del k props).*1)).
  { intros k'. unfold has_own, s1. cbn [heap store set_heap].
    by rewrite lookup_insert_eq. }
  split; [|split; [|split]].
  - unfold reactiveHandlers_deleteProperty. norm. rewrite Ht. norm.
    rewrite Hown. case_bool_decide as Hin; cbn [andb]; [by norm|].
    norm. f_equal. rewrite alist_del_absent by done. by apply store_same.
  - rewrite Hown1. apply bool_decide_eq_false_2. by apply alist_del_keys.
  - cbn [raw_get]. rewrite alist_get_absent; [done|]. by apply alist_del_keys.
  - intros k' Hne. split.
    + cbn [raw_get]. by rewrite alist_get_del_ne.
    + rewrite Hown, Hown1. apply bool_decide_ext.
      clear -Hne. induction props as [|[k0 v0] l IH]; csimpl; [done|].
      destruct (decide (k = k0)) as [->|]; csimpl.
      * rewrite elem_of_cons. split; [auto|intros [?|?]; [congruence|done]].
      * rewrite !elem_of_cons, IH. done.
Qed.

Lemma delete_property_notifies_witness :
  ∃ s', reactiveHandlers_deleteProperty (exec 3) 1 (KStr "a") nested_setup
        = Ok (VBool true) s' ∧
        log s' = [EvTrigger 1 (KStr "a") TDelete] ∧
        heap s' !! 1 = Some (OPlain [(KStr "b", VObj 0)]) ∧
        reactiveHandlers_deleteProperty (exec 3) 1 (KStr "a") s' = Ok (VBool true) s'.
Proof.
  assert (H : ∃ s', reactiveHandlers_deleteProperty (exec 3) 1 (KStr "a") nested_setup
                    = Ok (VBool true) s' ∧
                    log s' = [EvTrigger 1 (KStr "a") TDelete] ∧
                    heap s' !! 1 = Some (OPlain [(KStr "b", VObj 0)]))
    by (eexists; split; [vm_compute; reflexivity|split; vm_compute; reflexivity]).
  destruct H as (s' & H1 & H2 & H3). exists s'. do 3 (split; [done|]).
  destruct (delete_property_notifies 3 s' 1 [(KStr "b", VObj 0)] (KStr "a") H3)
    as (H4 & _).
  { apply NoDup_cons. split; [apply not_elem_of_nil|apply NoDup_nil_2]. }
  rewrite H4. unfold has_own. rewrite H3. reflexivity.
Defined.

(** ** Writing and reading through a proxy *)

Lemma replay_nil n s : exec (S n) (CReplay []) s = Ok VUndef s.
Proof. reflexivity. Qed.

(** A [trigger] that finds no dependent only logs its call. *)
Lemma trigger_no_dependents n s t k ty :
  is_array s t = false → dep_of s t k = [] →
  trigger (exec (S n)) t k ty s = Ok VUndef (emit (EvTrigger t k ty) s).
Proof.
  intros Harr Hdep. rewrite trigger_unfold. cbv zeta.
  unfold trigger_collect. unfold dep_of in Hdep.
  destruct (targetMap s !! t) as [dm|]; [|done].
  rewrite Hdep, Harr, !andb_false_r. cbn [addEffects foldl].
  by rewrite bind_unfold, !replay_nil.
Qed.

(** X11.  A write through a proxy lands in the raw object, and a read
    through the proxy or of the raw object gives the value back: for a
    key of a plain object that no computation has read and a value that
    is not an object, [p[k] = v] stores [v] in the target, runs no
    computation (at most it logs its call of [trigger]), and [p[k]] then
    evaluates to [v], counting as a read of (target, k), while [t[k]]
    evaluates to [v] with no tracking at all.  ([__proto__], an accessor
    inherited from [Object.prototype], is not a key in this sense.) *)
Theorem proxy_write_read_back n s p t props k v :
  heap s !! p = Some (OProxy t) → heap s !! t = Some (OPlain props) →
  dep_of s t k = [] → is_object v = false →
  k ≠ KStr "__isReactive" → k ≠ KStr "__raw" → k ≠ KStr "__proto__" →
  let s2 := store t (OPlain (alist_set k v props)) s in
  ∃ s1,
    exec (S (S n)) (CSet p k v) s = Ok (VBool true) s1 ∧
    (s1 = s2 ∨ ∃ ty, s1 = emit (EvTrigger t k ty) s2) ∧
    exec (S (S n)) (CGet p k) s1 = Ok v (track t k s1) ∧
    exec (S n) (CGet t k) s1 = Ok v s1.
Proof.
  intros Hp Ht Hdep Hv Hk1 Hk2 _ s2.
  assert (Hs2 : is_array s2 t = false ∧ dep_of s2 t k = []).
  { split; [|exact Hdep]. unfold is_array, s2. cbn [heap store set_heap].
    by rewrite lookup_insert_eq. }
  destruct Hs2 as [Harr2 Hdep2].
  assert (Hread : ∀ s1, heap s1 = heap s2 →
    exec (S (S n)) (CGet p k) s1 = Ok v (track t k s1) ∧
    exec (S n) (CGet t k) s1 = Ok v s1).
  { intros s1 Hh.
    assert (Ht1 : heap s1 !! t = Some (OPlain (alist_set k v props))).
    { rewrite Hh. unfold s2. cbn [heap store set_heap]. by rewrite lookup_insert_eq. }
    assert (Hp1 : heap s1 !! p = Some (OProxy t)).
    { rewrite Hh. unfold s2. cbn [heap store set_heap].
      rewrite lookup_insert_ne; [done|]. intros <-. congruence. }
    assert (Hraw : ∀ m, exec (S m) (CGet t k) s1 = Ok v s1).
    { intros m. rewrite exec_CGet. unfold obj_get. norm. rewrite Ht1. norm.
      cbn [raw_get]. by rewrite alist_get_set_eq. }
    split; [|apply Hraw].
    rewrite exec_CGet. unfold obj_get. norm. rewrite Hp1.
    unfold reactiveHandlers_get. rewrite !bool_decide_eq_false_2 by done.
    rewrite bind_unfold, Hraw. norm. by rewrite Hv. }
  assert (Hwrite : ∃ s1, exec (S (S n)) (CSet p k v) s = Ok (VBool true) s1 ∧
                         (s1 = s2 ∨ ∃ ty, s1 = emit (EvTrigger t k ty) s2)).
  { rewrite exec_CSet. unfold obj_set. norm. rewrite Hp.
    unfold reactiveHandlers_set. rewrite bind_unfold, exec_CGet. unfold obj_get. norm.
    rewrite Ht. norm. unfold is_array at 1. rewrite Ht. norm.
    rewrite bind_unfold, exec_CSet. unfold obj_set. norm. rewrite Ht. norm.
    fold s2. destruct (negb (has_own s t k)).
    - rewrite bind_unfold, trigger_no_dependents by done.
      eexists. split; [reflexivity|]. right. by exists TAdd.
    - destruct (_ && _).
      + rewrite bind_unfold, trigger_no_dependents by done.
        eexists. split; [reflexivity|]. right. by exists TSet.
      + eexists. split; [reflexivity|]. by left. }
  destruct Hwrite as (s1 & H & Hs1).
  exists s1. split; [exact H|]. split; [exact Hs1|].
  apply Hread. by destruct Hs1 as [->|[ty ->]].
Qed.

Lemma proxy_write_read_back_witness :
  ∃ s1, exec 3 (CSet 2 (KStr "z") (int 7)) nested_setup = Ok (VBool true) s1 ∧
        exec 3 (CGet 2 (KStr "z")) s1 = Ok (int 7) (track 1 (KStr "z") s1) ∧
        exec 2 (CGet 1 (KStr "z")) s1 = Ok (int 7) s1.
Proof.
  destruct (proxy_write_read_back 1 nested_setup 2 1
              [(KStr "a", int 1); (KStr "b", VObj 0)] (KStr "z") (int 7))
    as (s1 & H1 & _ & H2 & H3); try done.
  exists s1. auto.
Defined.

(** A read of a nested object through a proxy, by whether the nested
    object has a proxy already. *)
Lemma proxy_get_nested n s p t tprops k a props :
  heap s !! p = Some (OProxy t) → heap s !! t = Some (OPlain tprops) →
  alist_get k tprops = Some (VObj a) →
  k ≠ KStr "__isReactive" → k ≠ KStr "__raw" →
  heap s !! a = Some (OPlain props) →
  truthy (raw_get (OPlain props) (KStr "__isReactive")) = false →
  exec (S (S n)) (CGet p k) s =
  match reactiveMap s !! a with
  | Some q => Ok (VObj q) (track t k s)
  | None =>
      let q := fresh (dom (heap s)) in
      Ok (VObj q) (set_reactiveMap (<[a := q]> (reactiveMap s))
                     (store q (OProxy a) (track t k s)))
  end.
Proof.
  intros Hp Ht Hk Hk1 Hk2 Ha Hm.
  rewrite exec_CGet. unfold obj_get. norm. rewrite Hp.
  unfold reactiveHandlers_get. rewrite !bool_decide_eq_false_2 by done.
  rewrite bind_unfold, exec_CGet. unfold obj_get. norm. rewrite Ht. norm.
  cbn [raw_get]. rewrite Hk. cbn [default from_option id is_object].
  assert (Ha' : heap (track t k s) !! a = Some (OPlain props)) by by rewrite heap_track.
  rewrite (reactive_unfold n _ a _ Ha'). cbn [reactive_marker]. rewrite Hm.
  rewrite reactiveMap_track, heap_track. reflexivity.
Qed.

(** X12.  Reading a property that holds a plain object through a proxy
    twice gives the identical proxy both times ([p.b === p.b]), an object
    other than the nested one, and [toRaw] of it is the nested object. *)
Theorem nested_proxy_is_stable n s p t tprops k a props :
  wf_reactiveMap s →
  heap s !! p = Some (OProxy t) → heap s !! t = Some (OPlain tprops) →
  alist_get k tprops = Some (VObj a) →
  k ≠ KStr "__isReactive" → k ≠ KStr "__raw" →
  heap s !! a = Some (OPlain props) →
  truthy (raw_get (OPlain props) (KStr "__isReactive")) = false →
  ∃ q s1,
    exec (S (S n)) (CGet p k) s = Ok (VObj q) s1 ∧ q ≠ a ∧
    heap s1 !! q = Some (OProxy a) ∧
    exec (S (S n)) (CGet p k) s1 = Ok (VObj q) (track t k s1) ∧
    toRaw (exec (S n)) (VObj q) s1 = Ok (VObj a) s1.
Proof.
  intros Hwf Hp Ht Hk Hk1 Hk2 Ha Hm.
  rewrite (proxy_get_nested n s p t tprops k a props) by done.
  assert (Hgoal : ∀ q s1, heap s1 !! q = Some (OProxy a) → q ≠ a →
            reactiveMap s1 !! a = Some q →
            heap s1 !! p = Some (OProxy t) → heap s1 !! t = Some (OPlain tprops) →
            heap s1 !! a = Some (OPlain props) →
            q ≠ a ∧ heap s1 !! q = Some (OProxy a) ∧
            exec (S (S n)) (CGet p k) s1 = Ok (VObj q) (track t k s1) ∧
            toRaw (exec (S n)) (VObj q) s1 = Ok (VObj a) s1).
  { intros q s1 Hq Hne Hc Hp1 Ht1 Ha1. split; [done|]. split; [done|]. split.
    - rewrite (proxy_get_nested n s1 p t tprops k a props) by done. by rewrite Hc.
    - unfold toRaw. by rewrite bind_unfold, (proxy_get_raw n s1 q a Hq). }
  destruct (reactiveMap s !! a) as [q|] eqn:Hr.
  - exists q, (track t k s). split; [reflexivity|].
    pose proof (Hwf a q Hr) as Hq.
    apply Hgoal; rewrite ?heap_track, ?reactiveMap_track; auto. congruence.
  - cbv zeta. set (q := fresh (dom (heap s))).
    assert (Hf : heap s !! q = None) by apply fresh_heap_None.
    eexists q, _. split; [reflexivity|].
    apply Hgoal; cbn [heap reactiveMap set_reactiveMap store set_heap];
      rewrite ?heap_track, ?lookup_insert_eq; auto; try congruence.
    all: rewrite lookup_insert_ne; [done|congruence].
Qed.

Lemma nested_proxy_is_stable_witness :
  ∃ q s1, exec 3 (CGet 2 (KStr "b")) nested_setup = Ok (VObj q) s1 ∧
          exec 3 (CGet 2 (KStr "b")) s1 = Ok (VObj q) (track 1 (KStr "b") s1) ∧
          toRaw (exec 2) (VObj q) s1 = Ok (VObj 0) s1.
Proof.
  destruct (nested_proxy_is_stable 1 nested_setup 2 1
              [(KStr "a", int 1); (KStr "b", VObj 0)] (KStr "b") 0 [(KStr "c", int 2)]
              wf_reactiveMap_nested_setup)
    as (q & s1 & H1 & _ & _ & H2 & H3); try done.
  exists q, s1. auto.
Defined.

(** ** Writes to an array that throw *)


(** ** [computed]: creation and assignment *)


(** ** [computed]: invalidation *)


(** ** [watch] *)

Lemma job_fires_false deep nv ov :
  job_fires deep nv ov = false ↔
  deep = false ∧ nv = ov ∧ nv ≠ VNum NaN ∧ is_object nv = false.
Proof.
  unfold job_fires, strict_neq. rewrite !orb_false_iff, negb_false_iff, strict_eq_true.
  tauto.
Qed.

(** X16.  One run of a watcher's [job]: the cleanup function registered
    through [onCleanup], if any, is called first; then the getter is run
    again as an effect, and the callback is called with the new value and
    the old one, after which the new value becomes the old one.  The
    callback is skipped, and the old value kept, exactly when [deep] is
    off and the new value is the same primitive as the old one and is not
    NaN: a getter that returns NaN or an object fires on every run. *)
Theorem watch_job_rule n s w wr r0 s0 nv s1 wr1 :
  watchers s !! w = Some wr →
  match w_cleanup wr with
  | Some c => exec n (CProg c) (emit (EvCleanup w) s)
  | None => Ok VUndef s
  end = Ok r0 s0 →
  exec n (CEffectFn (w_effect wr)) s0 = Ok nv s1 →
  watchers s1 !! w = Some wr1 →
  let ov := w_oldValue wr1 in
  job (exec n) w s =
    (if job_fires (w_deep wr) nv ov
     then match exec n (CProg (w_callback wr w nv ov)) (emit (EvCallback w nv ov) s1) with
          | Ok _ s2 => Ok VUndef (set_oldValue w nv s2)
          | Err err s2 => Err err s2
          end
     else Ok VUndef s1) ∧
  (job_fires (w_deep wr) nv ov = false ↔
   w_deep wr = false ∧ nv = ov ∧ nv ≠ VNum NaN ∧ is_object nv = false).
Proof.
  intros Hw Hc He Hw1 ov. split; [|apply job_fires_false].
  unfold job. norm. rewrite Hw. rewrite bind_unfold.
  assert (Hc' : match w_cleanup wr with
                | Some c => bind (modify (emit (EvCleanup w))) (λ _, exec n (CProg c))
                | None => ret VUndef
                end s = Ok r0 s0).
  { destruct (w_cleanup wr); [|exact Hc]. by norm. }
  rewrite Hc'. rewrite bind_unfold, He. norm. rewrite Hw1.
  fold ov. fold (job_fires (w_deep wr) nv ov).
  destruct (job_fires (w_deep wr) nv ov); [|reflexivity].
  norm. rewrite bind_unfold.
  destruct (exec n (CProg (w_callback wr w nv ov)) _) as [r s2|]; reflexivity.
Qed.

Lemma watch_job_rule_witness :
  ∃ s1, exec 5 (CEffectFn 0) queued_watch_setup = Ok (int 1) s1 ∧
        job (exec 5) 0 queued_watch_setup = Ok VUndef s1 ∧
        log s1 = log queued_watch_setup ++ [EvRun 0; EvTrack 0 kvalue].
Proof.
  destruct (watchers queued_watch_setup !! 0) as [wr|] eqn:Hw; [|by vm_compute in Hw].
  destruct (exec 5 (CEffectFn 0) queued_watch_setup) as [nv s1|] eqn:E;
    [|by vm_compute in E].
  assert (nv = int 1) as -> by (vm_compute in E; by injection E as <-).
  assert (Hl : log s1 = log queued_watch_setup ++ [EvRun 0; EvTrack 0 kvalue])
    by (vm_compute in E; injection E as <-; vm_compute; reflexivity).
  destruct (watchers s1 !! 0) as [wr1|] eqn:Hw1;
    [|vm_compute in E; injection E as <-; by vm_compute in Hw1].
  assert (Hov : w_oldValue wr1 = int 1)
    by (vm_compute in E; injection E as <-; vm_compute in Hw1; by injection Hw1 as <-).
  assert (Hwr : w_cleanup wr = None ∧ w_effect wr = 0 ∧ w_deep wr = false)
    by (vm_compute in Hw; by injection Hw as <-).
  destruct Hwr as (Hcl & Heff & Hdeep).
  destruct (watch_job_rule 5 queued_watch_setup 0 wr VUndef queued_watch_setup
              (int 1) s1 wr1 Hw) as [Hjob _].
  - by rewrite Hcl.
  - by rewrite Heff.
  - exact Hw1.
  - rewrite Hjob, Hov, Hdeep. exists s1. auto.
Defined.

(** X17.  With the default or the ['post'] flush a write to the watched
    cell only queues the job: the assignment returns with the new value
    stored and one task added at the end of the microtask queue, and
    neither the getter nor the callback has run.  For ['post'] the queued
    task is the promise reaction, which queues the job in turn when it
    runs, one turn of the queue later. *)
Theorem watch_flush_defers n s x old v w wr e ef dm :
  heap s !! x = Some (ORef old) → strict_neq v old = true →
  watchers s !! w = Some wr → w_effect wr = e → w_flush wr ≠ FlushSync →
  effects s !! e = Some ef →
  opt_scheduler (e_options ef) = Some (SchedWatch w) →
  opt_computed (e_options ef) = false →
  targetMap s !! x = Some dm → alist_get kvalue dm = Some [e] →
  activeEffect s ≠ Some e →
  let s1 := emit (EvSched e) (emit (EvTrigger x kvalue TSet) (store x (ORef v) s)) in
  exec (S (S (S n))) (CSet x kvalue v) s
  = Ok (VBool true)
       (set_microtasks (microtasks s ++ [queued_task (w_flush wr) w]) s1) ∧
  ∀ fuel s2 q,
    microtasks s2 = TThenJob w :: q →
    drain 1 fuel s2 = Ok VUndef (set_microtasks (q ++ [TJob w]) s2).
Proof.
  intros Hx Hv Hw He Hfl Hef Hsch Hcomp Htm Hdep Hact s1. split.
  - rewrite exec_CSet. unfold obj_set. norm. rewrite Hx.
    unfold ref_set, kvalue. rewrite bool_decide_eq_true_2 by done.
    fold kvalue. rewrite Hv. norm. rewrite bind_unfold, trigger_unfold. cbv zeta.
    assert (Hcol : trigger_collect (store x (ORef v) s) x kvalue TSet
                   = Some (inr ([e], []))).
    { rewrite (trigger_collect_set _ _ _ dm) by done.
      rewrite Hdep. cbn [default from_option id].
      rewrite addEffects_single_plain; [done|done|].
      unfold is_computed. cbn [effects store set_heap]. by rewrite Hef, Hcomp. }
    rewrite Hcol. rewrite bind_unfold, replay_nil. rewrite exec_CReplay.
    unfold replay, replay_one. norm. cbn [effects emit store set_heap].
    rewrite Hef, Hsch. norm. unfold watch_scheduler. norm.
    cbn [watchers emit store set_heap]. rewrite Hw.
    destruct (w_flush wr); [done| |]; norm; by rewrite replay_nil.
  - intros fuel s2 q Hq. cbn [drain]. norm. rewrite Hq. norm. reflexivity.
Qed.

Lemma watch_flush_defers_witness :
  ∃ s', exec 4 (CSet 0 kvalue (int 9)) queued_watch_setup = Ok (VBool true) s' ∧
        microtasks s' = [TJob 0] ∧
        log s' = log queued_watch_setup ++ [EvTrigger 0 kvalue TSet; EvSched 0].
Proof.
  destruct (watchers queued_watch_setup !! 0) as [wr|] eqn:Hw; [|by vm_compute in Hw].
  destruct (effects queued_watch_setup !! 0) as [ef|] eqn:Hef; [|by vm_compute in Hef].
  assert (Hwr : w_effect wr = 0 ∧ w_flush wr = FlushDefault)
    by (vm_compute in Hw; by injection Hw as <-).
  destruct Hwr as [He Hfl].
  assert (Hopt : opt_scheduler (e_options ef) = Some (SchedWatch 0) ∧
                 opt_computed (e_options ef) = false)
    by (vm_compute in Hef; by injection Hef as <-).
  destruct Hopt as [Hsch Hcomp].
  destruct (watch_flush_defers 1 queued_watch_setup 0 (int 1) (int 9) 0 wr 0 ef
              [(kvalue, [0])]) as [H _]; try done.
  { by rewrite Hfl. }
  eexists. split; [exact H|]. rewrite Hfl. split; reflexivity.
Defined.




(** ** Identities *)

Lemma heap_kind_exec a o fuel c s v s' :
  heap s !! a = Some o → exec fuel c s = Ok v s' →
  ∃ o', heap s' !! a = Some o' ∧ same_kind o o'.
Proof.
  intros Ha. apply (exec_preserves (λ s, ∃ o', heap s !! a = Some o' ∧ same_kind o o'));
    try done.
  - intros t k s0 H. by rewrite heap_track.
  - intros e s0 H. by rewrite heap_cleanup.
  - intros o0 s0 (o' & H & Hs). exists o'. split; [|done]. cbn [heap store set_heap].
    rewrite lookup_insert_ne; [done|]. intros E.
    pose proof (fresh_heap_None s0) as Hf. rewrite E, H in Hf. done.
  - intros a0 o0 o0' s0 H0 Hs0 (o' & H & Hs). cbn [heap store set_heap].
    destruct (decide (a0 = a)) as [->|]; [|rewrite lookup_insert_ne by done; eauto].
    rewrite lookup_insert_eq. eexists. split; [reflexivity|].
    rewrite H0 in H. injection H as ->. by eapply same_kind_trans.
  - exists o. split; [done|apply same_kind_refl].
Qed.

(** X19.  Identities are stable.  No call removes an object or changes
    what it is: a plain object stays one, an array an array, a cell a
    cell, a proxy a proxy of the same target, a computed the computed of
    the same effect and setter.  The cache of [reactive] never forgets or
    replaces an entry, and each entry is the proxy of the object it is
    filed under; so [reactive(t)] keeps answering with the same proxy. *)
Theorem identities_are_stable fuel c s v s' :
  wf_reactiveMap s → exec fuel c s = Ok v s' →
  wf_reactiveMap s' ∧
  (∀ a o, heap s !! a = Some o → ∃ o', heap s' !! a = Some o' ∧ same_kind o o') ∧
  (∀ a q, reactiveMap s !! a = Some q →
     reactiveMap s' !! a = Some q ∧ heap s' !! q = Some (OProxy a) ∧
     ∀ n o, heap s' !! a = Some o → truthy (reactive_marker o) = false →
       reactive (exec (S n)) (VObj a) s' = Ok (VObj q) s').
Proof.
  intros Hwf E.
  assert (Hwf' : wf_reactiveMap s') by by eapply wf_reactiveMap_exec.
  split; [exact Hwf'|]. split.
  - intros a o Ha. by eapply heap_kind_exec.
  - intros a q Hq.
    assert (Hq' : reactiveMap s' !! a = Some q) by by eapply reactiveMap_entry_exec.
    split; [exact Hq'|]. split; [by apply Hwf'|].
    intros n o Ho Hm. by rewrite (reactive_unfold n s' a o Ho), Hm, Hq'.
Qed.

Lemma identities_are_stable_witness :
  reactiveMap nested_setup !! 1 = Some 2 ∧
  ∃ s', exec 3 (CSet 2 (KStr "a") (int 5)) nested_setup = Ok (VBool true) s' ∧
        reactiveMap s' !! 1 = Some 2 ∧ heap s' !! 2 = Some (OProxy 1).
Proof.
  assert (Hq : reactiveMap nested_setup !! 1 = Some 2) by (vm_compute; reflexivity).
  split; [exact Hq|].
  destruct (exec 3 (CSet 2 (KStr "a") (int 5)) nested_setup) as [r s'|] eqn:E;
    [|by vm_compute in E].
  assert (r = VBool true) as -> by (vm_compute in E; by injection E as <-).
  destruct (identities_are_stable _ _ _ _ _ wf_reactiveMap_nested_setup E)
    as (_ & _ & H).
  destruct (H 1 2 Hq) as (H1 & H2 & _). exists s'. auto.
Defined.
(** ** The [set] handler on plain objects *)

(** X20.  Writing an own property of a plain object through its proxy
    stores the value and calls [trigger(target, key, 'set')] exactly when
    the value changes, NaN counting as equal to itself; writing a key the
    object does not have stores the value and calls
    [trigger(target, key, 'add')], whatever the value.  ([__proto__], an
    accessor inherited from [Object.prototype], is left out.) *)
Theorem plain_set_triggers_when_changed n s p t props k v :
  heap s !! p = Some (OProxy t) → heap s !! t = Some (OPlain props) →
  k ≠ KStr "__proto__" →
  let s1 := store t (OPlain (alist_set k v props)) s in
  exec (S (S n)) (CSet p k v) s =
    match alist_get k props with
    | Some old =>
        if changed v old
        then bind (trigger (exec (S n)) t k TSet) (λ _, ret (VBool true)) s1
        else Ok (VBool true) s1
    | None => bind (trigger (exec (S n)) t k TAdd) (λ _, ret (VBool true)) s1
    end ∧
  (∀ old, changed v old = false ↔ v = old).
Proof.
  intros Hp Ht _ s1. split; [|intros old; apply changed_false].
  destruct (alist_get k props) as [old|] eqn:Hk.
  - by apply (reactive_set_own_key n s p t props k v old).
  - rewrite exec_CSet. unfold obj_set. norm. rewrite Hp.
    unfold reactiveHandlers_set. rewrite bind_unfold, exec_CGet. unfold obj_get. norm.
    rewrite Ht. norm. unfold is_array, has_own. rewrite Ht. norm.
    rewrite bool_decide_eq_false_2; cycle 1.
    { cbn [own_keys]. intros Hin. apply list_elem_of_fmap in Hin as ([k' v'] & -> & Hin).
      assert (is_Some (alist_get k' props)) as [? ?]; [|simpl in *; congruence].
      clear -Hin. induction props as [|[k0 v0] l IH]; [by apply elem_of_nil in Hin|].
      simpl. destruct (decide (k' = k0)); [by eexists|].
      apply elem_of_cons in Hin as [[= -> ->]|Hin]; [done|auto]. }
    rewrite bind_unfold, exec_CSet. unfold obj_set. norm. rewrite Ht. norm.
    reflexivity.
Qed.

Lemma plain_set_triggers_when_changed_witness :
  exec 3 (CSet 2 (KStr "a") (int 1)) nested_setup
  = Ok (VBool true) (store 1 (OPlain [(KStr "a", int 1); (KStr "b", VObj 0)]) nested_setup).
Proof.
  destruct (plain_set_triggers_when_changed 1 nested_setup 2 1
              [(KStr "a", int 1); (KStr "b", VObj 0)] (KStr "a") (int 1))
    as [H _]; [done|done|done|].
  exact H.
Defined.

(** ** Effects with a scheduler *)

(** X21.  An effect created with a [scheduler] is never re-run by
    [trigger]: a write to a cell whose only dependent it is stores the
    value and calls the scheduler with the effect as its argument; the
    effect's own function runs only if the scheduler calls it. *)
Theorem scheduler_replaces_rerun n s x old v e ef f dm :
  heap s !! x = Some (ORef old) → strict_neq v old = true →
  targetMap s !! x = Some dm → alist_get kvalue dm = Some [e] →
  effects s !! e = Some ef →
  opt_scheduler (e_options ef) = Some (SchedUser f) →
  activeEffect s ≠ Some e →
  let s1 := emit (EvSched e) (emit (EvTrigger x kvalue TSet) (store x (ORef v) s)) in
  exec (S (S (S n))) (CSet x kvalue v) s =
  match exec (S n) (CProg (f e)) s1 with
  | Ok _ s2 => Ok (VBool true) s2
  | Err err s2 => Err err s2
  end.
Proof.
  intros Hx Hv Ht Hdep He Hsch Hact s1.
  rewrite exec_CSet. unfold obj_set. norm. rewrite Hx.
  unfold ref_set, kvalue. rewrite bool_decide_eq_true_2 by done.
  fold kvalue. rewrite Hv. norm. rewrite bind_unfold, trigger_unfold. cbv zeta.
  assert (Hcol : trigger_collect (store x (ORef v) s) x kvalue TSet
                 = Some (inr (if opt_computed (e_options ef) then ([], [e])
                              else ([e], [])))).
  { rewrite (trigger_collect_set _ _ _ dm) by done.
    rewrite Hdep. cbn [default from_option id addEffects foldl].
    rewrite bool_decide_eq_false_2 by done.
    unfold is_computed. cbn [effects store set_heap]. rewrite He.
    by destruct (opt_computed (e_options ef)). }
  rewrite Hcol.
  assert (Hrun : ∀ st, effects st = effects s →
    exec (S (S n)) (CReplay [e]) st
    = match exec (S n) (CProg (f e)) (emit (EvSched e) st) with
      | Ok _ s2 => Ok VUndef s2
      | Err err s2 => Err err s2
      end).
  { intros st Hst. rewrite exec_CReplay. unfold replay, replay_one. norm.
    rewrite Hst, He, Hsch. norm. rewrite bind_unfold.
    destruct (exec (S n) (CProg (f e)) _) as [r s2|]; [|reflexivity].
    by rewrite replay_nil. }
  destruct (opt_computed (e_options ef)).
  - rewrite bind_unfold, Hrun by done. fold s1.
    destruct (exec (S n) (CProg (f e)) s1) as [r s2|]; [|reflexivity].
    by rewrite replay_nil.
  - rewrite bind_unfold, replay_nil, Hrun by done. fold s1.
    by destruct (exec (S n) (CProg (f e)) s1) as [r s2|].
Qed.

Lemma scheduler_replaces_rerun_witness :
  ∃ s', exec 4 (CSet 0 kvalue (int 2)) scheduled_setup = Ok (VBool true) s' ∧
        log s' = log scheduled_setup ++
                 [EvTrigger 0 kvalue TSet; EvSched 0; EvLog (VStr "scheduled")].
Proof.
  destruct (effects scheduled_setup !! 0) as [ef|] eqn:Hef; [|by vm_compute in Hef].
  assert (Hsch : opt_scheduler (e_options ef)
                 = Some (SchedUser (λ _, Log (VStr "scheduled") (Ret VUndef))))
    by (vm_compute in Hef; by injection Hef as <-).
  pose proof (scheduler_replaces_rerun 1 scheduled_setup 0 (int 1) (int 2) 0 ef _
                [(kvalue, [0])] eq_refl eq_refl eq_refl eq_refl Hef Hsch) as H.
  cbv zeta in H. rewrite H by done.
  rewrite exec_CProg. cbn [run_prog]. norm. rewrite exec_CProg. cbn [run_prog]. norm.
  eexists. split; [reflexivity|]. cbn [log emit store set_heap].
  by rewrite <- !app_assoc.
Defined.

(** ** Enumeration *)



(** ** Creating a watcher *)

(** X23.  [watch(getter, callback, options)] creates a lazy effect for the
    getter, with a scheduler of its own, and the watcher around it.
    Without [immediate] it runs the getter once, as that effect, keeps
    what it returned as the old value, and does not call the callback;
    with [immediate] it runs [job] at once, with [undefined] as the old
    value.  A cell given as the source is watched through the getter
    [() => source.value], and a source that is not an object through
    [() => source]. *)
Theorem watch_creation n f cb immediate deep fl s :
  let e := fresh (dom (effects s)) in
  let w := fresh (dom (watchers s)) in
  let s0 :=
    set_watchers
      (<[w := {| w_effect := e; w_oldValue := VUndef; w_cleanup := None;
                 w_callback := cb; w_deep := deep; w_flush := fl |}]> (watchers s))
      (set_effects
         (<[e := {| e_fn := f; e_deps := [];
                    e_options := {| opt_lazy := true; opt_computed := false;
                                    opt_scheduler := Some (SchedWatch w);
                                    opt_onStop := None |};
                    e_active := true |}]> (effects s)) s) in
  watch (exec n) (inl f) cb immediate deep fl s =
    (if immediate
     then match job (exec n) w s0 with
          | Ok _ s1 => Ok w s1
          | Err err s1 => Err err s1
          end
     else match exec n (CEffectFn e) s0 with
          | Ok v s1 => Ok w (set_oldValue w v s1)
          | Err err s1 => Err err s1
          end) ∧
  log s0 = log s ∧
  (∀ r v0, heap s !! r = Some (ORef v0) →
     watch (exec (S n)) (inr (VObj r)) cb immediate deep fl s
     = watch (exec (S n)) (inl (GetProp (VObj r) kvalue Ret)) cb immediate deep fl s) ∧
  (∀ v, is_object v = false → (∀ g, v ≠ VFun g) →
     watch (exec n) (inr v) cb immediate deep fl s
     = watch (exec n) (inl (Ret v)) cb immediate deep fl s).
Proof.
  intros e w s0. split; [|split; [reflexivity|split]].
  - unfold watch. cbn [watch_getter]. norm. unfold effect. norm. cbn [opt_lazy]. norm.
    cbn [watchers set_effects]. fold e w s0.
    destruct immediate.
    + rewrite bind_unfold. by destruct (job (exec n) w s0).
    + norm. rewrite bind_unfold. destruct (exec n (CEffectFn e) s0); by norm.
  - intros r v0 Hr.
    assert (Hflag : exec (S n) (CGet r (KStr "__isRef")) s = Ok (VBool true) s).
    { rewrite exec_CGet. unfold obj_get. norm. by rewrite Hr. }
    assert (Hg : watch_getter (exec (S n)) (inr (VObj r)) s
                 = Ok (GetProp (VObj r) kvalue Ret) s).
    { cbn [watch_getter]. unfold has_flag. by rewrite !bind_unfold, Hflag. }
    unfold watch. by rewrite !(bind_unfold (watch_getter _ _)), Hg.
  - intros v Hv Hf.
    assert (Hg : watch_getter (exec n) (inr v) s = Ok (Ret v) s).
    { destruct v; try done. by destruct (Hf f0). }
    unfold watch. by rewrite !(bind_unfold (watch_getter _ _)), Hg.
Qed.
(** ** The [set] handler on arrays and the setter of [ref] *)



(** X25.  The setter of a cell compares with a plain [!==].  Assigning a
    value strictly equal to the stored one changes nothing at all;
    assigning any other value, and NaN in every case, stores the value
    and calls [trigger(cell, 'value')]. *)
Theorem ref_set_rule n s r old v :
  heap s !! r = Some (ORef old) →
  exec (S n) (CSet r kvalue v) s =
    (if strict_neq v old
     then bind (trigger (exec n) r kvalue TSet) (λ _, ret (VBool true))
            (store r (ORef v) s)
     else Ok (VBool true) s) ∧
  (strict_neq v old = false ↔ v = old ∧ v ≠ VNum NaN).
Proof.
  intros Hr. split.
  - rewrite exec_CSet. unfold obj_set. norm. rewrite Hr.
    unfold ref_set, kvalue. rewrite bool_decide_eq_true_2 by done.
    destruct (strict_neq v old); norm; reflexivity.
  - unfold strict_neq. rewrite negb_false_iff. apply strict_eq_true.
Qed.

Lemma ref_set_rule_witness :
  exec 3 (CSet 0 kvalue (int 1)) counter_setup = Ok (VBool true) counter_setup.
Proof.
  destruct (ref_set_rule 2 counter_setup 0 (int 1) (int 1) eq_refl) as [H _].
  exact H.
Defined.

(** ** A computation that writes what it reads *)

(** X27.  [trigger] leaves out the running effect: a computation that
    assigns a new value to a cell it has read, and is the only dependent
    of that cell, stores the value and is not run again by its own
    write. *)
Theorem self_write_does_not_retrigger n s x old v e dm :
  heap s !! x = Some (ORef old) → strict_neq v old = true →
  targetMap s !! x = Some dm → alist_get kvalue dm = Some [e] →
  activeEffect s = Some e →
  exec (S (S n)) (CSet x kvalue v) s
  = Ok (VBool true) (emit (EvTrigger x kvalue TSet) (store x (ORef v) s)).
Proof.
  intros Hx Hv Ht Hdep Hact.
  rewrite exec_CSet. unfold obj_set. norm. rewrite Hx.
  unfold ref_set, kvalue. rewrite bool_decide_eq_true_2 by done.
  fold kvalue. rewrite Hv. norm. rewrite bind_unfold, trigger_unfold. cbv zeta.
  assert (Hcol : trigger_collect (store x (ORef v) s) x kvalue TSet
                 = Some (inr ([], []))).
  { rewrite (trigger_collect_set _ _ _ dm) by done.
    rewrite Hdep. cbn [default from_option id addEffects foldl].
    by rewrite bool_decide_eq_true_2. }
  rewrite Hcol. by rewrite bind_unfold, !replay_nil.
Qed.

Lemma self_write_does_not_retrigger_witness :
  let s := track 0 kvalue counter_running in
  dep_of s 0 kvalue = [0] ∧ activeEffect s = Some 0 ∧
  exec 2 (CSet 0 kvalue (int 2)) s
  = Ok (VBool true) (emit (EvTrigger 0 kvalue TSet) (store 0 (ORef (int 2)) s)).
Proof.
  intros s. split; [vm_compute; reflexivity|]. split; [reflexivity|].
  apply (self_write_does_not_retrigger 0 s 0 (int 1) (int 2) 0 [(kvalue, [0])]);
    try done.
Defined.

(** ** The [in] operator *)

(** X28.  The [has] handler registers the running computation under the
    key it is asked about, whether the key is present or not, and
    answers true for an own key.  So a computation that has tested
    [k in p] on a plain object is among those the next [trigger] for [k]
    replays, whether the key is then added, changed or deleted, once it
    is no longer the running one. *)
Theorem membership_test_is_invalidated s t props k e ty :
  activeEffect s = Some e → heap s !! t = Some (OPlain props) →
  let s1 := track t k s in
  let s2 := set_active None [] s1 in
  (∃ b, reactiveHandlers_has t k s = Ok (VBool b) s1 ∧ (k ∈ props.*1 → b = true)) ∧
  e ∈ dep_of s1 t k ∧
  ∃ effs comps,
    trigger_collect s2 t k ty = Some (inr (effs, comps)) ∧ e ∈ comps ++ effs.
Proof.
  intros Ha Ht s1 s2. split; [|split].
  - exists (bool_decide (k ∈ props.*1)). split.
    + unfold reactiveHandlers_has. norm. unfold has_own.
      fold s1. unfold s1 at 1. by rewrite heap_track, Ht.
    + intros Hk. by apply bool_decide_eq_true_2.
  - by apply track_registers.
  - assert (Hin : e ∈ dep_of s2 t k).
    { change (e ∈ dep_of s1 t k). by apply track_registers. }
    assert (Harr : is_array s2 t = false).
    { unfold is_array, s2, s1. cbn [heap set_active]. by rewrite heap_track, Ht. }
    unfold trigger_collect. unfold dep_of in Hin.
    destruct (targetMap s2 !! t) as [dm|]; [|by apply elem_of_nil in Hin].
    rewrite Harr, !andb_false_r.
    destruct (addEffects s2 (default [] (alist_get k dm)) ([], [])) as [effs comps] eqn:E.
    exists effs, comps. split; [done|].
    change (e ∈ (effs, comps).2 ++ (effs, comps).1). rewrite <- E.
    apply addEffects_members_iff. right. split; [done|]. done.
Qed.

Lemma membership_test_is_invalidated_witness :
  let s1 := track 1 (KStr "a") nested_running in
  reactiveHandlers_has 1 (KStr "a") nested_running = Ok (VBool true) s1 ∧
  0 ∈ dep_of s1 1 (KStr "a") ∧
  ∃ effs comps,
    trigger_collect (set_active None [] s1) 1 (KStr "a") TDelete = Some (inr (effs, comps)) ∧
    0 ∈ comps ++ effs.
Proof.
  intros s1.
  destruct (membership_test_is_invalidated nested_running 1
              [(KStr "a", int 1); (KStr "b", VObj 0)] (KStr "a") 0 TDelete eq_refl eq_refl)
    as ((b & H1 & Hb) & H2 & H3).
  rewrite Hb in H1; [|apply list_elem_of_here].
  split; [exact H1|]. split; [exact H2|exact H3].
Defined.
(** ** [traverse] *)

Lemma grows_refl s : grows s s [].
Proof.
  unfold grows. rewrite app_nil_r. repeat split; auto.
  intros e t k _ H. by apply elem_of_nil in H.
Qed.

Lemma grows_trans s1 s2 s3 l1 l2 :
  grows s1 s2 l1 → grows s2 s3 l2 → grows s1 s3 (l1 ++ l2).
Proof.
  intros (A1 & A2 & A3 & A4 & A5 & A6 & A7 & A8) (B1 & B2 & B3 & B4 & B5 & B6 & B7 & B8).
  split; [by rewrite B1, A1, app_assoc|]. split; [by apply Forall_app|].
  split; [auto|]. split; [auto|]. split; [congruence|]. split; [congruence|].
  split; [auto|].
  intros e t k Ha [H|H]%elem_of_app; [eauto|]. apply (B8 e t k); [congruence|done].
Qed.

Lemma grows_track s t k : grows s (track t k s) [EvTrack t k].
Proof.
  split; [apply log_track|]. split; [apply Forall_singleton; by exists t, k|].
  rewrite heap_track, activeEffect_track, effectStack_track.
  do 4 (split; [auto|]). split.
  - intros e t' k' H. destruct (decide ((t', k') = (t, k))) as [[= -> ->]|Hne].
    + rewrite dep_of_track. destruct (activeEffect s); [|done].
      apply elem_of_set_add. auto.
    + by rewrite dep_of_track_ne.
  - intros e t' k' Ha [= -> ->]%list_elem_of_singleton. by apply track_registers.
Qed.

Lemma grows_new_proxy s a :
  grows s (set_reactiveMap (<[a := fresh (dom (heap s))]> (reactiveMap s))
             (store (fresh (dom (heap s))) (OProxy a) s)) [].
Proof.
  unfold grows. cbn [log heap activeEffect effectStack set_reactiveMap store set_heap].
  rewrite app_nil_r. split; [done|]. split; [done|]. split.
  - intros b o H. rewrite lookup_insert_ne; [done|]. intros E.
    pose proof (fresh_heap_None s) as Hf. rewrite E, H in Hf. done.
  - split.
    + intros b props H. destruct (decide (fresh (dom (heap s)) = b)) as [<-|].
      * by rewrite lookup_insert_eq in H.
      * by rewrite lookup_insert_ne in H.
    + do 3 (split; [done|]). intros e t k _ H. by apply elem_of_nil in H.
Qed.

Lemma plain_ok_grows s s' props :
  (∀ a o, heap s !! a = Some o → heap s' !! a = Some o) →
  plain_ok s props → plain_ok s' props.
Proof.
  intros Hh [Hnd H]. split; [done|]. intros k v Hin.
  destruct (H k v Hin) as (A & B & C & D & E). repeat split; auto.
  destruct v; auto. destruct E as [bp Hb]. eauto.
Qed.

Lemma data_only_track s t k : data_only s → data_only (track t k s).
Proof.
  intros [Hwf H]. split.
  - intros a q. rewrite reactiveMap_track, heap_track. apply Hwf.
  - intros a o. rewrite heap_track, reactiveMap_track. intros Ha.
    specialize (H a o Ha). destruct o; auto.
    eapply plain_ok_grows; [|exact H]. intros b ob. by rewrite heap_track.
Qed.

Lemma data_only_new_proxy s b bprops :
  data_only s → heap s !! b = Some (OPlain bprops) → reactiveMap s !! b = None →
  data_only (set_reactiveMap (<[b := fresh (dom (heap s))]> (reactiveMap s))
               (store (fresh (dom (heap s))) (OProxy b) s)).
Proof.
  intros [Hwf H] Hb Hr. set (q := fresh (dom (heap s))).
  assert (Hq : heap s !! q = None) by apply fresh_heap_None.
  assert (Hext : ∀ a o, heap s !! a = Some o → <[q := OProxy b]> (heap s) !! a = Some o).
  { intros a o Ha. rewrite lookup_insert_ne; [done|]. congruence. }
  split.
  - intros a p. cbn [reactiveMap heap set_reactiveMap store set_heap].
    destruct (decide (b = a)) as [->|].
    + rewrite lookup_insert_eq. intros [= <-]. by rewrite lookup_insert_eq.
    + rewrite lookup_insert_ne by done. intros Ha. apply Hext. by apply Hwf.
  - intros a o. cbn [reactiveMap heap set_reactiveMap store set_heap].
    destruct (decide (q = a)) as [<-|Hne].
    + rewrite lookup_insert_eq. intros [= <-]. split.
      * exists bprops. by apply Hext.
      * by rewrite lookup_insert_eq.
    + rewrite lookup_insert_ne by done. intros Ha. specialize (H a o Ha).
      destruct o; auto.
      * eapply plain_ok_grows; [|exact H]. exact Hext.
      * destruct H as [[tp Ht] Hc]. split; [eauto|].
        rewrite lookup_insert_ne; [done|]. intros <-. congruence.
Qed.

(** A read through the proxy of a plain object in a heap of plain data. *)
Lemma data_get m s p t props k v :
  data_only s → heap s !! p = Some (OProxy t) → heap s !! t = Some (OPlain props) →
  (k, v) ∈ props →
  ∃ x s', exec (S (S m)) (CGet p k) s = Ok x s' ∧ data_only s' ∧
          grows s s' [EvTrack t k] ∧
          match v with
          | VObj b => ∃ qb, x = VObj qb ∧ heap s' !! qb = Some (OProxy b)
          | _ => x = v
          end.
Proof.
  intros HD Hp Ht Hin. pose proof HD as [Hwf H].
  pose proof (H t _ Ht) as [Hnd Hprops]. destruct (Hprops k v Hin) as (A & B & C & D & E).
  assert (Hget : alist_get k props = Some v) by by apply NoDup_keys_get.
  destruct (decide (is_object v = true)) as [Hobj|Hobj].
  - destruct v as [| | | | |b|]; try done. destruct E as [bprops Hb].
    pose proof (H b _ Hb) as [_ Hbp].
    assert (Hm : truthy (raw_get (OPlain bprops) (KStr "__isReactive")) = false).
    { cbn [raw_get]. rewrite alist_get_absent; [done|].
      intros ([k' v'] & Hk' & Hin')%list_elem_of_fmap. simpl in Hk'. subst k'.
      by destruct (Hbp _ _ Hin') as (_ & _ & ? & _). }
    rewrite (proxy_get_nested m s p t props k b bprops) by done.
    destruct (reactiveMap s !! b) as [q|] eqn:Hr.
    + exists (VObj q), (track t k s). split; [done|].
      split; [by apply data_only_track|]. split; [apply grows_track|].
      exists q. split; [done|]. rewrite heap_track. by apply Hwf.
    + cbv zeta. eexists _, _. split; [reflexivity|].
      assert (Hb' : heap (track t k s) !! b = Some (OPlain bprops)) by by rewrite heap_track.
      assert (Hr' : reactiveMap (track t k s) !! b = None) by by rewrite reactiveMap_track.
      pose proof (data_only_new_proxy _ b bprops (data_only_track s t k HD) Hb' Hr') as HD'.
      rewrite heap_track, reactiveMap_track in HD'.
      replace (dom (heap s)) with (dom (heap (track t k s))) by by rewrite heap_track.
      split.
      { rewrite heap_track. exact HD'. }
      split.
      { change [EvTrack t k] with ([EvTrack t k] ++ []).
        eapply grows_trans; [apply grows_track|].
        pose proof (grows_new_proxy (track t k s) b) as G.
        by rewrite reactiveMap_track in G. }
      eexists. split; [reflexivity|].
      cbn [heap set_reactiveMap store set_heap]. by rewrite lookup_insert_eq.
  - apply not_true_is_false in Hobj.
    exists v, (track t k s). split.
    + rewrite exec_CGet. unfold obj_get. norm. rewrite Hp.
      unfold reactiveHandlers_get. rewrite !bool_decide_eq_false_2 by done.
      rewrite bind_unfold, exec_CGet. unfold obj_get. norm. rewrite Ht. norm.
      cbn [raw_get]. rewrite Hget. cbn [default from_option id]. by rewrite Hobj.
    + split; [by apply data_only_track|]. split; [apply grows_track|].
      by destruct v.
Qed.

Lemma filter_all {A} (P : A → Prop) `{∀ x, Decision (P x)} (l : list A) :
  (∀ x, x ∈ l → P x) → filter P l = l.
Proof.
  induction l as [|x l IH]; intros Hl; [done|].
  rewrite filter_cons_True by (apply Hl, list_elem_of_here).
  f_equal. apply IH. intros y Hy. by apply Hl, list_elem_of_further.
Qed.

(** [Object.keys] of the proxy of a plain object. *)
Lemma data_keys s p t props :
  data_only s → heap s !! p = Some (OProxy t) → heap s !! t = Some (OPlain props) →
  object_keys p s = Ok props.*1 (track t (KSym "iterate") s) ∧ isArray s p = false.
Proof.
  intros [Hwf H] Hp Ht. pose proof (H t _ Ht) as [Hnd Hprops].
  assert (Harr : is_array s t = false) by (unfold is_array; by rewrite Ht).
  split; [|unfold isArray; by rewrite Hp].
  unfold object_keys. norm. rewrite Hp. unfold reactiveHandlers_ownKeys. norm.
  rewrite Harr, Ht. cbn [own_keys].
  assert (H1 : forallb (λ k, bool_decide (array_index k = None)) props.*1 = true).
  { apply forallb_forall. intros k Hk%list_elem_of_In.
    apply list_elem_of_fmap in Hk as ([k' v] & -> & Hin).
    apply bool_decide_eq_true_2. by destruct (Hprops _ _ Hin) as (_ & ? & _). }
  rewrite H1. norm. f_equal. apply filter_all.
  intros k ([k' v] & -> & Hin)%list_elem_of_fmap.
  by destruct (Hprops _ _ Hin) as (? & _).
Qed.

Lemma closed_node_mono s1 s2 l seen1 seen2 q t :
  heap s1 !! q = Some (OProxy t) → grows s1 s2 l →
  (∀ x, x ∈ seen1 → x ∈ seen2) →
  closed_node s1 seen1 q → closed_node s2 seen2 q.
Proof.
  intros Hq (_ & _ & Hext & Hpl & _) Hsub Hc t' props k b Hq2 Ht2 Hin.
  rewrite (Hext _ _ Hq) in Hq2. injection Hq2 as <-.
  destruct (Hc t props k b Hq (Hpl _ _ Ht2) Hin) as (qb & Hqb & Hb).
  exists qb. split; [auto|]. by apply Hext.
Qed.

Lemma keys_tracked_mono s1 s2 l l1 l2 q t :
  heap s1 !! q = Some (OProxy t) → grows s1 s2 l →
  (∀ ev, ev ∈ l1 → ev ∈ l2) →
  keys_tracked s1 l1 q → keys_tracked s2 l2 q.
Proof.
  intros Hq (_ & _ & Hext & Hpl & _) Hsub Hk t' props Hq2 Ht2.
  rewrite (Hext _ _ Hq) in Hq2. injection Hq2 as <-.
  destruct (Hk t props Hq (Hpl _ _ Ht2)) as [H1 H2]. split; [auto|].
  intros k Hin. auto.
Qed.

Lemma visited_ok_grows U s1 s2 l seen :
  grows s1 s2 l → visited_ok s1 U seen → visited_ok s2 U seen.
Proof.
  intros (_ & _ & Hext & _) [Hnd H]. split; [done|].
  intros q Hq. destruct (H q Hq) as (t & Ht & Hh). eauto.
Qed.

Lemma plain_in_grows U s1 s2 l : grows s1 s2 l → plain_in U s1 → plain_in U s2.
Proof. intros (_ & _ & _ & Hpl & _) H a props Ha. eapply H. by apply Hpl. Qed.

(** Two proxies of one object are one proxy, so [seen] cannot hold more
    members than there are plain objects. *)
Lemma seen_bound U s seen : data_only s → visited_ok s U seen → (List.length seen ≤ size U)%nat.
Proof.
  intros [Hwf H] [Hnd Hv].
  set (tgt := λ q, match heap s !! q with Some (OProxy t) => t | _ => 0 end).
  assert (Hinj : NoDup (tgt <$> seen)).
  { apply NoDup_fmap_2_strong; [|done]. intros q1 q2 H1 H2 E.
    destruct (Hv q1 H1) as (t1 & _ & Hq1). destruct (Hv q2 H2) as (t2 & _ & Hq2).
    unfold tgt in E. rewrite Hq1, Hq2 in E. subst t2.
    destruct (H q1 _ Hq1) as [_ C1]. destruct (H q2 _ Hq2) as [_ C2]. congruence. }
  assert (Hsub : tgt <$> seen ⊆ elements U).
  { intros t0 (q & -> & Hq)%list_elem_of_fmap. destruct (Hv q Hq) as (t & Ht & Hh).
    unfold tgt. rewrite Hh. by apply elem_of_elements. }
  rewrite <- (length_fmap tgt). unfold size, set_size. simpl.
  apply submseteq_length. by apply NoDup_submseteq.
Qed.

Lemma props_value_unique (props : list (key * value)) k v v' :
  NoDup props.*1 → (k, v) ∈ props → (k, v') ∈ props → v = v'.
Proof.
  intros Hnd H1 H2.
  pose proof (NoDup_keys_get k v props Hnd H1) as E1.
  pose proof (NoDup_keys_get k v' props Hnd H2) as E2. congruence.
Qed.

Section traverse_data.
Variable m : nat.
Variable U : gset nat.

Section node.
Variable n : nat.
Hypothesis IH : ∀ v seen s,
  data_only s → plain_in U s → visited_ok s U seen → proxy_or_primitive s v →
  (size U < n + List.length seen)%nat →
  traversed U s seen v (traverse_go (exec (S (S m))) n v seen s).
Variables (a t : nat) (props : list (key * value)) (seen : list nat) (s : state).
Hypothesis Ha : heap s !! a = Some (OProxy t).
Hypothesis Ht : heap s !! t = Some (OPlain props).
Hypothesis HU : plain_in U s.
Hypothesis Hf : (size U < n + List.length (seen ++ [a]))%nat.

Lemma fold_keys ks : ∀ new_i s_i l_i,
  (∀ k, k ∈ ks → k ∈ props.*1) →
  data_only s_i → grows s s_i l_i → visited_ok s_i U (seen ++ [a] ++ new_i) →
  (∀ q, q ∈ new_i →
     closed_node s_i (seen ++ [a] ++ new_i) q ∧ keys_tracked s_i l_i q) →
  ∃ new' s' l',
    foldM (λ seen k,
             let* x := exec (S (S m)) (CGet a k) in
             traverse_go (exec (S (S m))) n x seen)
          ks (seen ++ [a] ++ new_i) s_i
    = Ok (seen ++ [a] ++ new') s' ∧
    data_only s' ∧ grows s s' l' ∧ visited_ok s' U (seen ++ [a] ++ new') ∧
    (∀ q, q ∈ new' →
       closed_node s' (seen ++ [a] ++ new') q ∧ keys_tracked s' l' q) ∧
    (∀ ev, ev ∈ l_i → ev ∈ l') ∧
    (∀ q, q ∈ new_i → q ∈ new') ∧
    (∀ b o, heap s_i !! b = Some o → heap s' !! b = Some o) ∧
    (∀ k, k ∈ ks → EvTrack t k ∈ l') ∧
    (∀ k b, k ∈ ks → (k, VObj b) ∈ props →
       ∃ qb, qb ∈ seen ++ [a] ++ new' ∧ heap s' !! qb = Some (OProxy b)).
Proof.
  induction ks as [|k ks IHks]; intros new_i s_i l_i Hks HD HG HV Hnew.
  { exists new_i, s_i, l_i. do 8 (split; [done|]). split.
    - intros k H. by apply elem_of_nil in H.
    - intros k b H. by apply elem_of_nil in H. }
  pose proof HG as (_ & _ & Hext & Hpl & _).
  assert (Ha_i : heap s_i !! a = Some (OProxy t)) by auto.
  assert (Ht_i : heap s_i !! t = Some (OPlain props)) by auto.
  assert (Hk : ∃ v, (k, v) ∈ props).
  { specialize (Hks k (list_elem_of_here _ _)).
    apply list_elem_of_fmap in Hks as ([k' v] & -> & Hin). eauto. }
  destruct Hk as [v Hkv].
  destruct (data_get m s_i a t props k v HD Ha_i Ht_i Hkv)
    as (x & s_x & Hexec & HDx & HGx & Hx).
  assert (Hpx : proxy_or_primitive s_x x).
  { destruct v; try (subst x; exact I). destruct Hx as (qb & -> & Hqb).
    by exists a0. }
  assert (HGsx : grows s s_x (l_i ++ [EvTrack t k])) by by eapply grows_trans.
  destruct (IH x (seen ++ [a] ++ new_i) s_x HDx) as (new_x & s_y & l_x & Hgo & HDy & HGy & HVy & Hnewx & Hxin).
  { exact (plain_in_grows U s s_x _ HGsx HU). }
  { exact (visited_ok_grows U s_i s_x _ _ HGx HV). }
  { exact Hpx. }
  { rewrite !length_app in *. simpl in *. lia. }
  assert (HGsy : grows s s_y ((l_i ++ [EvTrack t k]) ++ l_x)) by by eapply grows_trans.
  assert (HGiy : grows s_i s_y ([EvTrack t k] ++ l_x)) by by eapply grows_trans.
  assert (Hassoc : (seen ++ [a] ++ new_i) ++ new_x = seen ++ [a] ++ (new_i ++ new_x))
    by by rewrite <- !app_assoc.
  rewrite Hassoc in *.
  destruct (IHks (new_i ++ new_x) s_y ((l_i ++ [EvTrack t k]) ++ l_x))
    as (new' & s' & l' & Hfold & HD' & HG' & HV' & Hnew' & Hl' & Hsub' & Hext' & Htr' & Hch');
    auto.
  { intros k' Hk'. apply Hks. by apply list_elem_of_further. }
  { intros q [Hq|Hq]%elem_of_app.
    - destruct (Hnew q Hq) as [C T].
      destruct HV as [_ HVm]. destruct (HVm q) as (tq & _ & Hhq).
      { rewrite !elem_of_app. auto. }
      split.
      + eapply closed_node_mono; [exact Hhq|exact HGiy| |exact C].
        intros y. rewrite !elem_of_app. tauto.
      + eapply keys_tracked_mono; [exact Hhq|exact HGiy| |exact T].
        intros ev. rewrite !elem_of_app. tauto.
    - destruct (Hnewx q Hq) as [C T].
      destruct HVy as [_ HVm]. destruct (HVm q) as (tq & _ & Hhq).
      { rewrite !elem_of_app. auto. }
      split; [exact C|].
      eapply keys_tracked_mono; [exact Hhq|apply grows_refl| |exact T].
      intros ev. rewrite !elem_of_app. tauto. }
  exists new', s', l'. split.
  { cbn [foldM]. rewrite !bind_unfold, Hexec, Hgo. exact Hfold. }
  pose proof HGiy as (_ & _ & Hext_iy & _).
  pose proof HGy as (_ & _ & Hext_xy & _).
  do 4 (split; [done|]). split; [|split; [|split; [|split]]].
  - intros ev Hev. apply Hl'. rewrite !elem_of_app. auto.
  - intros q Hq. apply Hsub'. rewrite elem_of_app. auto.
  - intros b o Hb. auto.
  - intros k' [->|Hk']%elem_of_cons; [|auto].
    apply Hl'. rewrite !elem_of_app, list_elem_of_singleton. auto.
  - intros k' b [->|Hk']%elem_of_cons Hb; [|eauto].
    assert (v = VObj b) as ->.
    { pose proof (proj2 HD t _ Ht_i) as [Hnd _]. eapply props_value_unique; eauto. }
    destruct Hx as (qb & -> & Hqb). exists qb. split; [|auto].
    rewrite !elem_of_app in Hxin. rewrite !elem_of_app.
    destruct Hxin as [?|[?|Hq]]; [auto|auto|].
    right. right. apply Hsub'. by rewrite elem_of_app.
Qed.
End node.

Lemma traverse_go_data fuel : ∀ v seen s,
  data_only s → plain_in U s → visited_ok s U seen → proxy_or_primitive s v →
  (size U < fuel + List.length seen)%nat →
  traversed U s seen v (traverse_go (exec (S (S m))) fuel v seen s).
Proof.
  induction fuel as [|n IH]; intros v seen s HD HU HV Hv Hf.
  { pose proof (seen_bound U s seen HD HV). simpl in Hf. lia. }
  assert (Hnone : (match v with VObj a => a ∈ seen | _ => True end) →
                  traversed U s seen v (Ok seen s)).
  { intros Hin. exists [], s, []. rewrite app_nil_r.
    split; [done|]. split; [done|]. split; [apply grows_refl|]. split; [done|].
    split; [|done]. intros q Hq. by apply elem_of_nil in Hq. }
  destruct v as [| | | | |a|]; try (by apply Hnone).
  cbn [traverse_go]. unfold set_has. case_bool_decide as Hin; [by apply Hnone|].
  destruct Hv as [t Ha]. pose proof HD as [Hwf H].
  destruct (H a _ Ha) as [[props Ht] Hc].
  destruct (data_keys s a t props HD Ha Ht) as [Hkeys Harr].
  norm. rewrite Harr, bind_unfold, Hkeys.
  set (s1 := track t (KSym "iterate") s).
  assert (HG1 : grows s s1 [EvTrack t (KSym "iterate")]) by apply grows_track.
  assert (HV1 : visited_ok s1 U (seen ++ [a] ++ [])).
  { rewrite app_nil_r. destruct HV as [Hnd Hm]. split.
    - apply NoDup_app. split; [done|]. split; [|apply NoDup_singleton].
      intros x Hx ->%list_elem_of_singleton. done.
    - intros q [Hq| ->%list_elem_of_singleton]%elem_of_app.
      + destruct (Hm q Hq) as (tq & ? & ?). exists tq. split; [done|].
        unfold s1. by rewrite heap_track.
      + exists t. split; [by eapply HU|]. unfold s1. by rewrite heap_track. }
  destruct (fold_keys n IH a t props seen s Ha Ht HU) with
    (ks := props.*1) (new_i := @nil nat) (s_i := s1) (l_i := [EvTrack t (KSym "iterate")])
    as (new' & s' & l' & Hfold & HD' & HG' & HV' & Hnew' & Hl' & _ & Hext' & Htr' & Hch');
    auto.
  { rewrite length_app. simpl. lia. }
  { by apply data_only_track. }
  { intros q Hq. by apply elem_of_nil in Hq. }
  rewrite app_nil_r in Hfold.
  exists ([a] ++ new'), s', l'. split; [exact Hfold|].
  split; [done|]. split; [done|]. split; [done|].
  pose proof HG' as (_ & _ & Hext & Hpl & _).
  split; [|rewrite !elem_of_app, list_elem_of_singleton; auto].
  intros q [->%list_elem_of_singleton|Hq]%elem_of_app; [|auto].
  split.
  - intros t' props' k b Ha' Ht' Hkb.
    rewrite (Hext _ _ Ha) in Ha'. injection Ha' as <-.
    rewrite (Hext _ _ Ht) in Ht'. injection Ht' as <-.
    apply (Hch' k b); [|done]. apply list_elem_of_fmap. by exists (k, VObj b).
  - intros t' props' Ha' Ht'.
    rewrite (Hext _ _ Ha) in Ha'. injection Ha' as <-.
    rewrite (Hext _ _ Ht) in Ht'. injection Ht' as <-.
    split; [apply Hl', list_elem_of_here|]. auto.
Qed.
End traverse_data.

(** Whatever can be reached from a visited object has been visited. *)
Lemma reachable_visited s s' l seen t c :
  grows s s' l →
  (∀ q, q ∈ seen → closed_node s' seen q) →
  reachable s t c →
  (∃ q, q ∈ seen ∧ heap s' !! q = Some (OProxy t)) →
  ∃ q, q ∈ seen ∧ heap s' !! q = Some (OProxy c).
Proof.
  intros (_ & _ & Hext & _) Hclosed Hr. induction Hr as [t|t props k b c Ht Hk Hr IH].
  - done.
  - intros (q & Hq & Hqt). apply IH.
    apply (Hclosed q Hq t props k b); auto.
Qed.

(** X26.  [traverse] on the proxy of plain data, cyclic or not.  In a
    heap that holds only plain objects with string keys and their proxies,
    [traverse(p)] returns, with a step budget above the number of
    objects, and it returns [p].  It only reads: nothing is logged but
    calls of [track], no object changes, proxies may be created.  For
    every object that can be reached from the target of [p] through
    properties it has called [track] for the enumeration and for every
    key, so a computation that runs [traverse(p)] depends on every key of
    every such object. *)
Theorem traverse_reads_everything m fuel s p t :
  data_only s → heap s !! p = Some (OProxy t) → (size (heap s) < fuel)%nat →
  ∃ s' l,
    traverse (exec (S (S m))) fuel (VObj p) s = Ok (VObj p) s' ∧
    grows s s' l ∧ data_only s' ∧
    ∀ c props, reachable s t c → heap s !! c = Some (OPlain props) →
      EvTrack c (KSym "iterate") ∈ l ∧
      ∀ k, k ∈ props.*1 →
        EvTrack c k ∈ l ∧ ∀ e, activeEffect s = Some e → e ∈ dep_of s' c k.
Proof.
  intros HD Hp Hf.
  destruct (traverse_go_data m (dom (heap s)) fuel (VObj p) [] s HD)
    as (new & s' & l & Hgo & HD' & HG & HV & Hnew & Hin).
  { intros a props Ha. apply elem_of_dom. by eexists. }
  { split; [apply NoDup_nil_2|]. intros q Hq. by apply elem_of_nil in Hq. }
  { by exists t. }
  { rewrite size_dom. simpl. lia. }
  simpl in Hgo, Hin, HV, Hnew.
  exists s', l. split.
  { unfold traverse. by rewrite bind_unfold, Hgo. }
  split; [done|]. split; [done|].
  pose proof HG as (_ & _ & Hext & _ & _ & _ & _ & Hdep).
  intros c props Hr Hc.
  destruct (reachable_visited s s' l new t c HG) as (q & Hq & Hqc); auto.
  { intros q Hq. by apply Hnew. }
  { exists p. split; [done|]. by apply Hext. }
  destruct (Hnew q Hq) as [_ Htr].
  destruct (Htr c props Hqc (Hext _ _ Hc)) as [H1 H2].
  split; [done|]. intros k Hk. split; [auto|]. intros e He. apply Hdep; auto.
Qed.

Lemma data_only_cyclic_setup : data_only cyclic_setup.
Proof.
  assert (Hh : heap cyclic_setup
               = <[1 := OProxy 0]>
                   (<[0 := OPlain [(KStr "n", int 1); (KStr "self", VObj 0)]]> ∅))
    by (vm_compute; reflexivity).
  assert (Hr : reactiveMap cyclic_setup = <[0 := 1]> ∅) by (vm_compute; reflexivity).
  split.
  - intros a q. rewrite Hr, Hh. intros [[<- <-]|[_ ?]]%lookup_insert_Some; [|done].
    by rewrite lookup_insert_eq.
  - intros a o. rewrite Hh, Hr.
    intros [[<- <-]|[? [[<- <-]|[_ ?]]%lookup_insert_Some]]%lookup_insert_Some; [| |done].
    + split; [|by rewrite lookup_insert_eq].
      eexists. rewrite lookup_insert_ne by done. by rewrite lookup_insert_eq.
    + split.
      { csimpl. apply (bool_decide_unpack _). by vm_compute. }
      intros k v Hin.
      apply elem_of_cons in Hin as [[= -> ->]|Hin]; [by repeat split|].
      apply elem_of_cons in Hin as [[= -> ->]|Hin]; [|by apply elem_of_nil in Hin].
      repeat split; try done. eexists.
      rewrite Hh, lookup_insert_ne by done. by rewrite lookup_insert_eq.
Qed.

Lemma traverse_reads_everything_witness :
  ∃ s', traverse (exec 2) 3 (VObj 1) cyclic_setup = Ok (VObj 1) s' ∧
        log s' = [EvTrack 0 (KSym "iterate"); EvTrack 0 (KStr "n");
                  EvTrack 0 (KStr "self")] ∧
        heap s' = heap cyclic_setup.
Proof.
  destruct (traverse_reads_everything 0 3 cyclic_setup 1 0 data_only_cyclic_setup)
    as (s' & l & H & _); [done|vm_compute; lia|].
  exists s'. split; [exact H|].
  vm_compute in H. injection H as <-. split; vm_compute; reflexivity.
Defined.
(** ** [traverse] over an array *)

Section traverse_array.
Variables (m n : nat) (p t : nat) (len : Z) (props : list (key * value)).
Hypothesis Hdense : ∀ i, (i < Z.to_nat len)%nat →
  ∃ v, alist_get (index_key i) props = Some v ∧ is_object v = false ∧
       index_key i ≠ KStr "__isReactive" ∧ index_key i ≠ KStr "__raw" ∧
       index_key i ≠ KStr "length".

Lemma forEach_step i seen s :
  (i < Z.to_nat len)%nat →
  heap s !! p = Some (OProxy t) → heap s !! t = Some (OArray len props) →
  (let* present := has_property p (index_key i) in
   if present
   then let* x := exec (S (S m)) (CGet p (index_key i)) in
        traverse_go (exec (S (S m))) (S n) x seen
   else ret seen) s
  = Ok seen (track t (index_key i) (track t (index_key i) s)).
Proof.
  intros Hi Hp Ht. destruct (Hdense i Hi) as (v & Hget & Hv & Hk1 & Hk2 & Hk3).
  unfold has_property. norm. rewrite Hp. norm.
  assert (Hown : has_own s t (index_key i) = true).
  { unfold has_own. rewrite Ht. apply bool_decide_eq_true_2. cbn [own_keys].
    apply elem_of_app. left. by eapply alist_get_elem_of. }
  rewrite Hown. rewrite bind_unfold.
  assert (Hread : exec (S (S m)) (CGet p (index_key i)) (track t (index_key i) s)
                  = Ok v (track t (index_key i) (track t (index_key i) s))).
  { rewrite exec_CGet. unfold obj_get. norm. rewrite heap_track, Hp.
    unfold reactiveHandlers_get. rewrite !bool_decide_eq_false_2 by done.
    rewrite bind_unfold, exec_CGet. unfold obj_get. norm. rewrite heap_track, Ht. norm.
    cbn [raw_get]. rewrite bool_decide_eq_false_2 by done.
    rewrite Hget. cbn [default from_option id]. by rewrite Hv. }
  rewrite Hread. by destruct v.
Qed.

Lemma forEach_indices seen : ∀ (ixs : list nat) s,
  (∀ i, i ∈ ixs → (i < Z.to_nat len)%nat) →
  heap s !! p = Some (OProxy t) → heap s !! t = Some (OArray len props) →
  foldM (λ seen i,
           let* present := has_property p (index_key i) in
           if present
           then let* x := exec (S (S m)) (CGet p (index_key i)) in
                traverse_go (exec (S (S m))) (S n) x seen
           else ret seen) ixs seen s
  = Ok seen (foldl (λ s i, track t (index_key i) (track t (index_key i) s)) s ixs).
Proof.
  induction ixs as [|i ixs IH]; intros s His Hp Ht; [done|].
  cbn [foldM foldl]. rewrite bind_unfold, forEach_step; auto.
  - apply IH; rewrite ?heap_track; auto.
    intros j Hj. apply His. by apply list_elem_of_further.
  - apply His, list_elem_of_here.
Qed.
End traverse_array.

(** X29.  [traverse] on the proxy of an array of primitives: it looks up
    [forEach] and reads [length] through the proxy, then tests and reads
    each index in turn, so it calls [track] for [forEach], for [length]
    and twice for every index; it adds the proxy to [seen] and changes
    nothing else. *)
Theorem traverse_array_of_primitives m n s p t len props seen :
  heap s !! p = Some (OProxy t) → heap s !! t = Some (OArray len props) →
  p ∉ seen → alist_get (KStr "forEach") props = None →
  (∀ i, (i < Z.to_nat len)%nat →
     ∃ v, alist_get (index_key i) props = Some v ∧ is_object v = false ∧
          index_key i ≠ KStr "__isReactive" ∧ index_key i ≠ KStr "__raw" ∧
          index_key i ≠ KStr "length") →
  traverse_go (exec (S (S m))) (S (S n)) (VObj p) seen s
  = Ok (seen ++ [p])
       (foldl (λ s i, track t (index_key i) (track t (index_key i) s))
          (track t klength (track t (KStr "forEach") s))
          (seq 0 (Z.to_nat len))).
Proof.
  intros Hp Ht Hseen Hfe Hdense.
  cbn [traverse_go]. unfold set_has. rewrite bool_decide_eq_false_2 by done.
  norm. unfold isArray, is_array. rewrite Hp, Ht.
  assert (Hread : ∀ k v s0, heap s0 !! p = Some (OProxy t) →
            heap s0 !! t = Some (OArray len props) →
            k ≠ KStr "__isReactive" → k ≠ KStr "__raw" →
            raw_get (OArray len props) k = v → is_object v = false →
            exec (S (S m)) (CGet p k) s0 = Ok v (track t k s0)).
  { intros k v s0 Hp0 Ht0 Hk1 Hk2 Hv Hobj.
    rewrite exec_CGet. unfold obj_get. norm. rewrite Hp0.
    unfold reactiveHandlers_get. rewrite !bool_decide_eq_false_2 by done.
    rewrite bind_unfold, exec_CGet. unfold obj_get. norm. rewrite Ht0. norm.
    by rewrite Hv, Hobj. }
  rewrite bind_unfold, (Hread (KStr "forEach") VUndef s) by
    (try done; cbn [raw_get]; rewrite bool_decide_eq_false_2 by done; by rewrite Hfe).
  unfold forEach. rewrite bind_unfold.
  rewrite (Hread (KStr "length") (VNum (Num len))) by (by rewrite ?heap_track).
  apply (forEach_indices m n p t len props Hdense); rewrite ?heap_track; auto.
  intros i Hi%elem_of_seq. lia.
Qed.

Lemma traverse_array_of_primitives_witness :
  ∃ s', traverse_go (exec 2) 2 (VObj 1) [] array_setup = Ok [1] s' ∧
        log s' = log array_setup ++
                 [EvTrack 0 (KStr "forEach"); EvTrack 0 klength;
                  EvTrack 0 (KStr "0"); EvTrack 0 (KStr "0");
                  EvTrack 0 (KStr "1"); EvTrack 0 (KStr "1");
                  EvTrack 0 (KStr "2"); EvTrack 0 (KStr "2")].
Proof.
  eexists. split.
  - apply (traverse_array_of_primitives 0 0 array_setup 1 0 3
             [(KStr "0", int 1); (KStr "1", int 2); (KStr "2", int 3)] []).
    + by vm_compute.
    + by vm_compute.
    + apply not_elem_of_nil.
    + reflexivity.
    + intros i Hi. change (Z.to_nat 3) with 3%nat in Hi.
      destruct i as [|[|[|i]]]; [| | |lia]; eexists; by vm_compute.
  - by vm_compute.
Defined.
